(** * Speech-segment detection and merging ([detect_speech_segments], main.py)

    The function pads every non-silent chunk reported by pydub's
    [detect_nonsilent] (integer milliseconds) with context before and pause
    after, converts both ends to seconds ([/1000], Python true division, a
    float), and merges the padded ranges in one pass.

    Python's [float] is IEEE-754 binary64.  The embedding is written once over
    the float operations the function uses ([PyFloat]) and instantiated twice:
    - [Binary64]: Rocq's primitive binary64 floats, the arithmetic the
      program runs on;
    - [Exact]: exact rationals, the arithmetic the decimal figures of the
      description ([0.7], [2.5], ...) are read in.
    Order properties are proved once from the laws both instances satisfy
    (the conversion to seconds keeps the order of the offsets).  The test of
    line 87 is the one place where rounding can decide the outcome: there the
    binary64 result is proved equal to the exact one unless the integer gap
    equals the integer threshold. *)

From Stdlib Require Import ZArith QArith Qreduction Lqa Lia List Bool.
From Stdlib Require String.
Import String.StringSyntax.
Delimit Scope string_scope with string.
From Stdlib Require Import Floats Uint63.
Import ListNotations.

Local Open Scope Z_scope.

(** A property of every pair of neighbours of a list. *)
Fixpoint adjacent {X : Type} (P : X -> X -> Prop) (l : list X) : Prop :=
  match l with
  | a :: (b :: _) as tl => P a b /\ adjacent P tl
  | _ => True
  end.

(** ** Python float arithmetic, as far as the function uses it *)

Record PyFloat : Type := {
  F : Type;
  truediv : Z -> Z -> F;     (* int / int *)
  of_int : Z -> F;           (* the float an int operand is converted to *)
  fle : F -> F -> bool;      (* x <= y *)
  flt : F -> F -> bool;      (* x < y, that is y > x *)
  fsub : F -> F -> F;        (* x - y *)
  fmul : F -> F -> F         (* x * y *)
}.

Arguments truediv {A} _ _ : rename.
Arguments of_int {A} _ : rename.
Arguments fle {A} _ _ : rename.
Arguments flt {A} _ _ : rename.
Arguments fsub {A} _ _ : rename.
Arguments fmul {A} _ _ : rename.

Section DetectSpeechSegments.
Context {A : PyFloat}.

(** A range in seconds, [(start, end)]. *)
Definition range : Type := (F A * F A)%type.

(** The builtin [max(a, b)]: [b] replaces [a] only when [b > a]. *)
Definition pymax (a b : F A) : F A := if flt a b then b else a.

(** [x > n] for a float [x] and an int [n]. *)
Definition fgt_int (x : F A) (n : Z) : bool := flt (of_int n) x.

(** Lines 72-78: one chunk, padded and converted to seconds. *)
Definition pad (context_ms pause_ms : Z) (chunk : Z * Z) : range :=
  let '(start, end_) := chunk in
  let context_start := Z.max 0 (start - context_ms) in
  let extended_end := end_ + pause_ms in
  (truediv context_start 1000, truediv extended_end 1000).

Definition non_silent_ranges (non_silent_chunks : list (Z * Z))
    (context_ms pause_ms : Z) : list range :=
  map (pad context_ms pause_ms) non_silent_chunks.

(** The test of line 87:
    [(start - current_end) * 1000 > (min_silence_len - pause_ms - context_ms)]. *)
Definition gap_exceeds (min_silence_len context_ms pause_ms : Z)
    (start current_end : F A) : bool :=
  fgt_int (fmul (fsub start current_end) (of_int 1000))
          (min_silence_len - pause_ms - context_ms).

(** The variables the loop of lines 83-91 updates. *)
Record loop_state : Type := {
  merged : list range;       (* merged_ranges *)
  current_start : F A;
  current_end : F A
}.

Definition loop_body (min_silence_len context_ms pause_ms : Z)
    (st : loop_state) (r : range) : loop_state :=
  let '(start, end_) := r in
  if fle start (current_end st) then
    {| merged := merged st;
       current_start := current_start st;
       current_end := pymax (current_end st) end_ |}
  else if gap_exceeds min_silence_len context_ms pause_ms start (current_end st) then
    {| merged := merged st ++ [(current_start st, current_end st)];
       current_start := start;
       current_end := end_ |}
  else
    {| merged := merged st;
       current_start := current_start st;
       current_end := end_ |}.

(** Lines 80-92. *)
Definition merged_ranges (ranges : list range)
    (min_silence_len context_ms pause_ms : Z) : list range :=
  match ranges with
  | [] => []
  | (start0, end0) :: rest =>
      let st := fold_left (loop_body min_silence_len context_ms pause_ms) rest
                  {| merged := []; current_start := start0; current_end := end0 |} in
      merged st ++ [(current_start st, current_end st)]
  end.

(** The merge step: what [detect_speech_segments] does with the chunks the
    detector returned. *)
Definition merge (non_silent_chunks : list (Z * Z))
    (min_silence_len context_ms pause_ms : Z) : list range :=
  merged_ranges (non_silent_ranges non_silent_chunks context_ms pause_ms)
                min_silence_len context_ms pause_ms.

(** The whole function; audio decoding and silence detection are pydub's
    and are taken as parameters.  The progress line printed before the
    return has no part in the value returned and is left out. *)
Section Detector.
Variable AudioSegment : Type.
Variable from_file : String.string -> AudioSegment.
Variable detect_nonsilent : AudioSegment -> Z -> Z -> list (Z * Z).

Definition detect_speech_segments (audio_path : String.string)
    (min_silence_len silence_thresh context_ms pause_ms : Z) : list range :=
  let audio := from_file audio_path in
  let non_silent_chunks := detect_nonsilent audio min_silence_len silence_thresh in
  merge non_silent_chunks min_silence_len context_ms pause_ms.
End Detector.

(** The loop again, by recursion on the ranges still to read: the ranges
    emitted from accumulator [(cs, ce)] on. *)
Fixpoint merge_from (min_silence_len context_ms pause_ms : Z)
    (cs ce : F A) (rest : list range) : list range :=
  match rest with
  | [] => [(cs, ce)]
  | (start, end_) :: rest' =>
      if fle start ce then
        merge_from min_silence_len context_ms pause_ms cs (pymax ce end_) rest'
      else if gap_exceeds min_silence_len context_ms pause_ms start ce then
        (cs, ce) :: merge_from min_silence_len context_ms pause_ms start end_ rest'
      else
        merge_from min_silence_len context_ms pause_ms cs end_ rest'
  end.

(** *** Predicates on the output *)

(** [r] lies inside [o]: [o.start <= r.start] and [r.end <= o.end]. *)
Definition within (r o : range) : Prop :=
  fle (fst o) (fst r) = true /\ fle (snd r) (snd o) = true.

Definition covered (r : range) (out : list range) : Prop :=
  exists o, In o out /\ within r o.

End DetectSpeechSegments.

Arguments range : clear implicits.
Arguments loop_state : clear implicits.

(** ** The two arithmetics *)

(** IEEE-754 binary64, the arithmetic of CPython's [float].  An int operand
    is converted exactly as long as its magnitude is below [2^53]; in that
    range [int / int] is the correctly rounded quotient, which is what the
    division of the two converted operands gives. *)
Module Binary64.
Definition float_of_int (n : Z) : float :=
  if n <? 0 then PrimFloat.opp (PrimFloat.of_uint63 (Uint63.of_Z (- n)))
  else PrimFloat.of_uint63 (Uint63.of_Z n).

Definition int_truediv (a b : Z) : float :=
  PrimFloat.div (float_of_int a) (float_of_int b).

Definition arith : PyFloat :=
  {| F := float;
     truediv := int_truediv;
     of_int := float_of_int;
     fle := PrimFloat.leb;
     flt := PrimFloat.ltb;
     fsub := PrimFloat.sub;
     fmul := PrimFloat.mul |}.

(** The largest offset (exclusive) the analysis of the rounding covers:
    [2^48] milliseconds, some 8 900 years of audio. *)
Definition horizon : Z := 2 ^ 48.
End Binary64.

(** Exact rationals, kept in lowest terms. *)
Module Exact.
Definition int_truediv (a b : Z) : Q := Qred (inject_Z a / inject_Z b).

Definition arith : PyFloat :=
  {| F := Q;
     truediv := int_truediv;
     of_int := inject_Z;
     fle := Qle_bool;
     flt := fun x y => negb (Qle_bool y x);
     fsub := fun x y => Qred (x - y);
     fmul := fun x y => Qred (x * y) |}.
End Exact.

(** ** Well-formed detector output *)

(** A raw non-silent range has [start < end]; the detector lists the ranges
    in ascending order and without overlap. *)
Definition chunk_ok (chunk : Z * Z) : Prop := fst chunk < snd chunk.

Definition well_formed (non_silent_chunks : list (Z * Z)) : Prop :=
  Forall chunk_ok non_silent_chunks /\
  adjacent (fun a b => fst a <= fst b) non_silent_chunks /\
  adjacent (fun a b => snd a <= fst b) non_silent_chunks.

(** The ranges are offsets into the audio: none starts before time zero. *)
Definition on_timeline (non_silent_chunks : list (Z * Z)) : Prop :=
  Forall (fun chunk => 0 <= fst chunk) non_silent_chunks.

(** Every padded offset stays below the horizon of [Binary64]. *)
Definition within_horizon (non_silent_chunks : list (Z * Z)) (pause_ms : Z) : Prop :=
  Forall (fun chunk => snd chunk + pause_ms < Binary64.horizon) non_silent_chunks.

(** No two consecutive raw ranges are exactly [min_silence_len] apart. *)
Definition no_tie (min_silence_len : Z) (non_silent_chunks : list (Z * Z)) : Prop :=
  adjacent (fun a b => fst b - snd a <> min_silence_len) non_silent_chunks.

(** The parameters are below the horizon of [Binary64] too. *)
Definition params_within_horizon (min_silence_len context_ms pause_ms : Z) : Prop :=
  0 <= min_silence_len < Binary64.horizon /\
  0 <= context_ms < Binary64.horizon /\
  0 <= pause_ms < Binary64.horizon.

(** ** The loop on millisecond offsets

    Every float the loop handles is the quotient [n / 1000] of an integer
    offset.  [merge_ms] is the loop on those integers, with the outcome of the
    test of line 87 (which does compute with the floats) as a parameter [g];
    the theorems below relate it to [merge_from]. *)

Definition pad_ms (context_ms pause_ms : Z) (chunk : Z * Z) : Z * Z :=
  let '(start, end_) := chunk in
  (Z.max 0 (start - context_ms), end_ + pause_ms).

Definition seconds {A : PyFloat} (r : Z * Z) : range A :=
  (truediv (fst r) 1000, truediv (snd r) 1000).

Definition gap_test {A : PyFloat} (min_silence_len context_ms pause_ms : Z)
    (start current_end : Z) : bool :=
  gap_exceeds (A:=A) min_silence_len context_ms pause_ms
              (truediv start 1000) (truediv current_end 1000).

Fixpoint merge_ms (g : Z -> Z -> bool) (cs ce : Z) (rest : list (Z * Z))
    : list (Z * Z) :=
  match rest with
  | [] => [(cs, ce)]
  | (start, end_) :: rest' =>
      if start <=? ce then merge_ms g cs (Z.max ce end_) rest'
      else if g start ce then (cs, ce) :: merge_ms g start end_ rest'
      else merge_ms g cs end_ rest'
  end.

Definition merge_ms_all (g : Z -> Z -> bool) (ranges : list (Z * Z)) : list (Z * Z) :=
  match ranges with
  | [] => []
  | (start0, end0) :: rest => merge_ms g start0 end0 rest
  end.

(** Predicates on lists of millisecond ranges. *)
Definition proper_ms (l : list (Z * Z)) : Prop :=
  Forall (fun r => fst r < snd r) l.

Definition covered_ms (r : Z * Z) (out : list (Z * Z)) : Prop :=
  exists o, In o out /\ fst o <= fst r /\ snd r <= snd o.

Definition apart_ms (g : Z -> Z -> bool) (a b : Z * Z) : Prop :=
  snd a < fst b /\ g (fst b) (snd a) = true.

(** The conversion to seconds keeps the order of the offsets in [dom]. *)
Record SecondsLaws (A : PyFloat) (dom : Z -> Prop) : Prop := {
  sec_le : forall m n, dom m -> dom n ->
    fle (truediv (A:=A) m 1000) (truediv n 1000) = (m <=? n);
  sec_lt : forall m n, dom m -> dom n ->
    flt (truediv (A:=A) m 1000) (truediv n 1000) = (m <? n)
}.

Definition all_in (dom : Z -> Prop) (l : list (Z * Z)) : Prop :=
  Forall (fun r => dom (fst r) /\ dom (snd r)) l.

(** ** Binary64 through its specification

    [Prim2SF] maps a primitive float to its specification ([spec_float]); the
    definitions below name what the analysis of [n / 1000] needs. *)

(** The location after one more bit [odd] has been shifted out. *)
Definition loc_after_shift (odd : bool) (l : location) : location :=
  match odd, l with
  | false, loc_Exact => loc_Exact
  | false, _ => loc_Inexact Lt
  | true, loc_Exact => loc_Inexact Eq
  | true, _ => loc_Inexact Gt
  end.

(** The mantissa of [1000.0], which is [1000 * 2^43] with exponent [-43]. *)
Definition mantissa_1000 : positive := 8796093022208000.

(** The specification of [n / 1000]: both ints converted, then divided. *)
Definition seconds_spec (n : Z) : spec_float :=
  SFdiv 53 1024 (binary_normalize 53 1024 n 0 false)
                (binary_normalize 53 1024 1000 0 false).

(** The location of a remainder [low] below [pw]. *)
Definition loc_half (low pw : Z) : location :=
  if low =? 0 then loc_Exact else loc_Inexact (2 * low ?= pw).

(** Every finite binary64 number is an integer multiple of [2^-1074]: its
    value times [2^scale] is an integer, [fval]. *)
Definition scale : Z := 1100.

Definition fval (f : spec_float) : Z :=
  match f with
  | S754_finite s m e => cond_Zopp s (Zpos m * 2 ^ (e + scale))
  | _ => 0
  end.

Definition fexpo (f : spec_float) : Z :=
  match f with
  | S754_finite _ _ e => e
  | _ => 0
  end.

(** A positive normal number. *)
Definition normal_pos (f : spec_float) : Prop :=
  exists (M : positive) (E : Z),
    f = S754_finite false M E /\ 2 ^ 52 <= Zpos M < 2 ^ 53.

(** *** Properties of an output sequence *)

Section OutputProperties.
Context {A : PyFloat}.

(** Every output range has [end > start]. *)
Definition nondegenerate (out : list (range A)) : Prop :=
  Forall (fun r => flt (fst r) (snd r) = true) out.

(** Ascending by start. *)
Definition ascending (out : list (range A)) : Prop :=
  adjacent (fun a b => fle (fst a) (fst b) = true) out.

(** Neighbours do not overlap: [a.end <= b.start]. *)
Definition non_overlapping (out : list (range A)) : Prop :=
  adjacent (fun a b => fle (snd a) (fst b) = true) out.

(** Neighbours are strictly apart: [a.end < b.start]. *)
Definition strictly_separated (out : list (range A)) : Prop :=
  adjacent (fun a b => flt (snd a) (fst b) = true) out.

(** Neighbours are at least [min_silence_len] apart:
    [(b.start - a.end) * 1000 >= min_silence_len]. *)
Definition min_spacing (min_silence_len : Z) (out : list (range A)) : Prop :=
  adjacent (fun a b =>
    fle (of_int min_silence_len)
        (fmul (fsub (fst b) (snd a)) (of_int 1000)) = true) out.

(** Neighbours passed the test of line 87:
    [(b.start - a.end) * 1000 > min_silence_len - pause_ms - context_ms]. *)
Definition gap_spacing (min_silence_len context_ms pause_ms : Z)
    (out : list (range A)) : Prop :=
  adjacent (fun a b =>
    gap_exceeds min_silence_len context_ms pause_ms (fst b) (snd a) = true) out.
End OutputProperties.

(** * The rest of the pipeline: definitions

    What [process_video] does with the ranges [detect_speech_segments]
    returns, the transcription and subtitle steps with their fall-backs, the
    choice of the encoder options, and the presets of the GUI.  Calls into
    moviepy, whisper, torch and the operating system are parameters; a call
    that can raise returns an [option], [None] standing for an exception of
    class [Exception], and acts on a state of the outside world that is
    passed along. *)

(** ** [process_video]: the ranges handed to [subclip] (lines 218-232) *)

Section ProcessVideo.
Context {A : PyFloat}.

(** One iteration of lines 219-225.  [end > video_duration] is
    [video_duration < end], and [end > start] is [start < end]. *)
Definition bound_body (video_duration : F A) (bounded : list (range A))
    (r : range A) : list (range A) :=
  let '(start, end_) := r in
  let end_ := if flt video_duration end_ then video_duration else end_ in
  if flt start video_duration && flt start end_
  then bounded ++ [(start, end_)]
  else bounded.

(** Lines 218-225. *)
Definition bounded_ranges (video_duration : F A)
    (non_silent_ranges : list (range A)) : list (range A) :=
  fold_left (bound_body video_duration) non_silent_ranges [].

(** Line 231: one clip per bounded range.  With no clip [process_video]
    prints its "No non-silent parts detected" and returns (lines 232-234). *)
Section Clips.
Variable Clip : Type.
Variable subclip : F A -> F A -> Clip.

Definition video_clips (video_duration : F A) (non_silent_ranges : list (range A))
    : list Clip :=
  map (fun '(start, end_) => subclip start end_)
      (bounded_ranges video_duration non_silent_ranges).
End Clips.

(** The end of a range after lines 220-222. *)
Definition clamp_end (video_duration end_ : F A) : F A :=
  if flt video_duration end_ then video_duration else end_.

(** The loop again, by recursion on the ranges. *)
Fixpoint bound_from (video_duration : F A) (l : list (range A)) : list (range A) :=
  match l with
  | [] => []
  | (start, end_) :: l' =>
      if flt start video_duration && flt start (clamp_end video_duration end_)
      then (start, clamp_end video_duration end_) :: bound_from video_duration l'
      else bound_from video_duration l'
  end.

(** A range [subclip] can cut: [start < end], [start < video_duration] and
    [end <= video_duration]. *)
Definition in_video (video_duration : F A) (r : range A) : Prop :=
  flt (fst r) (snd r) = true /\ flt (fst r) video_duration = true /\
  fle (snd r) video_duration = true.

(** What the bounding loop makes of [ranges] when exactly the first [k] of
    them start before the end of the video: those [k] ranges, in order, each
    with its end cut back to [video_duration] if it runs past it, where only
    the last of them can run past it. *)
Definition kept_prefix (video_duration : F A) (ranges out : list (range A))
    (k : nat) : Prop :=
  (k <= length ranges)%nat /\
  Forall (fun r => flt (fst r) video_duration = true) (firstn k ranges) /\
  Forall (fun r => flt (fst r) video_duration = false) (skipn k ranges) /\
  Forall (fun r => flt video_duration (snd r) = false) (removelast (firstn k ranges)) /\
  out = map (fun r => (fst r, clamp_end video_duration (snd r))) (firstn k ranges).

(** The first padded chunk starts before the end of the video. *)
Definition first_start_before (video_duration : F A)
    (context_ms pause_ms : Z) (non_silent_chunks : list (Z * Z)) : bool :=
  match non_silent_chunks with
  | [] => false
  | chunk :: _ => flt (fst (pad context_ms pause_ms chunk)) video_duration
  end.

(** Of every padded chunk that starts inside the video, the part inside the
    video lies in one of the ranges [process_video] keeps. *)
Definition inside_video_kept (video_duration : F A)
    (non_silent_chunks : list (Z * Z)) (min_silence_len context_ms pause_ms : Z) : Prop :=
  Forall (fun chunk =>
            let '(start, end_) := pad context_ms pause_ms chunk in
            flt start video_duration = true ->
            covered (start, clamp_end video_duration end_)
              (bounded_ranges video_duration
                 (merge non_silent_chunks min_silence_len context_ms pause_ms)))
         non_silent_chunks.
End ProcessVideo.

(** ** The comparisons of the floats as an order

    [video_duration] is any float moviepy reports, not the quotient of a
    millisecond offset, so the bounding loop is analysed from the order
    properties of [<] and [<=] alone.  [x <= x] fails for a NaN only. *)
Record OrderLaws (A : PyFloat) : Prop := {
  ord_irrefl : forall x : F A, flt x x = false;
  ord_lt_trans : forall x y z : F A, flt x y = true -> flt y z = true -> flt x z = true;
  ord_lt_le_trans : forall x y z : F A, flt x y = true -> fle y z = true -> flt x z = true;
  ord_le_lt_trans : forall x y z : F A, fle x y = true -> flt y z = true -> flt x z = true;
  ord_lt_le : forall x y : F A, flt x y = true -> fle x y = true;
  ord_le_not_lt : forall x y : F A, fle x y = true -> flt y x = false;
  ord_not_lt_le : forall x y : F A,
    fle x x = true -> fle y y = true -> flt x y = false -> fle y x = true;
  ord_lt_refl : forall x y : F A, flt x y = true -> fle x x = true /\ fle y y = true
}.

(** A binary64 number that is not a NaN, as a point of the lexicographic
    order on triples: the class (infinities, signs, zero), then the exponent,
    then the mantissa. *)
Definition order_key (f : spec_float) : Z * Z * Z :=
  match f with
  | S754_zero _ => (0, 0, 0)
  | S754_infinity s => (if s then -2 else 2, 0, 0)
  | S754_nan => (0, 0, 0)
  | S754_finite s m e => if s then (-1, - e, - Zpos m) else (1, e, Zpos m)
  end.

Definition key_lt (a b : Z * Z * Z) : Prop :=
  let '(a1, a2, a3) := a in
  let '(b1, b2, b3) := b in
  a1 < b1 \/ (a1 = b1 /\ (a2 < b2 \/ (a2 = b2 /\ a3 < b3))).

Definition is_nan (f : spec_float) : bool :=
  match f with S754_nan => true | _ => false end.

(** ** Runs of chunks

    The range a run of consecutive chunks spans once padded: from the padded
    start of its first chunk to the padded end of its last. *)
Definition span_ms (group : list (Z * Z)) : Z * Z :=
  (fst (hd (0, 0) group), snd (last group (0, 0))).

Definition span {A : PyFloat} (context_ms pause_ms : Z) (group : list (Z * Z)) : range A :=
  (fst (pad context_ms pause_ms (hd (0, 0) group)),
   snd (pad context_ms pause_ms (last group (0, 0)))).

(** [out] lists the spans of the runs of a division of the chunks into
    non-empty runs of consecutive chunks. *)
Definition grouped {A : PyFloat} (context_ms pause_ms : Z)
    (non_silent_chunks : list (Z * Z)) (out : list (range A)) : Prop :=
  exists groups : list (list (Z * Z)),
    concat groups = non_silent_chunks /\
    Forall (fun group => group <> []) groups /\
    out = map (span context_ms pause_ms) groups.

(** The chunks divided into runs: a new run starts after every silence
    longer than [limit]. *)
Fixpoint runs_from (limit : Z) (run : list (Z * Z)) (prev_end : Z)
    (rest : list (Z * Z)) : list (list (Z * Z)) :=
  match rest with
  | [] => [run]
  | (start, end_) :: rest' =>
      if limit <? start - prev_end
      then run :: runs_from limit [(start, end_)] end_ rest'
      else runs_from limit (run ++ [(start, end_)]) end_ rest'
  end.

Definition runs (limit : Z) (non_silent_chunks : list (Z * Z)) : list (list (Z * Z)) :=
  match non_silent_chunks with
  | [] => []
  | (start, end_) :: rest => runs_from limit [(start, end_)] end_ rest
  end.

(** ** [create_subtitle_clips] (lines 142-172) *)

Section Subtitles.
Variables World Value Clip : Type.

(** The [TextClip] of lines 153-159 (from the text, [video_width], the start
    and the end time) and the simpler one of lines 162-166. *)
Variable caption_clip : Value -> Value -> Value -> Value -> World -> option Clip * World.
Variable label_clip : Value -> Value -> Value -> World -> option Clip * World.

(** A segment of the transcription: a dict with string keys. *)
Definition segment : Type := list (String.string * Value).

(** [d[key]]; [None] stands for the [KeyError]. *)
Fixpoint dict_get (key : String.string) (d : segment) : option Value :=
  match d with
  | [] => None
  | (k, v) :: d' => if String.eqb k key then Some v else dict_get key d'
  end.

(** Lines 148-166, one segment: the clip, or [None] when an exception leaves
    the body of the loop (a missing key, or both [TextClip]s raising). *)
Definition subtitle_clip (seg : segment) (video_width : Value) (w : World)
    : option Clip * World :=
  match dict_get "start"%string seg with
  | None => (None, w)
  | Some start_time =>
  match dict_get "end"%string seg with
  | None => (None, w)
  | Some end_time =>
  match dict_get "text"%string seg with
  | None => (None, w)
  | Some text =>
      match caption_clip text video_width start_time end_time w with
      | (Some txt_clip, w') => (Some txt_clip, w')
      | (None, w') => label_clip text start_time end_time w'
      end
  end end end.

(** Lines 146-170: the handler of line 169 ends the loop at the first
    exception and the clips made so far are returned. *)
Fixpoint subtitle_loop (transcription : list segment) (video_width : Value)
    (subtitle_clips : list Clip) (w : World) : list Clip * World :=
  match transcription with
  | [] => (subtitle_clips, w)
  | seg :: rest =>
      match subtitle_clip seg video_width w with
      | (Some txt_clip, w') =>
          subtitle_loop rest video_width (subtitle_clips ++ [txt_clip]) w'
      | (None, w') => (subtitle_clips, w')
      end
  end.

Definition create_subtitle_clips (transcription : list segment)
    (video_width video_height : Value) (w : World) : list Clip * World :=
  subtitle_loop transcription video_width [] w.

(** The segment has the three keys the loop reads. *)
Definition has_keys (seg : segment) : bool :=
  match dict_get "start"%string seg, dict_get "end"%string seg,
        dict_get "text"%string seg with
  | Some _, Some _, Some _ => true
  | _, _, _ => false
  end.
End Subtitles.

Arguments dict_get {Value} key d.
Arguments has_keys {Value} seg.
Arguments subtitle_clip {World Value Clip} caption_clip label_clip seg video_width w.
Arguments subtitle_loop {World Value Clip} caption_clip label_clip
  transcription video_width subtitle_clips w.
Arguments create_subtitle_clips {World Value Clip} caption_clip label_clip
  transcription video_width video_height w.

(** ** [transcribe_audio] (lines 97-140) *)

(** The two values of [device]. *)
Inductive device : Type := cuda | cpu.

Section Transcription.
Variables World Model Segment : Type.

(** [torch.cuda.is_available()]; [torch.cuda.init()] with the three report
    lines 106-108; [whisper.load_model("base", device=...)]; and
    [model.transcribe(audio_path, language="en")["segments"]]. *)
Variable cuda_is_available : World -> option bool * World.
Variable cuda_report : World -> option unit * World.
Variable load_model : device -> World -> option Model * World.
Variable transcribe : Model -> String.string -> World -> option (list Segment) * World.

(** Lines 101-119. *)
Definition select_device (use_gpu : bool) (w : World) : device * World :=
  if use_gpu then
    match cuda_is_available w with
    | (Some true, w1) =>
        match cuda_report w1 with
        | (Some _, w2) => (cuda, w2)
        | (None, w2) => (cpu, w2)
        end
    | (Some false, w1) => (cpu, w1)
    | (None, w1) => (cpu, w1)
    end
  else (cpu, w).

(** Lines 122-128 and 134-136: load the model on a device and transcribe. *)
Definition attempt (d : device) (audio_path : String.string) (w : World)
    : option (list Segment) * World :=
  match load_model d w with
  | (Some model, w1) => transcribe model audio_path w1
  | (None, w1) => (None, w1)
  end.

Definition transcribe_audio (audio_path : String.string) (use_gpu : bool) (w : World)
    : list Segment * World :=
  let '(d, w1) := select_device use_gpu w in
  match attempt d audio_path w1 with
  | (Some segments, w2) => (segments, w2)
  | (None, w2) =>
      match d with
      | cuda =>
          match attempt cpu audio_path w2 with
          | (Some segments, w3) => (segments, w3)
          | (None, w3) => ([], w3)
          end
      | cpu => ([], w2)
      end
  end.
End Transcription.

Arguments select_device {World} cuda_is_available cuda_report use_gpu w.
Arguments attempt {World Model Segment} load_model transcribe d audio_path w.
Arguments transcribe_audio {World Model Segment} cuda_is_available cuda_report
  load_model transcribe audio_path use_gpu w.

(** ** [process_video]: the options passed to ffmpeg (lines 284-332) *)

(** The names bound at the top level of [main.py] when [process_video] runs:
    the imports of lines 1-12, the five functions, and what the script part
    (lines 376-407) binds before the call. *)
Definition module_globals : list String.string :=
  ["os"; "sys"; "np"; "VideoFileClip"; "TextClip"; "CompositeVideoClip";
   "concatenate_videoclips"; "AudioFileClip"; "AudioSegment"; "detect_nonsilent";
   "whisper"; "tempfile"; "torch"; "shutil"; "Path"; "change_settings";
   "configure_imagemagick"; "detect_speech_segments"; "transcribe_audio";
   "create_subtitle_clips"; "process_video";
   "argparse"; "multiprocessing"; "cpu_count"; "parser"; "args"; "use_gpu";
   "time"; "start_time"]%string.

(** A name [process_video] does not assign is looked up among the globals of
    the module (none of the names at stake is a builtin). *)
Definition bound_globally (name : String.string) : bool :=
  existsb (String.eqb name) module_globals.

Section Encoding.
Variable World : Type.

(** [torch.cuda.is_available()], and the return code of the [vainfo]
    command. *)
Variable cuda_is_available : World -> option bool * World.
Variable vainfo : World -> option Z * World.

Definition base_params : list String.string :=
  ["-preset"; "ultrafast"; "-tune"; "fastdecode"; "-crf"; "23"; "-b:a"; "128k"]%string.

Definition cuda_params : list String.string :=
  ["-hwaccel"; "cuda"; "-hwaccel_output_format"; "cuda"; "-c:v"; "h264_nvenc"]%string.

Definition mac_params : list String.string := ["-c:v"; "h264_videotoolbox"]%string.

Definition vaapi_params : list String.string :=
  ["-vaapi_device"; "/dev/dri/renderD128"; "-hwaccel"; "vaapi"; "-c:v"; "h264_vaapi"]%string.

Definition quality_params : list String.string :=
  ["-preset"; "slow"; "-crf"; "18"; "-b:a"; "192k"]%string.

(** Line 309, [subprocess.run(['vainfo'], ...)]: the name [subprocess] is
    looked up first, and a [NameError] is raised when it is not bound. *)
Definition vaapi_check (w : World) : option Z * World :=
  if bound_globally "subprocess"%string then vainfo w else (None, w).

(** Lines 301-326: the branches after the test for Windows. *)
Definition elsewhere_params (platform : String.string) (use_gpu : bool) (w : World)
    : list String.string * World :=
  if String.eqb platform "darwin"%string then (base_params ++ mac_params, w)
  else if String.prefix "linux"%string platform && use_gpu then
    match vaapi_check w with
    | (Some returncode, w') =>
        if returncode =? 0 then (base_params ++ vaapi_params, w')
        else (base_params, w')
    | (None, w') => (base_params, w')
    end
  else (base_params, w).

(** Lines 284-332: the list, or [None] when [torch.cuda.is_available()]
    raises and control passes to the handler of line 344. *)
Definition ffmpeg_params (fast_mode : bool) (platform : String.string) (use_gpu : bool)
    (w : World) : option (list String.string) * World :=
  if fast_mode then
    if String.prefix "win"%string platform && use_gpu then
      match cuda_is_available w with
      | (Some true, w') => (Some (base_params ++ cuda_params), w')
      | (Some false, w') =>
          let '(params, w'') := elsewhere_params platform use_gpu w' in (Some params, w'')
      | (None, w') => (None, w')
      end
    else
      let '(params, w') := elsewhere_params platform use_gpu w in (Some params, w')
  else (Some quality_params, w).
End Encoding.

Arguments vaapi_check {World} vainfo w.
Arguments elsewhere_params {World} vainfo platform use_gpu w.
Arguments ffmpeg_params {World} cuda_is_available vainfo fast_mode platform use_gpu w.

(** ** The presets of the GUI ([gui.py], lines 60-82 and 154-176) *)

Module Gui.
(** The five Tk variables [apply_preset] reads or writes. *)
Record gui_params : Type := {
  preset : String.string;
  silence_length : Z;
  silence_thresh : Z;
  context : Z;
  pause : Z
}.

Definition set_params (st : gui_params)
    (new_length new_thresh new_context new_pause : Z) : gui_params :=
  {| preset := preset st; silence_length := new_length; silence_thresh := new_thresh;
     context := new_context; pause := new_pause |}.

(** The values the window opens with (lines 65, 70, 75, 80 and 115). *)
Definition initial_params : gui_params :=
  {| preset := "Default"%string; silence_length := 700; silence_thresh := -35;
     context := 300; pause := 500 |}.

Definition apply_preset (st : gui_params) : gui_params :=
  if String.eqb (preset st) "Default"%string then set_params st 700 (-35) 300 500
  else if String.eqb (preset st) "Aggressive"%string then set_params st 500 (-30) 200 300
  else if String.eqb (preset st) "Conservative"%string then set_params st 1500 (-40) 400 600
  else if String.eqb (preset st) "Smooth"%string then set_params st 1000 (-35) 500 700
  else st.

(** A [ttk.Spinbox]: [from_], [to] and [increment]. *)
Record spinbox : Type := { from_ : Z; to : Z; increment : Z }.

Definition silence_length_box : spinbox := {| from_ := 100; to := 5000; increment := 100 |}.
Definition silence_thresh_box : spinbox := {| from_ := -60; to := -10; increment := 5 |}.
Definition context_box : spinbox := {| from_ := 0; to := 1000; increment := 50 |}.
Definition pause_box : spinbox := {| from_ := 0; to := 1000; increment := 50 |}.

(** [v] is a value the arrows of the spinbox reach. *)
Definition on_spinbox (b : spinbox) (v : Z) : Prop :=
  from_ b <= v <= to b /\ (v - from_ b) mod increment b = 0.

Definition spinbox_values (st : gui_params) : Prop :=
  on_spinbox silence_length_box (silence_length st) /\
  on_spinbox silence_thresh_box (silence_thresh st) /\
  on_spinbox context_box (context st) /\
  on_spinbox pause_box (pause st).

(** [center_window] (lines 36-42): the geometry it sets, [width], [height]
    and the offsets [x] and [y] of the window on the screen. *)
Definition center_window (width height screenwidth screenheight : Z) : Z * Z * Z * Z :=
  let x := screenwidth / 2 - width / 2 in
  let y := screenheight / 2 - height / 2 in
  (width, height, x, y).
End Gui.

(** Closed instances of the input conditions. *)
Ltac solve_well_formed :=
  unfold well_formed, chunk_ok; cbn [adjacent fst snd];
  repeat split; repeat constructor; cbn [fst snd]; lia.

Ltac solve_on_timeline :=
  unfold on_timeline; repeat constructor; cbn [fst snd]; lia.

Ltac solve_within_horizon :=
  unfold within_horizon, Binary64.horizon; repeat constructor; cbn [fst snd]; lia.

(** * Lemmas *)

(** ** The loop and its recursive form *)

Section LoopFacts.
Context {A : PyFloat}.
Variables min_silence_len context_ms pause_ms : Z.

Lemma fold_left_merge_from (rest : list (range A)) (st : loop_state A) :
  let st' := fold_left (loop_body min_silence_len context_ms pause_ms) rest st in
  merged st' ++ [(current_start st', current_end st')] =
  merged st ++ merge_from min_silence_len context_ms pause_ms
                 (current_start st) (current_end st) rest.
Proof.
  revert st. induction rest as [|[start end_] rest IH]; intros st; simpl.
  - reflexivity.
  - unfold loop_body at 2.
    destruct (fle start (current_end st)).
    + rewrite IH. reflexivity.
    + destruct (gap_exceeds _ _ _ start (current_end st)).
      * rewrite IH. simpl. rewrite <- app_assoc. reflexivity.
      * rewrite IH. reflexivity.
Qed.

Lemma merged_ranges_cons (start0 end0 : F A) (rest : list (range A)) :
  merged_ranges ((start0, end0) :: rest) min_silence_len context_ms pause_ms =
  merge_from min_silence_len context_ms pause_ms start0 end0 rest.
Proof.
  unfold merged_ranges.
  exact (fold_left_merge_from rest
           {| merged := []; current_start := start0; current_end := end0 |}).
Qed.

Lemma pad_seconds (chunk : Z * Z) :
  pad (A:=A) context_ms pause_ms chunk = seconds (pad_ms context_ms pause_ms chunk).
Proof. destruct chunk as [start end_]. reflexivity. Qed.

Lemma non_silent_ranges_seconds (chunks : list (Z * Z)) :
  non_silent_ranges (A:=A) chunks context_ms pause_ms =
  map seconds (map (pad_ms context_ms pause_ms) chunks).
Proof.
  unfold non_silent_ranges. rewrite map_map.
  apply map_ext. intros chunk. apply pad_seconds.
Qed.

(** With an order-preserving conversion the float loop is the image of the
    integer loop. *)
Section Refinement.
Variable dom : Z -> Prop.
Hypothesis laws : SecondsLaws A dom.

Lemma pymax_seconds (m n : Z) :
  dom m -> dom n ->
  pymax (A:=A) (truediv m 1000) (truediv n 1000) = truediv (Z.max m n) 1000.
Proof.
  intros Hm Hn. unfold pymax. rewrite (sec_lt _ _ laws) by assumption.
  destruct (m <? n) eqn:E.
  - apply Z.ltb_lt in E. rewrite Z.max_r by lia. reflexivity.
  - apply Z.ltb_ge in E. rewrite Z.max_l by lia. reflexivity.
Qed.

Lemma merge_from_seconds (l : list (Z * Z)) :
  forall cs ce, dom cs -> dom ce -> all_in dom l ->
  merge_from (A:=A) min_silence_len context_ms pause_ms
    (truediv cs 1000) (truediv ce 1000) (map seconds l) =
  map seconds (merge_ms (gap_test (A:=A) min_silence_len context_ms pause_ms) cs ce l).
Proof.
  induction l as [|[start end_] l IH]; intros cs ce Hcs Hce Hl.
  - reflexivity.
  - inversion Hl as [|r l' [Hs He] Hl']; subst. simpl in Hs, He.
    cbn [map merge_from merge_ms seconds fst snd].
    rewrite (sec_le _ _ laws) by assumption.
    destruct (start <=? ce).
    + rewrite pymax_seconds by assumption.
      apply IH; try assumption.
      destruct (Z.max_spec ce end_) as [[_ ->]|[_ ->]]; assumption.
    + fold (gap_test (A:=A) min_silence_len context_ms pause_ms start ce).
      destruct (gap_test min_silence_len context_ms pause_ms start ce).
      * cbn [map]. f_equal. apply IH; assumption.
      * apply IH; assumption.
Qed.

Lemma merge_seconds (chunks : list (Z * Z)) :
  all_in dom (map (pad_ms context_ms pause_ms) chunks) ->
  merge (A:=A) chunks min_silence_len context_ms pause_ms =
  map seconds (merge_ms_all (gap_test (A:=A) min_silence_len context_ms pause_ms)
                 (map (pad_ms context_ms pause_ms) chunks)).
Proof.
  intros Hdom. unfold merge. rewrite non_silent_ranges_seconds.
  destruct (map (pad_ms context_ms pause_ms) chunks) as [|[start0 end0] rest].
  - reflexivity.
  - inversion Hdom as [|r l' [Hs He] Hl']; subst.
    cbn [map]. unfold seconds at 1. cbn [fst snd].
    rewrite merged_ranges_cons. cbn [merge_ms_all].
    apply merge_from_seconds; assumption.
Qed.
End Refinement.
End LoopFacts.

(** ** Neighbour properties of lists *)

Lemma adjacent_cons {X : Type} (P : X -> X -> Prop) (a b : X) (l : list X) :
  adjacent P (a :: b :: l) <-> P a b /\ adjacent P (b :: l).
Proof. reflexivity. Qed.

Lemma adjacent_tail {X : Type} (P : X -> X -> Prop) (a : X) (l : list X) :
  adjacent P (a :: l) -> adjacent P l.
Proof. destruct l as [|b l]; [intros; exact I | intros [_ H]; exact H]. Qed.

Lemma adjacent_impl_in {X : Type} (P Q : X -> X -> Prop) (l : list X) :
  (forall a b, In a l -> In b l -> P a b -> Q a b) ->
  adjacent P l -> adjacent Q l.
Proof.
  induction l as [|a l IH]; [intros; exact I|].
  destruct l as [|b l]; [intros; exact I|].
  intros HPQ H. apply adjacent_cons in H. destruct H as [Hab H].
  apply adjacent_cons. split.
  - apply HPQ; simpl; auto.
  - apply IH; [|exact H]. intros x y Hx Hy. apply HPQ; right; assumption.
Qed.

Lemma adjacent_map {X Y : Type} (f : X -> Y) (P : Y -> Y -> Prop) (l : list X) :
  adjacent P (map f l) <-> adjacent (fun a b => P (f a) (f b)) l.
Proof.
  induction l as [|a l IH]; [simpl; tauto|].
  destruct l as [|b l]; [simpl; tauto|].
  cbn [map] in *. rewrite !adjacent_cons, IH. tauto.
Qed.

Lemma adjacent_and {X : Type} (P Q : X -> X -> Prop) (l : list X) :
  adjacent (fun a b => P a b /\ Q a b) l <-> adjacent P l /\ adjacent Q l.
Proof.
  induction l as [|a l IH]; [simpl; tauto|].
  destruct l as [|b l]; [simpl; tauto|].
  rewrite !adjacent_cons, IH. tauto.
Qed.

Lemma adjacent_le_Forall (f : Z * Z -> Z) (r : Z * Z) (l : list (Z * Z)) :
  adjacent (fun a b => f a <= f b) (r :: l) ->
  Forall (fun r' => f r <= f r') l.
Proof.
  revert r. induction l as [|b l IH]; intros r H; constructor.
  - destruct H as [H _]. exact H.
  - destruct H as [Hab H]. specialize (IH b H).
    eapply Forall_impl; [|exact IH]. simpl. intros; lia.
Qed.

(** ** The integer loop: shape of the output *)

Section IntegerLoop.
Variable g : Z -> Z -> bool.

Lemma merge_ms_head (l : list (Z * Z)) :
  forall cs ce, exists ce' tl, merge_ms g cs ce l = (cs, ce') :: tl.
Proof.
  induction l as [|[start end_] l IH]; intros cs ce; simpl.
  - eauto.
  - destruct (start <=? ce); [apply IH|].
    destruct (g start ce); [eauto | apply IH].
Qed.

Lemma merge_ms_all_in (P : Z -> Prop) (l : list (Z * Z)) :
  forall cs ce, P cs -> P ce -> all_in P l -> all_in P (merge_ms g cs ce l).
Proof.
  induction l as [|[start end_] l IH]; intros cs ce Hcs Hce Hl; simpl.
  - constructor; [split; assumption | constructor].
  - inversion Hl as [|r l' [Hs He] Hl']; subst. simpl in Hs, He.
    destruct (start <=? ce).
    + apply IH; try assumption.
      destruct (Z.max_spec ce end_) as [[_ ->]|[_ ->]]; assumption.
    + destruct (g start ce).
      * constructor; [split; assumption | apply IH; assumption].
      * apply IH; assumption.
Qed.

(** Neighbours of the output are apart, whatever the input. *)
Lemma merge_ms_apart (l : list (Z * Z)) :
  forall cs ce, adjacent (apart_ms g) (merge_ms g cs ce l).
Proof.
  induction l as [|[start end_] l IH]; intros cs ce; simpl.
  - exact I.
  - destruct (start <=? ce) eqn:Ele; [apply IH|].
    apply Z.leb_gt in Ele. destruct (g start ce) eqn:Eg; [|apply IH].
    specialize (IH start end_).
    destruct (merge_ms_head l start end_) as (ce' & tl & Eq).
    rewrite Eq in *. split; [|exact IH].
    unfold apart_ms; simpl. split; [lia | exact Eg].
Qed.

Lemma merge_ms_proper (l : list (Z * Z)) :
  forall cs ce, cs < ce -> proper_ms l -> proper_ms (merge_ms g cs ce l).
Proof.
  induction l as [|[start end_] l IH]; intros cs ce Hlt Hl; simpl.
  - constructor; [exact Hlt | constructor].
  - inversion Hl as [|r l' Hse Hl']; subst. simpl in Hse.
    destruct (start <=? ce) eqn:Ele.
    + apply IH; [lia | assumption].
    + apply Z.leb_gt in Ele. destruct (g start ce).
      * constructor; [exact Hlt | apply IH; assumption].
      * apply IH; [lia | assumption].
Qed.

Lemma merge_ms_cover (l : list (Z * Z)) :
  forall cs ce,
  Forall (fun r => cs <= fst r) l ->
  adjacent (fun a b => fst a <= fst b) l ->
  Forall (fun r => ce <= snd r) l ->
  adjacent (fun a b => snd a <= snd b) l ->
  (forall r, cs <= fst r -> snd r <= ce -> covered_ms r (merge_ms g cs ce l)) /\
  Forall (fun r => covered_ms r (merge_ms g cs ce l)) l.
Proof.
  induction l as [|[start end_] l IH]; intros cs ce Hcs Hstarts Hce Hends.
  - split; [|constructor]. intros r H1 H2. exists (cs, ce). simpl. auto.
  - inversion Hcs as [|r0 l' Hcs0 Hcs']; subst. simpl in Hcs0.
    inversion Hce as [|r0 l' Hce0 Hce']; subst. simpl in Hce0.
    pose proof (adjacent_le_Forall fst _ _ Hstarts) as Hfrom. simpl in Hfrom.
    pose proof (adjacent_le_Forall snd _ _ Hends) as Hupto. simpl in Hupto.
    pose proof (adjacent_tail _ _ _ Hstarts) as Hstarts'.
    pose proof (adjacent_tail _ _ _ Hends) as Hends'.
    simpl. destruct (start <=? ce) eqn:Ele.
    + assert (Hmax : Forall (fun r => Z.max ce end_ <= snd r) l).
      { rewrite Forall_forall in *. intros r Hr.
        specialize (Hce' r Hr). specialize (Hupto r Hr). lia. }
      destruct (IH cs (Z.max ce end_) Hcs' Hstarts' Hmax Hends') as [Hacc Hrest].
      split; [|constructor; [|exact Hrest]].
      * intros r H1 H2. apply Hacc; lia.
      * apply Hacc; simpl; lia.
    + apply Z.leb_gt in Ele. destruct (g start ce).
      * destruct (IH start end_ Hfrom Hstarts' Hupto Hends') as [Hacc Hrest].
        assert (Hlift : forall r, covered_ms r (merge_ms g start end_ l) ->
                                  covered_ms r ((cs, ce) :: merge_ms g start end_ l)).
        { intros r (o & Ho & Hw). exists o. split; [right; exact Ho | exact Hw]. }
        split; [|constructor].
        -- intros r H1 H2. exists (cs, ce). simpl. auto.
        -- apply Hlift, Hacc; simpl; lia.
        -- eapply Forall_impl; [|exact Hrest]. exact Hlift.
      * destruct (IH cs end_ Hcs' Hstarts' Hupto Hends') as [Hacc Hrest].
        split; [|constructor; [|exact Hrest]].
        -- intros r H1 H2. apply Hacc; lia.
        -- apply Hacc; simpl; lia.
Qed.
End IntegerLoop.

(** ** Padded offsets of a well-formed input *)

Section Padding.
Variables context_ms pause_ms : Z.
Hypothesis context_nonneg : 0 <= context_ms.
Hypothesis pause_nonneg : 0 <= pause_ms.

Lemma padded_proper (chunks : list (Z * Z)) :
  Forall chunk_ok chunks -> on_timeline chunks ->
  proper_ms (map (pad_ms context_ms pause_ms) chunks).
Proof.
  intros Hok Hnn. unfold proper_ms, on_timeline in *. rewrite Forall_map.
  rewrite Forall_forall in *. intros [start end_] Hin.
  specialize (Hok _ Hin). specialize (Hnn _ Hin).
  unfold chunk_ok in Hok. simpl in *. lia.
Qed.

Lemma padded_sorted (chunks : list (Z * Z)) :
  adjacent (fun a b => fst a <= fst b) chunks ->
  adjacent (fun a b => fst a <= fst b) (map (pad_ms context_ms pause_ms) chunks).
Proof.
  intros H. rewrite adjacent_map.
  eapply adjacent_impl_in; [|exact H].
  intros [s1 e1] [s2 e2] _ _; simpl. lia.
Qed.

Lemma padded_ends_sorted (chunks : list (Z * Z)) :
  Forall chunk_ok chunks ->
  adjacent (fun a b => snd a <= fst b) chunks ->
  adjacent (fun a b => snd a <= snd b) (map (pad_ms context_ms pause_ms) chunks).
Proof.
  intros Hok H. rewrite adjacent_map. rewrite Forall_forall in Hok.
  eapply adjacent_impl_in; [|exact H].
  intros [s1 e1] [s2 e2] _ Hin2. specialize (Hok _ Hin2).
  unfold chunk_ok in Hok. simpl in *. lia.
Qed.

Lemma padded_within_horizon (chunks : list (Z * Z)) :
  Forall chunk_ok chunks -> on_timeline chunks -> within_horizon chunks pause_ms ->
  all_in (fun n => 0 <= n < Binary64.horizon) (map (pad_ms context_ms pause_ms) chunks).
Proof.
  intros Hok Hnn Hh. unfold all_in. rewrite Forall_map.
  unfold within_horizon, on_timeline in *. rewrite Forall_forall in *.
  intros [start end_] Hin.
  specialize (Hok _ Hin). specialize (Hnn _ Hin). specialize (Hh _ Hin).
  unfold chunk_ok in Hok. simpl in *. lia.
Qed.
End Padding.

(** ** The integer loop from its first range *)

Section IntegerMerge.
Variable g : Z -> Z -> bool.

Lemma merge_ms_all_dom (P : Z -> Prop) (l : list (Z * Z)) :
  all_in P l -> all_in P (merge_ms_all g l).
Proof.
  destruct l as [|[start0 end0] rest]; intros H; [constructor|].
  inversion H as [|r l' [Hs He] Hl']; subst.
  apply merge_ms_all_in; assumption.
Qed.

Lemma merge_ms_all_apart (l : list (Z * Z)) :
  adjacent (apart_ms g) (merge_ms_all g l).
Proof.
  destruct l as [|[start0 end0] rest]; [exact I | apply merge_ms_apart].
Qed.

Lemma merge_ms_all_proper (l : list (Z * Z)) :
  proper_ms l -> proper_ms (merge_ms_all g l).
Proof.
  destruct l as [|[start0 end0] rest]; intros H; [constructor|].
  inversion H as [|r l' Hse Hl']; subst.
  apply merge_ms_proper; assumption.
Qed.

Lemma merge_ms_all_cover (l : list (Z * Z)) :
  adjacent (fun a b => fst a <= fst b) l ->
  adjacent (fun a b => snd a <= snd b) l ->
  Forall (fun r => covered_ms r (merge_ms_all g l)) l.
Proof.
  destruct l as [|[start0 end0] rest]; intros Hs He; [constructor|].
  destruct (merge_ms_cover g rest start0 end0
              (adjacent_le_Forall fst _ _ Hs) (adjacent_tail _ _ _ Hs)
              (adjacent_le_Forall snd _ _ He) (adjacent_tail _ _ _ He)) as [Hacc Hrest].
  constructor; [|exact Hrest].
  apply Hacc; simpl; lia.
Qed.
End IntegerMerge.

(** ** From the integer loop to the seconds *)

Section OrderTransfer.
Context {A : PyFloat}.
Variable dom : Z -> Prop.
Hypothesis laws : SecondsLaws A dom.
Variables min_silence_len context_ms pause_ms : Z.
Hypothesis context_nonneg : 0 <= context_ms.
Hypothesis pause_nonneg : 0 <= pause_ms.

Lemma covered_seconds (r : Z * Z) (out : list (Z * Z)) :
  dom (fst r) -> dom (snd r) -> all_in dom out ->
  covered_ms r out -> covered (A:=A) (seconds r) (map seconds out).
Proof.
  intros Hr1 Hr2 Hout (o & Hin & H1 & H2).
  unfold all_in in Hout. rewrite Forall_forall in Hout.
  destruct (Hout o Hin) as [Ho1 Ho2].
  exists (seconds o). split; [apply in_map; exact Hin|].
  unfold within, seconds; simpl.
  rewrite !(sec_le _ _ laws) by assumption.
  split; apply Z.leb_le; assumption.
Qed.

Lemma merge_covers (chunks : list (Z * Z)) :
  well_formed chunks ->
  all_in dom (map (pad_ms context_ms pause_ms) chunks) ->
  Forall (fun chunk =>
            covered (pad context_ms pause_ms chunk)
                    (merge (A:=A) chunks min_silence_len context_ms pause_ms)) chunks.
Proof.
  intros (Hok & Hsorted & Hadj) Hdom.
  rewrite (merge_seconds _ _ _ dom laws chunks Hdom).
  set (g := gap_test (A:=A) min_silence_len context_ms pause_ms).
  pose proof (merge_ms_all_cover g _
                (padded_sorted context_ms pause_ms _ Hsorted)
                (padded_ends_sorted context_ms pause_ms _ Hok Hadj)) as Hcov.
  pose proof (merge_ms_all_dom g dom _ Hdom) as Hout.
  rewrite Forall_map in Hcov. unfold all_in in Hdom. rewrite Forall_map in Hdom.
  rewrite Forall_forall in *. intros chunk Hin.
  rewrite pad_seconds.
  destruct (Hdom chunk Hin) as [H1 H2].
  apply covered_seconds; auto.
Qed.

(** Neighbours of the output: this needs nothing of the input but that the
    conversion keeps its order. *)
Lemma merge_apart (chunks : list (Z * Z)) :
  all_in dom (map (pad_ms context_ms pause_ms) chunks) ->
  let out := merge (A:=A) chunks min_silence_len context_ms pause_ms in
  non_overlapping out /\ strictly_separated out /\
  gap_spacing min_silence_len context_ms pause_ms out.
Proof.
  intros Hdom out. subst out.
  rewrite (merge_seconds _ _ _ dom laws chunks Hdom).
  set (g := gap_test (A:=A) min_silence_len context_ms pause_ms).
  pose proof (merge_ms_all_apart g (map (pad_ms context_ms pause_ms) chunks)) as Ha.
  pose proof (merge_ms_all_dom g dom _ Hdom) as Hout.
  unfold all_in in Hout. rewrite Forall_forall in Hout.
  unfold non_overlapping, strictly_separated, gap_spacing.
  rewrite !adjacent_map.
  repeat split.
  - eapply adjacent_impl_in; [|exact Ha].
    intros a b Hia Hib (H1 & H2). destruct (Hout a Hia), (Hout b Hib).
    unfold seconds; simpl. rewrite (sec_le _ _ laws) by assumption.
    apply Z.leb_le. lia.
  - eapply adjacent_impl_in; [|exact Ha].
    intros a b Hia Hib (H1 & H2). destruct (Hout a Hia), (Hout b Hib).
    unfold seconds; simpl. rewrite (sec_lt _ _ laws) by assumption.
    apply Z.ltb_lt. lia.
  - eapply adjacent_impl_in; [|exact Ha].
    intros a b _ _ (H1 & H2). exact H2.
Qed.

(** Ranges of the output of a well-formed input on the timeline. *)
Lemma merge_proper (chunks : list (Z * Z)) :
  well_formed chunks -> on_timeline chunks ->
  all_in dom (map (pad_ms context_ms pause_ms) chunks) ->
  let out := merge (A:=A) chunks min_silence_len context_ms pause_ms in
  nondegenerate out /\ ascending out.
Proof.
  intros (Hok & _ & _) Hnn Hdom out. subst out.
  rewrite (merge_seconds _ _ _ dom laws chunks Hdom).
  set (g := gap_test (A:=A) min_silence_len context_ms pause_ms).
  pose proof (merge_ms_all_apart g (map (pad_ms context_ms pause_ms) chunks)) as Ha.
  pose proof (merge_ms_all_proper g _
                (padded_proper context_ms pause_ms context_nonneg pause_nonneg
                   _ Hok Hnn)) as Hp.
  pose proof (merge_ms_all_dom g dom _ Hdom) as Hout.
  unfold all_in in Hout. unfold proper_ms in Hp. rewrite Forall_forall in Hout, Hp.
  unfold nondegenerate, ascending. rewrite Forall_map, adjacent_map.
  split.
  - rewrite Forall_forall. intros r Hin. destruct (Hout r Hin).
    unfold seconds; simpl. rewrite (sec_lt _ _ laws) by assumption.
    apply Z.ltb_lt. auto.
  - eapply adjacent_impl_in; [|exact Ha].
    intros a b Hia Hib (H1 & H2). destruct (Hout a Hia), (Hout b Hib).
    specialize (Hp a Hia).
    unfold seconds; simpl. rewrite (sec_le _ _ laws) by assumption.
    apply Z.leb_le. lia.
Qed.
End OrderTransfer.

(** ** Exact arithmetic: the conversion is an order embedding everywhere *)

Lemma exact_truediv_le (m n : Z) :
  (Exact.int_truediv m 1000 <= Exact.int_truediv n 1000)%Q <-> m <= n.
Proof.
  unfold Exact.int_truediv. rewrite !Qred_correct.
  unfold Qle, Qdiv, Qmult, Qinv, inject_Z; simpl. lia.
Qed.

Lemma exact_sec_le (m n : Z) :
  Qle_bool (Exact.int_truediv m 1000) (Exact.int_truediv n 1000) = (m <=? n).
Proof.
  destruct (m <=? n) eqn:E.
  - apply Qle_bool_iff, exact_truediv_le, Z.leb_le, E.
  - apply Z.leb_gt in E.
    destruct (Qle_bool _ _) eqn:E'; [|reflexivity].
    apply Qle_bool_iff in E'. apply (proj1 (exact_truediv_le m n)) in E'. lia.
Qed.

Lemma exact_laws : SecondsLaws Exact.arith (fun _ => True).
Proof.
  split; intros m n _ _; simpl.
  - apply exact_sec_le.
  - rewrite exact_sec_le, Z.ltb_antisym. reflexivity.
Qed.

Lemma exact_all_in (l : list (Z * Z)) : all_in (fun _ => True) l.
Proof. unfold all_in. rewrite Forall_forall. auto. Qed.

(** In exact arithmetic the test of line 87 compares the integer gap with the
    integer threshold. *)
Lemma exact_gap_value (start current_end : Z) :
  (Qred (Qred (Exact.int_truediv start 1000 - Exact.int_truediv current_end 1000)
         * inject_Z 1000) == inject_Z (start - current_end))%Q.
Proof.
  unfold Exact.int_truediv. rewrite !Qred_correct.
  unfold Qeq, Qminus, Qplus, Qopp, Qdiv, Qmult, Qinv, inject_Z; simpl. lia.
Qed.

Lemma exact_gap_test (min_silence_len context_ms pause_ms start current_end : Z) :
  gap_test (A:=Exact.arith) min_silence_len context_ms pause_ms start current_end =
  (min_silence_len - pause_ms - context_ms <? start - current_end).
Proof.
  unfold gap_test, gap_exceeds, fgt_int.
  cbn [Exact.arith flt fmul fsub of_int truediv].
  rewrite Z.ltb_antisym. f_equal.
  set (thr := min_silence_len - pause_ms - context_ms).
  destruct (start - current_end <=? thr) eqn:E.
  - apply Qle_bool_iff. rewrite exact_gap_value.
    rewrite <- Zle_Qle. apply Z.leb_le, E.
  - apply Z.leb_gt in E.
    destruct (Qle_bool _ _) eqn:E'; [|reflexivity].
    apply Qle_bool_iff in E'. rewrite exact_gap_value in E'.
    rewrite <- Zle_Qle in E'. lia.
Qed.

(** The test of line 87 on arbitrary exact seconds: a strict comparison of the
    gap in milliseconds with the threshold, whatever the sign of either. *)
Lemma exact_gap_exceeds (min_silence_len context_ms pause_ms : Z) (start current_end : Q) :
  gap_exceeds (A:=Exact.arith) min_silence_len context_ms pause_ms start current_end = true
  <-> (inject_Z (min_silence_len - pause_ms - context_ms)
       < (start - current_end) * inject_Z 1000)%Q.
Proof.
  unfold gap_exceeds, fgt_int.
  cbn [Exact.arith flt fmul fsub of_int truediv].
  rewrite negb_true_iff.
  set (thr := inject_Z (min_silence_len - pause_ms - context_ms)).
  assert (Hv : (Qred (Qred (start - current_end) * inject_Z 1000)
                == (start - current_end) * inject_Z 1000)%Q).
  { rewrite !Qred_correct. reflexivity. }
  split.
  - intros E. apply Qnot_le_lt. intros Hle.
    rewrite <- Hv in Hle. apply Qle_bool_iff in Hle. congruence.
  - intros Hlt. destruct (Qle_bool _ _) eqn:E; [|reflexivity].
    apply Qle_bool_iff in E. rewrite Hv in E.
    exfalso. exact (Qlt_not_le _ _ Hlt E).
Qed.

(** ** Binary64: the conversion is an order embedding below the horizon

    [n / 1000] is computed as the division of the two converted ints.  The
    specification of the primitive floats ([SpecFloat]) is followed step by
    step: conversion of the int (exact below [2^53]), division of the
    mantissas, rounding to nearest even by [binary_round_aux].  The result is
    within half a unit in the last place of the exact quotient, which keeps
    distinct offsets below [2^52] apart. *)

Lemma digits2_pos_bounds (p : positive) :
  2 ^ (Zpos (digits2_pos p) - 1) <= Zpos p < 2 ^ Zpos (digits2_pos p).
Proof.
  induction p as [p IH|p IH|]; cbn [digits2_pos].
  - rewrite Pos2Z.inj_succ.
    replace (Z.succ (Zpos (digits2_pos p)) - 1) with (Z.succ (Zpos (digits2_pos p) - 1)) by lia.
    rewrite !Z.pow_succ_r by lia. lia.
  - rewrite Pos2Z.inj_succ.
    replace (Z.succ (Zpos (digits2_pos p)) - 1) with (Z.succ (Zpos (digits2_pos p) - 1)) by lia.
    rewrite !Z.pow_succ_r by lia. lia.
  - simpl. lia.
Qed.

Lemma digits2_pos_unique (p : positive) (d : Z) :
  2 ^ (d - 1) <= Zpos p < 2 ^ d -> Zpos (digits2_pos p) = d.
Proof.
  intros [Hlo Hhi]. pose proof (digits2_pos_bounds p) as [Blo Bhi].
  set (k := Zpos (digits2_pos p)) in *.
  assert (0 < k) by (subst k; lia).
  assert (Hd : 0 < d).
  { destruct (Z_lt_le_dec 0 d); [assumption|].
    exfalso. destruct (Z.eq_dec d 0) as [->|]; [simpl in Hhi; lia|].
    rewrite Z.pow_neg_r in Hhi by lia. lia. }
  destruct (Z_lt_le_dec k d) as [Hkd|Hkd].
  - assert (2 ^ k <= 2 ^ (d - 1)) by (apply Z.pow_le_mono_r; lia). lia.
  - destruct (Z_lt_le_dec d k) as [Hdk|Hdk]; [|lia].
    assert (2 ^ d <= 2 ^ (k - 1)) by (apply Z.pow_le_mono_r; lia). lia.
Qed.

Lemma iter_xO_pow (p n : positive) :
  Zpos (Pos.iter xO p n) = Zpos p * 2 ^ Zpos n.
Proof.
  induction n as [|n IH] using Pos.peano_ind.
  - simpl. lia.
  - rewrite Pos.iter_succ, Pos2Z.inj_succ, Z.pow_succ_r by lia.
    rewrite Pos2Z.inj_xO, IH. lia.
Qed.

Lemma shr_1_pos (q : positive) (r s : bool) :
  shr_1 {| shr_m := Zpos q; shr_r := r; shr_s := s |} =
  {| shr_m := Z.div2 (Zpos q); shr_r := Z.odd (Zpos q); shr_s := r || s |}.
Proof. destruct q; reflexivity. Qed.

Lemma loc_of_record_of_loc (m : Z) (l : location) :
  loc_of_shr_record (shr_record_of_loc m l) = l.
Proof. destruct l as [|[| |]]; reflexivity. Qed.

Lemma shr_m_record_of_loc (m : Z) (l : location) :
  shr_m (shr_record_of_loc m l) = m.
Proof. destruct l as [|[| |]]; reflexivity. Qed.

Lemma fexp_normal (e : Z) : -1021 <= e -> fexp 53 1024 e = e - 53.
Proof. intros H. unfold fexp, emin. lia. Qed.

(** A 53-digit mantissa passes the final normalisation unchanged; [2^53] is
    renormalised to [2^52] one exponent up. *)
Lemma shr_fexp_exact_53 (m : positive) (e : Z) :
  Zpos (digits2_pos m) = 53 -> -1074 <= e ->
  shr_fexp 53 1024 (Zpos m) e loc_Exact =
  ({| shr_m := Zpos m; shr_r := false; shr_s := false |}, e).
Proof.
  intros Hd He. unfold shr_fexp. cbn [Zdigits2]. rewrite Hd.
  rewrite fexp_normal by lia.
  replace (53 + e - 53 - e) with 0 by lia. reflexivity.
Qed.

Lemma shr_fexp_exact_carry (e : Z) :
  -1074 <= e ->
  shr_fexp 53 1024 (2 ^ 53) e loc_Exact =
  ({| shr_m := 2 ^ 52; shr_r := false; shr_s := false |}, e + 1).
Proof.
  intros He. unfold shr_fexp.
  change (Zdigits2 (2 ^ 53)) with 54.
  rewrite fexp_normal by lia.
  replace (54 + e - 53 - e) with 1 by lia. reflexivity.
Qed.

(** Rounding a mantissa of 53 digits with a location. *)
Lemma binary_round_aux_53 (sx : bool) (m : positive) (e : Z) (l : location) :
  Zpos (digits2_pos m) = 53 -> -1074 <= e <= 970 ->
  exists (M : positive) (E : Z),
    binary_round_aux 53 1024 sx (Zpos m) e l = S754_finite sx M E /\
    2 ^ 52 <= Zpos M < 2 ^ 53 /\
    ((E = e /\ Zpos M = round_nearest_even (Zpos m) l) \/
     (E = e + 1 /\ Zpos M = 2 ^ 52 /\ round_nearest_even (Zpos m) l = 2 ^ 53)).
Proof.
  intros Hd He.
  pose proof (digits2_pos_bounds m) as Hb. rewrite Hd in Hb.
  change (53 - 1) with 52 in Hb.
  unfold binary_round_aux.
  assert (H1 : shr_fexp 53 1024 (Zpos m) e l = (shr_record_of_loc (Zpos m) l, e)).
  { unfold shr_fexp. cbn [Zdigits2]. rewrite Hd, fexp_normal by lia.
    replace (53 + e - 53 - e) with 0 by lia. reflexivity. }
  rewrite H1, loc_of_record_of_loc, shr_m_record_of_loc.
  set (m1 := round_nearest_even (Zpos m) l).
  assert (Hm1 : m1 = Zpos m \/ m1 = Zpos m + 1).
  { subst m1. destruct l as [|[| |]]; cbn [round_nearest_even]; auto.
    destruct (Z.even (Zpos m)); auto. }
  destruct (Z.eq_dec m1 (2 ^ 53)) as [Hc|Hc].
  - rewrite Hc, shr_fexp_exact_carry by lia. cbn [shr_m].
    change (2 ^ 52) with (Zpos 4503599627370496).
    replace (e + 1 <=? 1024 - 53) with true by (symmetry; apply Z.leb_le; lia).
    exists 4503599627370496%positive, (e + 1). split; [reflexivity|].
    split; [lia|]. right. auto.
  - assert (Hr : 2 ^ 52 <= m1 < 2 ^ 53) by lia.
    destruct m1 as [|p1|p1] eqn:E1; try lia.
    rewrite shr_fexp_exact_53; [|apply digits2_pos_unique; change (53 - 1) with 52; lia|lia].
    cbn [shr_m].
    replace (e <=? 1024 - 53) with true by (symmetry; apply Z.leb_le; lia).
    exists p1, e. split; [reflexivity|]. split; [lia|]. left. auto.
Qed.

(** Rounding a mantissa of 54 digits: one bit is shifted out first. *)
Lemma binary_round_aux_54 (sx : bool) (m : positive) (e : Z) (l : location) :
  Zpos (digits2_pos m) = 54 -> Zpos m < 2 ^ 54 - 2 -> -1074 <= e <= 969 ->
  exists M : positive,
    binary_round_aux 53 1024 sx (Zpos m) e l = S754_finite sx M (e + 1) /\
    2 ^ 52 <= Zpos M < 2 ^ 53 /\
    Zpos M = round_nearest_even (Z.div2 (Zpos m))
               (loc_after_shift (Z.odd (Zpos m)) l).
Proof.
  intros Hd Hlt He.
  pose proof (digits2_pos_bounds m) as Hb. rewrite Hd in Hb.
  change (54 - 1) with 53 in Hb.
  pose proof (Z.div2_odd (Zpos m)) as Hdo.
  unfold binary_round_aux.
  assert (H1 : shr_fexp 53 1024 (Zpos m) e l =
               ({| shr_m := Z.div2 (Zpos m); shr_r := Z.odd (Zpos m);
                   shr_s := match l with loc_Exact => false | _ => true end |},
                e + 1)).
  { unfold shr_fexp. cbn [Zdigits2]. rewrite Hd, fexp_normal by lia.
    replace (54 + e - 53 - e) with 1 by lia.
    unfold shr. cbn [iter_pos].
    destruct l as [|[| |]]; cbn [shr_record_of_loc]; rewrite shr_1_pos; reflexivity. }
  rewrite H1. cbn [shr_m].
  assert (Hloc : loc_of_shr_record
                   {| shr_m := Z.div2 (Zpos m); shr_r := Z.odd (Zpos m);
                      shr_s := match l with loc_Exact => false | _ => true end |} =
                 loc_after_shift (Z.odd (Zpos m)) l).
  { destruct (Z.odd (Zpos m)), l as [|[| |]]; reflexivity. }
  rewrite Hloc.
  set (m1 := round_nearest_even (Z.div2 (Zpos m)) (loc_after_shift (Z.odd (Zpos m)) l)).
  assert (Hm1 : m1 = Z.div2 (Zpos m) \/ m1 = Z.div2 (Zpos m) + 1).
  { subst m1. destruct (loc_after_shift (Z.odd (Zpos m)) l) as [|[| |]];
      cbn [round_nearest_even]; auto.
    destruct (Z.even (Z.div2 (Zpos m))); auto. }
  assert (Hr : 2 ^ 52 <= m1 < 2 ^ 53).
  { destruct (Z.odd (Zpos m)); cbn [Z.b2z] in Hdo; lia. }
  destruct m1 as [|p1|p1] eqn:E1; try lia.
  rewrite shr_fexp_exact_53; [|apply digits2_pos_unique; change (53 - 1) with 52; lia|lia].
  cbn [shr_m].
  replace (e + 1 <=? 1024 - 53) with true by (symmetry; apply Z.leb_le; lia).
  exists p1. split; [reflexivity|]. split; [lia|reflexivity].
Qed.

Lemma binary_round_aux_exact_53 (sx : bool) (m : positive) (e : Z) :
  Zpos (digits2_pos m) = 53 -> -1074 <= e <= 970 ->
  binary_round_aux 53 1024 sx (Zpos m) e loc_Exact = S754_finite sx m e.
Proof.
  intros Hd He.
  pose proof (digits2_pos_bounds m) as Hb. rewrite Hd in Hb.
  change (53 - 1) with 52 in Hb.
  destruct (binary_round_aux_53 sx m e loc_Exact Hd He) as (M & E & -> & HM & [[-> HE]|[_ [_ HE]]]);
    cbn [round_nearest_even] in HE.
  - congruence.
  - lia.
Qed.
Lemma normalize_pos (n : Z) :
  0 < n < 2 ^ 52 ->
  exists (mx : positive) (s : Z),
    1 <= s <= 52 /\ Zpos mx = n * 2 ^ s /\ 2 ^ 52 <= Zpos mx < 2 ^ 53 /\
    binary_normalize 53 1024 n 0 false = S754_finite false mx (- s).
Proof.
  intros [Hpos Hlt]. destruct n as [|p|p]; try lia.
  pose proof (digits2_pos_bounds p) as [Blo Bhi].
  set (d := digits2_pos p) in *.
  assert (Hd : Zpos d <= 52).
  { destruct (Z_lt_le_dec 52 (Zpos d)); [|assumption].
    assert (2 ^ 52 <= 2 ^ (Zpos d - 1)) by (apply Z.pow_le_mono_r; lia). lia. }
  set (s := 53 - Zpos d).
  assert (Hs : 1 <= s <= 52) by (subst s; lia).
  destruct s as [|sp|sp] eqn:Es; try lia.
  exists (Pos.iter xO p sp), (Zpos sp).
  rewrite iter_xO_pow.
  assert (Hpow : 2 ^ Zpos d * 2 ^ Zpos sp = 2 ^ 53).
  { rewrite <- Z.pow_add_r by lia. f_equal. lia. }
  assert (Hpow' : 2 ^ (Zpos d - 1) * 2 ^ Zpos sp = 2 ^ 52).
  { rewrite <- Z.pow_add_r by lia. f_equal. lia. }
  assert (0 < 2 ^ Zpos sp) by (apply Z.pow_pos_nonneg; lia).
  repeat split; try lia; try nia.
  cbn [binary_normalize]. unfold binary_round.
  assert (Hf : fexp 53 1024 (Zpos (digits2_pos p) + 0) = Zneg sp).
  { fold d. unfold fexp, emin. lia. }
  rewrite Hf. unfold shl_align. cbn [Z.sub Z.add Z.opp].
  rewrite binary_round_aux_exact_53; [reflexivity| |lia].
  apply digits2_pos_unique. rewrite iter_xO_pow. change (53 - 1) with 52. nia.
Qed.

Lemma normalize_1000 : binary_normalize 53 1024 1000 0 false = S754_finite false mantissa_1000 (-43).
Proof. vm_compute. reflexivity. Qed.

Lemma SFdiv_1000 (mx : positive) (ex : Z) :
  2 ^ 52 <= Zpos mx < 2 ^ 53 -> -52 <= ex <= -1 ->
  exists (M : positive) (j : Z),
    SFdiv 53 1024 (S754_finite false mx ex) (S754_finite false mantissa_1000 (-43)) =
      S754_finite false M (ex - 10 + j) /\
    2 ^ 52 <= Zpos M < 2 ^ 53 /\ (j = 0 \/ j = 1) /\
    2 * Z.abs (Zpos mantissa_1000 * Zpos M * 2 ^ j - Zpos mx * 2 ^ 53) <= Zpos mantissa_1000 * 2 ^ j.
Proof.
  intros Hmx Hex.
  unfold SFdiv, SFdiv_core_binary. cbn [Zdigits2 xorb].
  rewrite (digits2_pos_unique mx 53) by (change (53 - 1) with 52; lia).
  change (Zpos (digits2_pos mantissa_1000)) with 53.
  assert (He' : Z.min (fexp 53 1024 (53 + ex - (53 + -43))) (ex - -43) = ex - 10).
  { unfold fexp, emin. lia. }
  rewrite He'.
  replace (ex - -43 - (ex - 10)) with 53 by lia.
  change (IntDef.Z.shiftl (Zpos mx) 53) with (Z.shiftl (Zpos mx) 53).
  rewrite Z.shiftl_mul_pow2 by lia.
  change IntDef.Z.div_eucl with Z.div_eucl.
  pose proof (Z_div_mod (Zpos mx * 2 ^ 53) (Zpos mantissa_1000) eq_refl) as Hdm.
  destruct (Z.div_eucl (Zpos mx * 2 ^ 53) (Zpos mantissa_1000)) as [q r].
  destruct Hdm as [Hq Hr].
  unfold new_location. change (Z.even (Zpos mantissa_1000)) with true. cbv iota.
  unfold new_location_even.
  unfold mantissa_1000 in *.
  change (2 ^ 52) with 4503599627370496 in *.
  change (2 ^ 53) with 9007199254740992 in *.
  assert (Hqlo : 4503599627370496 <= q) by lia.
  assert (Hqhi : q < 18014398509481982) by lia.
  destruct q as [|qp|qp]; try lia.
  set (l := if r =? 0 then loc_Exact else loc_Inexact (2 * r ?= Zpos 8796093022208000)).
  assert (Hl : (l = loc_Exact /\ r = 0) \/
               (l = loc_Inexact Lt /\ 0 < r /\ 2 * r < 8796093022208000) \/
               (l = loc_Inexact Eq /\ 2 * r = 8796093022208000) \/
               (l = loc_Inexact Gt /\ 2 * r > 8796093022208000)).
  { subst l. destruct (r =? 0) eqn:Er.
    - apply Z.eqb_eq in Er. auto.
    - apply Z.eqb_neq in Er. right.
      destruct (Z.compare_spec (2 * r) 8796093022208000); [right; left|left|right; right]; split;
        try reflexivity; lia. }
  clearbody l.
  destruct (Z_lt_le_dec (Zpos qp) 9007199254740992) as [Hd|Hd].
  - destruct (binary_round_aux_53 false qp (ex - 10) l) as (M & E & Heq & HM & HE).
    { apply digits2_pos_unique. change (2 ^ (53 - 1)) with 4503599627370496.
      change (2 ^ 53) with 9007199254740992. lia. }
    { lia. }
    change (2 ^ 52) with 4503599627370496 in *.
    change (2 ^ 53) with 9007199254740992 in *.
    destruct HE as [[-> HMv]|[-> [HMv Hc]]].
    + exists M, 0. rewrite Z.add_0_r. split; [exact Heq|]. split; [exact HM|].
      split; [auto|]. change (2 ^ 0) with 1. rewrite HMv.
      destruct Hl as [[-> Hr0]|[[-> Hr0]|[[-> Hr0]|[-> Hr0]]]]; cbn [round_nearest_even];
        try destruct (Z.even (Zpos qp)); lia.
    + exists M, 1. split; [exact Heq|]. split; [exact HM|].
      split; [auto|]. change (2 ^ 1) with 2. rewrite HMv.
      destruct Hl as [[-> Hr0]|[[-> Hr0]|[[-> Hr0]|[-> Hr0]]]]; cbn [round_nearest_even] in Hc;
        try destruct (Z.even (Zpos qp)); lia.
  - destruct (binary_round_aux_54 false qp (ex - 10) l) as (M & Heq & HM & HMv).
    { apply digits2_pos_unique. change (2 ^ (54 - 1)) with 9007199254740992.
      change (2 ^ 54) with 18014398509481984. lia. }
    { change (2 ^ 54) with 18014398509481984. lia. }
    { lia. }
    change (2 ^ 52) with 4503599627370496 in *.
    change (2 ^ 53) with 9007199254740992 in *.
    exists M, 1.
    split; [exact Heq|]. split; [exact HM|]. split; [auto|].
    change (2 ^ 1) with 2. rewrite HMv.
    pose proof (Z.div2_odd (Zpos qp)) as Hdo.
    destruct (Z.odd (Zpos qp)); cbn [Z.b2z] in Hdo;
      destruct Hl as [[-> Hr0]|[[-> Hr0]|[[-> Hr0]|[-> Hr0]]]];
      cbn [loc_after_shift round_nearest_even];
      try destruct (Z.even (Z.div2 (Zpos qp))); lia.
Qed.

Lemma seconds_spec_zero : seconds_spec 0 = S754_zero false.
Proof. vm_compute. reflexivity. Qed.

Lemma seconds_spec_pos (n : Z) :
  0 < n < 2 ^ 52 ->
  exists (M : positive) (k : Z),
    seconds_spec n = S754_finite false M (- k) /\
    2 ^ 52 <= Zpos M < 2 ^ 53 /\ 10 <= k <= 62 /\
    Z.abs (1000 * Zpos M - n * 2 ^ k) <= 500.
Proof.
  intros Hn. unfold seconds_spec. rewrite normalize_1000.
  destruct (normalize_pos n Hn) as (mx & s & Hs & Hmx & Hrange & ->).
  destruct (SFdiv_1000 mx (- s) Hrange ltac:(lia)) as (M & j & -> & HM & Hj & Hb).
  exists M, (s + 10 - j). split; [f_equal; lia|]. split; [exact HM|]. split; [lia|].
  set (P := 2 ^ (43 + j)).
  assert (HP : 0 < P) by (apply Z.pow_pos_nonneg; lia).
  assert (H1 : Zpos mantissa_1000 * 2 ^ j = 1000 * P).
  { subst P. destruct Hj as [-> | ->]; reflexivity. }
  assert (H2 : Zpos mx * 2 ^ 53 = n * 2 ^ (s + 10 - j) * P).
  { subst P. rewrite Hmx, <- !Z.mul_assoc, <- !Z.pow_add_r by lia.
    do 2 f_equal. lia. }
  assert (H3 : Zpos mantissa_1000 * Zpos M * 2 ^ j = 1000 * Zpos M * P).
  { transitivity (Zpos M * (Zpos mantissa_1000 * 2 ^ j)); [ring | rewrite H1; ring]. }
  rewrite H3, H1, H2 in Hb.
  replace (1000 * Zpos M * P - n * 2 ^ (s + 10 - j) * P)
    with ((1000 * Zpos M - n * 2 ^ (s + 10 - j)) * P) in Hb by ring.
  rewrite Z.abs_mul, (Z.abs_eq P) in Hb by lia.
  set (x := Z.abs (1000 * Zpos M - n * 2 ^ (s + 10 - j))) in *.
  destruct (Z_le_gt_dec x 500) as [Hx|Hx]; [exact Hx|exfalso].
  assert (501 * P <= x * P) by (apply Z.mul_le_mono_nonneg_r; lia).
  lia.
Qed.

(** Two positive offsets in increasing order give quotients in increasing
    order. *)
Lemma seconds_spec_lt (m n : Z) :
  0 < m -> m < n -> n < 2 ^ 52 ->
  SFcompare (seconds_spec m) (seconds_spec n) = Some Lt.
Proof.
  intros Hm Hmn Hn.
  destruct (seconds_spec_pos m ltac:(lia)) as (M1 & k1 & -> & HM1 & Hk1 & Hb1).
  destruct (seconds_spec_pos n ltac:(lia)) as (M2 & k2 & -> & HM2 & Hk2 & Hb2).
  change (2 ^ 52) with 4503599627370496 in *.
  change (2 ^ 53) with 9007199254740992 in *.
  assert (Ha : 1024 <= 2 ^ k1).
  { change 1024 with (2 ^ 10). apply Z.pow_le_mono_r; lia. }
  assert (Hb : 1024 <= 2 ^ k2).
  { change 1024 with (2 ^ 10). apply Z.pow_le_mono_r; lia. }
  assert (Hmono : k1 < k2 -> 2 * 2 ^ k1 <= 2 ^ k2).
  { intros Hlt. rewrite <- Z.pow_succ_r by lia. apply Z.pow_le_mono_r; lia. }
  set (a := 2 ^ k1) in *. set (b := 2 ^ k2) in *.
  assert (Hcross : Zpos M1 * b < Zpos M2 * a).
  { assert (E1 : 1000 * Zpos M1 * b <= (m * a + 500) * b)
      by (apply Z.mul_le_mono_nonneg_r; lia).
    assert (E2 : (n * b - 500) * a <= 1000 * Zpos M2 * a)
      by (apply Z.mul_le_mono_nonneg_r; lia).
    assert (E3 : 1024 * a <= b * a) by (apply Z.mul_le_mono_nonneg_r; lia).
    assert (E4 : 1024 * b <= a * b) by (apply Z.mul_le_mono_nonneg_r; lia).
    assert (E5 : (m + 1) * (a * b) <= n * (a * b))
      by (apply Z.mul_le_mono_nonneg_r; lia).
    lia. }
  cbn [SFcompare].
  destruct (Z.compare_spec (- k1) (- k2)) as [He|He|He].
  - assert (k2 = k1) by lia. subst k2. subst b.
    f_equal. change (Pos.compare M1 M2 = Lt). apply Pos.compare_lt_iff.
    apply Z.mul_lt_mono_pos_r in Hcross; lia.
  - reflexivity.
  - exfalso. specialize (Hmono ltac:(lia)).
    assert (E1 : Zpos M1 * (2 * a) <= Zpos M1 * b)
      by (apply Z.mul_le_mono_nonneg_l; lia).
    assert (E2 : 4503599627370496 * a <= Zpos M1 * a)
      by (apply Z.mul_le_mono_nonneg_r; lia).
    assert (E3 : Zpos M2 * a < 9007199254740992 * a)
      by (apply Z.mul_lt_mono_pos_r; lia).
    lia.
Qed.

Lemma seconds_spec_zero_lt (n : Z) :
  0 < n < 2 ^ 52 -> SFcompare (seconds_spec 0) (seconds_spec n) = Some Lt.
Proof.
  intros Hn. rewrite seconds_spec_zero.
  destruct (seconds_spec_pos n Hn) as (M & k & -> & _). reflexivity.
Qed.

Lemma seconds_spec_refl (n : Z) :
  0 <= n < 2 ^ 52 -> SFcompare (seconds_spec n) (seconds_spec n) = Some Eq.
Proof.
  intros Hn. destruct (Z.eq_dec n 0) as [->|Hz].
  - rewrite seconds_spec_zero. reflexivity.
  - destruct (seconds_spec_pos n ltac:(lia)) as (M & k & -> & _).
    cbn [SFcompare]. rewrite Z.compare_refl.
    f_equal. change (Pos.compare M M = Eq). apply Pos.compare_refl.
Qed.

Lemma SFcompare_Lt_swap (x y : spec_float) :
  SFcompare x y = Some Lt -> SFcompare y x = Some Gt.
Proof.
  destruct x as [sx|sx| |sx mx ex], y as [sy|sy| |sy my ey]; cbn [SFcompare];
    try destruct sx; try destruct sy; try discriminate; try reflexivity.
  all: change (PosDef.Pos.compare_cont Eq my mx) with (Pos.compare my mx).
  all: change (PosDef.Pos.compare_cont Eq mx my) with (Pos.compare mx my).
  all: rewrite (Z.compare_antisym ex ey), (Pos.compare_antisym mx my).
  all: destruct (ex ?= ey), (Pos.compare mx my); cbn [CompOpp]; congruence.
Qed.

Lemma seconds_spec_compare (m n : Z) :
  0 <= m < 2 ^ 52 -> 0 <= n < 2 ^ 52 ->
  SFcompare (seconds_spec m) (seconds_spec n) = Some (m ?= n).
Proof.
  intros Hm Hn. destruct (Z.compare_spec m n) as [->|Hlt|Hgt].
  - apply seconds_spec_refl; assumption.
  - destruct (Z.eq_dec m 0) as [->|Hz].
    + apply seconds_spec_zero_lt; lia.
    + apply seconds_spec_lt; lia.
  - apply SFcompare_Lt_swap.
    destruct (Z.eq_dec n 0) as [->|Hz].
    + apply seconds_spec_zero_lt; lia.
    + apply seconds_spec_lt; lia.
Qed.

Lemma Prim2SF_seconds (n : Z) :
  0 <= n < 2 ^ 52 ->
  Prim2SF (Binary64.int_truediv n 1000) = seconds_spec n.
Proof.
  intros Hn.
  unfold Binary64.int_truediv, Binary64.float_of_int.
  replace (n <? 0) with false by (symmetry; apply Z.ltb_ge; lia).
  change (1000 <? 0) with false. cbv iota.
  rewrite FloatAxioms.div_spec, !FloatAxioms.of_uint63_spec, !Uint63.of_Z_spec.
  assert (2 ^ 52 < wB) by reflexivity.
  rewrite !Z.mod_small by lia.
  reflexivity.
Qed.

Lemma binary64_laws :
  SecondsLaws Binary64.arith (fun n => 0 <= n < Binary64.horizon).
Proof.
  assert (H48 : Binary64.horizon < 2 ^ 52) by reflexivity.
  split; intros m n Hm Hn; cbn [Binary64.arith fle flt truediv];
    assert (Hm' : 0 <= m < 2 ^ 52) by lia; assert (Hn' : 0 <= n < 2 ^ 52) by lia.
  - rewrite FloatAxioms.leb_spec, !Prim2SF_seconds by assumption.
    unfold SFleb. rewrite seconds_spec_compare by assumption.
    unfold Z.leb. destruct (m ?= n); reflexivity.
  - rewrite FloatAxioms.ltb_spec, !Prim2SF_seconds by assumption.
    unfold SFltb. rewrite seconds_spec_compare by assumption.
    unfold Z.ltb. destruct (m ?= n); reflexivity.
Qed.

(** ** Binary64: the test of line 87, away from a tie

    The gap [(start - current_end) * 1000] goes through three roundings: the
    two quotients, the difference, the product.  Each is within half a unit
    in the last place; for offsets below [2^48] the rounded gap is within
    half a millisecond of the integer gap, and so on the same side of the
    integer threshold unless the two are equal. *)

Lemma iter_pos_iter {X : Type} (f : X -> X) (n : positive) (x : X) :
  iter_pos f n x = Pos.iter f x n.
Proof.
  revert x. induction n as [n IH|n IH|]; intros x; cbn [iter_pos Pos.iter].
  - rewrite !IH, <- !Pos.iter_swap. reflexivity.
  - rewrite !IH. reflexivity.
  - reflexivity.
Qed.

Lemma shr_1_nonneg (m : Z) (r s : bool) :
  0 <= m ->
  shr_1 {| shr_m := m; shr_r := r; shr_s := s |} =
  {| shr_m := Z.div2 m; shr_r := Z.odd m; shr_s := r || s |}.
Proof. destruct m as [|[p|p|]|p]; intros H; try lia; reflexivity. Qed.

Lemma shr_iter (m : Z) (n : positive) :
  0 <= m ->
  exists rec,
    Pos.iter shr_1 {| shr_m := m; shr_r := false; shr_s := false |} n = rec /\
    shr_m rec = m / 2 ^ Zpos n /\
    loc_of_shr_record rec = loc_half (m mod 2 ^ Zpos n) (2 ^ Zpos n).
Proof.
  intros Hm. induction n as [|n IH] using Pos.peano_ind.
  - eexists. split; [reflexivity|]. cbn [Pos.iter]. rewrite shr_1_nonneg by assumption.
    cbn [shr_m]. change (2 ^ 1) with 2. rewrite Z.div2_div. split; [reflexivity|].
    pose proof (Z.div2_odd m) as Hdo. rewrite Z.div2_div in Hdo.
    assert (Hmod : m mod 2 = Z.b2z (Z.odd m)).
    { pose proof (Z.div_mod m 2 ltac:(lia)). lia. }
    rewrite Hmod. unfold loc_half.
    destruct (Z.odd m); reflexivity.
  - destruct IH as (rec & Hrec & Hq & Hloc).
    rewrite Pos.iter_succ, Hrec.
    destruct rec as [q r s]. cbn [shr_m] in Hq.
    assert (Hpw : 0 < 2 ^ Zpos n) by (apply Z.pow_pos_nonneg; lia).
    assert (Hq0 : 0 <= q) by (subst q; apply Z.div_pos; lia).
    eexists. split; [reflexivity|].
    rewrite shr_1_nonneg by assumption. cbn [shr_m].
    rewrite Pos2Z.inj_succ, Z.pow_succ_r by lia.
    pose proof (Z.div_mod m (2 ^ Zpos n) ltac:(lia)) as Hdm.
    pose proof (Z.mod_pos_bound m (2 ^ Zpos n) Hpw) as Hmb.
    pose proof (Z.div2_odd q) as Hdo. rewrite Z.div2_div in *.
    set (low := m mod 2 ^ Zpos n) in *.
    set (pw := 2 ^ Zpos n) in *.
    assert (Hdiv : m / (2 * pw) = q / 2).
    { rewrite (Z.mul_comm 2 pw), <- Z.div_div by lia. rewrite <- Hq. reflexivity. }
    assert (Hmod : m mod (2 * pw) = low + Z.b2z (Z.odd q) * pw).
    { symmetry. apply Z.mod_unique with (q := q / 2).
      - left. destruct (Z.odd q); cbn [Z.b2z]; lia.
      - rewrite <- Hq in Hdm. destruct (Z.odd q); cbn [Z.b2z] in *; lia. }
    split; [symmetry; exact Hdiv|].
    rewrite Hmod.
    assert (Hrs : r || s = negb (low =? 0)).
    { unfold loc_half in Hloc. destruct (low =? 0), r, s; cbn in Hloc |- *;
        try reflexivity; discriminate. }
    cbn [loc_of_shr_record]. rewrite Hrs. unfold loc_half.
    destruct (Z.odd q); cbn [Z.b2z].
    + destruct (Z.eqb_spec low 0) as [E|E]; cbn [negb].
      * replace (low + 1 * pw =? 0) with false by (symmetry; apply Z.eqb_neq; lia).
        replace (2 * (low + 1 * pw) ?= 2 * pw) with Eq
          by (symmetry; apply Z.compare_eq_iff; lia). reflexivity.
      * replace (low + 1 * pw =? 0) with false by (symmetry; apply Z.eqb_neq; lia).
        replace (2 * (low + 1 * pw) ?= 2 * pw) with Gt
          by (symmetry; apply Z.compare_gt_iff; lia). reflexivity.
    + rewrite Z.mul_0_l, Z.add_0_r.
      destruct (Z.eqb_spec low 0) as [E|E]; cbn [negb]; [reflexivity|].
      replace (2 * low ?= 2 * pw) with Lt
        by (symmetry; apply Z.compare_lt_iff; lia). reflexivity.
Qed.

Lemma round_nearest_even_half (m q low pw : Z) :
  0 < pw -> 0 <= low < pw -> m = pw * q + low ->
  let m1 := round_nearest_even q (loc_half low pw) in
  (m1 = q \/ m1 = q + 1) /\ 2 * Z.abs (m1 * pw - m) <= pw.
Proof.
  intros Hpw Hlow Hm. unfold loc_half.
  destruct (Z.eqb_spec low 0) as [E|E]; cbn [round_nearest_even].
  - split; [auto|lia].
  - destruct (Z.compare_spec (2 * low) pw) as [H|H|H]; cbn [round_nearest_even].
    + destruct (Z.even q); split; auto; lia.
    + split; [auto|lia].
    + split; [auto|lia].
Qed.

(** Rounding an exact mantissa of more than 53 digits. *)
Lemma binary_round_aux_exact_big (sx : bool) (m : positive) (e : Z) :
  54 <= Zpos (digits2_pos m) -> -1074 <= e -> Zpos (digits2_pos m) + e <= 1023 ->
  exists (M : positive) (j : Z),
    binary_round_aux 53 1024 sx (Zpos m) e loc_Exact = S754_finite sx M (e + j) /\
    2 ^ 52 <= Zpos M < 2 ^ 53 /\
    Zpos (digits2_pos m) - 53 <= j <= Zpos (digits2_pos m) - 52 /\
    2 * Z.abs (Zpos M * 2 ^ j - Zpos m) <= 2 ^ j.
Proof.
  intros Hd He Hov.
  pose proof (digits2_pos_bounds m) as Hb.
  set (d := Zpos (digits2_pos m)) in *.
  destruct (d - 53) as [|n|n] eqn:En; try lia.
  destruct (shr_iter (Zpos m) n ltac:(lia)) as (rec & Hrec & Hq & Hloc).
  assert (H1 : shr_fexp 53 1024 (Zpos m) e loc_Exact = (rec, e + Zpos n)).
  { unfold shr_fexp. cbn [Zdigits2]. fold d. rewrite fexp_normal by lia.
    replace (d + e - 53 - e) with (Zpos n) by lia.
    unfold shr. cbn [shr_record_of_loc]. rewrite iter_pos_iter, Hrec. reflexivity. }
  unfold binary_round_aux. rewrite H1, Hloc.
  set (pw := 2 ^ Zpos n) in *.
  assert (Hpw : 0 < pw) by (apply Z.pow_pos_nonneg; lia).
  pose proof (Z.div_mod (Zpos m) pw ltac:(lia)) as Hdm.
  pose proof (Z.mod_pos_bound (Zpos m) pw Hpw) as Hmb.
  rewrite <- Hq in Hdm.
  set (q := shr_m rec) in *. set (low := Zpos m mod pw) in *.
  assert (Hlo : 2 ^ 52 * pw = 2 ^ (d - 1)).
  { unfold pw. rewrite <- Z.pow_add_r by lia. f_equal. lia. }
  assert (Hhi : 2 ^ 53 * pw = 2 ^ d).
  { unfold pw. rewrite <- Z.pow_add_r by lia. f_equal. lia. }
  change (2 ^ 52) with 4503599627370496 in *.
  change (2 ^ 53) with 9007199254740992 in *.
  assert (Hqr : 4503599627370496 <= q < 9007199254740992) by nia.
  destruct (round_nearest_even_half (Zpos m) q low pw Hpw Hmb Hdm) as [Hm1 Hbd].
  set (m1 := round_nearest_even q (loc_half low pw)) in *.
  destruct (Z.eq_dec m1 9007199254740992) as [Hc|Hc].
  - rewrite Hc. change 9007199254740992 with (2 ^ 53).
    rewrite shr_fexp_exact_carry by lia. cbn [shr_m].
    change (2 ^ 52) with (Zpos 4503599627370496).
    replace (e + Zpos n + 1 <=? 1024 - 53) with true by (symmetry; apply Z.leb_le; lia).
    exists 4503599627370496%positive, (Zpos n + 1).
    split; [f_equal; lia|]. split; [lia|]. split; [lia|].
    rewrite Z.pow_add_r by lia. fold pw. change (2 ^ 1) with 2.
    rewrite Hc in Hbd. lia.
  - assert (Hr : 4503599627370496 <= m1 < 9007199254740992) by lia.
    destruct m1 as [|p1|p1] eqn:E1; try lia.
    rewrite shr_fexp_exact_53;
      [|apply digits2_pos_unique; change (2 ^ (53 - 1)) with 4503599627370496;
        change (2 ^ 53) with 9007199254740992; lia|lia].
    cbn [shr_m].
    replace (e + Zpos n <=? 1024 - 53) with true by (symmetry; apply Z.leb_le; lia).
    exists p1, (Zpos n). split; [reflexivity|]. split; [lia|]. split; [lia|].
    fold pw. exact Hbd.
Qed.

Lemma normal_pos_intro (M : positive) (E : Z) :
  2 ^ 52 <= Zpos M < 2 ^ 53 -> normal_pos (S754_finite false M E).
Proof. intros H. exists M, E. auto. Qed.

Lemma pow_split (a b : Z) : 0 <= a -> 0 <= b -> 2 ^ (a + b) = 2 ^ a * 2 ^ b.
Proof. intros. apply Z.pow_add_r; assumption. Qed.

Lemma fval_normal_pos (f : spec_float) :
  normal_pos f -> -1074 <= fexpo f -> 0 < fval f.
Proof.
  intros (M & E & -> & HM) HE. cbn [fval fexpo cond_Zopp] in *.
  apply Z.mul_pos_pos; [lia|]. apply Z.pow_pos_nonneg; unfold scale; lia.
Qed.

(** From the absolute bound (half a unit in the last place) to the relative
    bound on scaled values. *)
Lemma rel_bound (M m j e : Z) :
  2 ^ 52 <= M -> 0 <= j -> 0 <= e + scale ->
  2 * Z.abs (M * 2 ^ j - m) <= 2 ^ j ->
  2 ^ 53 * Z.abs (M * 2 ^ (e + j + scale) - m * 2 ^ (e + scale))
    <= M * 2 ^ (e + j + scale).
Proof.
  intros HM Hj He Hb.
  replace (e + j + scale) with (j + (e + scale)) by lia.
  rewrite pow_split by lia.
  set (a := 2 ^ j) in *. set (c := 2 ^ (e + scale)).
  assert (Ha : 0 < a) by (apply Z.pow_pos_nonneg; lia).
  assert (Hc : 0 < c) by (apply Z.pow_pos_nonneg; lia).
  replace (M * (a * c) - m * c) with ((M * a - m) * c) by ring.
  rewrite Z.abs_mul, (Z.abs_eq c) by lia.
  change (2 ^ 52) with 4503599627370496 in *.
  change (2 ^ 53) with 9007199254740992.
  set (x := Z.abs (M * a - m)) in *.
  assert (H1 : 4503599627370496 * a <= M * a) by (apply Z.mul_le_mono_nonneg_r; lia).
  assert (H2 : 9007199254740992 * x <= M * a) by lia.
  assert (H3 : 9007199254740992 * x * c <= M * a * c)
    by (apply Z.mul_le_mono_nonneg_r; lia).
  lia.
Qed.

Lemma binary_round_aux_rel (m : positive) (e : Z) :
  53 <= Zpos (digits2_pos m) -> -1074 <= e -> Zpos (digits2_pos m) + e <= 1023 ->
  let r := binary_round_aux 53 1024 false (Zpos m) e loc_Exact in
  normal_pos r /\
  e + Zpos (digits2_pos m) - 53 <= fexpo r <= e + Zpos (digits2_pos m) - 52 /\
  2 ^ 53 * Z.abs (fval r - Zpos m * 2 ^ (e + scale)) <= fval r.
Proof.
  intros Hd He Hov r. subst r.
  pose proof (digits2_pos_bounds m) as Hb.
  destruct (Z.eq_dec (Zpos (digits2_pos m)) 53) as [E53|N53].
  - rewrite binary_round_aux_exact_53 by lia.
    rewrite E53 in *. change (53 - 1) with 52 in Hb.
    split; [apply normal_pos_intro; exact Hb|].
    split; [cbn [fexpo]; lia|].
    cbn [fval cond_Zopp]. rewrite Z.sub_diag. cbn [Z.abs].
    assert (0 < 2 ^ (e + scale)) by (apply Z.pow_pos_nonneg; unfold scale; lia).
    lia.
  - destruct (binary_round_aux_exact_big false m e ltac:(lia) He ltac:(lia))
      as (M & j & -> & HM & Hj & Hbd).
    split; [apply normal_pos_intro; exact HM|].
    split; [cbn [fexpo]; lia|].
    cbn [fval cond_Zopp].
    apply rel_bound; try lia. unfold scale; lia.
Qed.

Lemma binary_round_rel (m : positive) (e : Z) :
  -1000 <= e -> Zpos (digits2_pos m) + e <= 1023 ->
  let r := binary_round 53 1024 false m e in
  normal_pos r /\
  e + Zpos (digits2_pos m) - 53 <= fexpo r <= e + Zpos (digits2_pos m) - 52 /\
  2 ^ 53 * Z.abs (fval r - Zpos m * 2 ^ (e + scale)) <= fval r.
Proof.
  intros He Hov r. subst r. unfold binary_round.
  pose proof (digits2_pos_bounds m) as Hb.
  set (d := Zpos (digits2_pos m)) in *.
  assert (Hd : 1 <= d) by (subst d; lia).
  replace (fexp 53 1024 (d + e)) with (d + e - 53) by (unfold fexp, emin; lia).
  unfold shl_align.
  replace (d + e - 53 - e) with (d - 53) by lia.
  destruct (d - 53) as [|n|n] eqn:En.
  - apply binary_round_aux_rel; fold d; lia.
  - apply binary_round_aux_rel; fold d; lia.
  - pose proof (iter_xO_pow m n) as Hsh.
    assert (Hpw : 0 < 2 ^ Zpos n) by (apply Z.pow_pos_nonneg; lia).
    assert (Hlo : 2 ^ (d - 1) * 2 ^ Zpos n = 2 ^ 52).
    { rewrite <- Z.pow_add_r by lia. f_equal. lia. }
    assert (Hhi : 2 ^ d * 2 ^ Zpos n = 2 ^ 53).
    { rewrite <- Z.pow_add_r by lia. f_equal. lia. }
    assert (Hr : 2 ^ 52 <= Zpos (Pos.iter xO m n) < 2 ^ 53) by (rewrite Hsh; nia).
    rewrite binary_round_aux_exact_53;
      [|apply digits2_pos_unique; change (53 - 1) with 52; exact Hr|lia].
    split; [apply normal_pos_intro; exact Hr|].
    split; [cbn [fexpo]; lia|].
    cbn [fval cond_Zopp]. rewrite Hsh.
    replace (Zpos m * 2 ^ Zpos n * 2 ^ (d + e - 53 + scale))
      with (Zpos m * 2 ^ (e + scale)).
    { rewrite Z.sub_diag. cbn [Z.abs].
      assert (0 < 2 ^ (e + scale)) by (apply Z.pow_pos_nonneg; unfold scale; lia).
      lia. }
    rewrite <- Z.mul_assoc, <- Z.pow_add_r by (unfold scale; lia).
    do 2 f_equal. lia.
Qed.

Lemma digits2_pos_gt (p : positive) (k : Z) :
  2 ^ k <= Zpos p -> k < Zpos (digits2_pos p).
Proof.
  intros H. pose proof (digits2_pos_bounds p) as [_ Hhi].
  destruct (Z_lt_le_dec k (Zpos (digits2_pos p))) as [|Hle]; [assumption|].
  assert (2 ^ Zpos (digits2_pos p) <= 2 ^ k) by (apply Z.pow_le_mono_r; lia). lia.
Qed.

Lemma digits2_pos_le (p : positive) (k : Z) :
  0 <= k -> Zpos p < 2 ^ k -> Zpos (digits2_pos p) <= k.
Proof.
  intros Hk H. pose proof (digits2_pos_bounds p) as [Hlo _].
  destruct (Z_le_gt_dec (Zpos (digits2_pos p)) k) as [|Hgt]; [assumption|].
  assert (2 ^ k <= 2 ^ (Zpos (digits2_pos p) - 1)) by (apply Z.pow_le_mono_r; lia). lia.
Qed.

(** Multiplication by [1000.0]. *)
Lemma SFmul_1000 (f : spec_float) :
  normal_pos f -> -1000 <= fexpo f <= 900 ->
  let r := SFmul 53 1024 f (S754_finite false mantissa_1000 (-43)) in
  normal_pos r /\ fexpo f + 9 <= fexpo r <= fexpo f + 11 /\
  2 ^ 53 * Z.abs (fval r - 1000 * fval f) <= fval r.
Proof.
  intros (M & E & -> & HM) HE r. subst r. cbn [fexpo] in HE. cbn [SFmul xorb].
  change (Pos.mul M mantissa_1000) with (M * mantissa_1000)%positive.
  assert (Hprod : Zpos (M * mantissa_1000) = Zpos M * 8796093022208000)
    by (rewrite Pos2Z.inj_mul; reflexivity).
  change (2 ^ 52) with 4503599627370496 in HM.
  change (2 ^ 53) with 9007199254740992 in HM.
  assert (Hlo : 2 ^ 104 <= Zpos (M * mantissa_1000)).
  { rewrite Hprod. change (2 ^ 104) with 20282409603651670423947251286016. lia. }
  assert (Hhi : Zpos (M * mantissa_1000) < 2 ^ 106).
  { rewrite Hprod. change (2 ^ 106) with 81129638414606681695789005144064. lia. }
  pose proof (digits2_pos_gt _ _ Hlo) as Hd1.
  pose proof (digits2_pos_le _ 106 ltac:(lia) Hhi) as Hd2.
  destruct (binary_round_aux_rel (M * mantissa_1000) (E + -43)) as (Hn & Hx & Hb); try lia.
  split; [exact Hn|]. split; [cbn [fexpo]; lia|].
  cbn [fval cond_Zopp] in *.
  replace (1000 * (Zpos M * 2 ^ (E + scale)))
    with (Zpos (M * mantissa_1000) * 2 ^ (E + -43 + scale)); [exact Hb|].
  rewrite Hprod.
  replace (E + scale) with (43 + (E + -43 + scale)) by lia.
  rewrite (pow_split 43) by (unfold scale; lia).
  change (2 ^ 43) with 8796093022208. ring.
Qed.

Lemma shl_align_value (M : positive) (E ez : Z) :
  ez <= E -> Zpos (fst (shl_align M E ez)) = Zpos M * 2 ^ (E - ez).
Proof.
  intros H. unfold shl_align.
  destruct (ez - E) as [|d|d] eqn:Ed; try lia; cbn [fst].
  - replace (E - ez) with 0 by lia. simpl. lia.
  - rewrite iter_xO_pow. do 2 f_equal. lia.
Qed.

(** Subtraction of a smaller positive number. *)
Lemma SFsub_pos (f1 f2 : spec_float) :
  normal_pos f1 -> normal_pos f2 ->
  -900 <= fexpo f1 <= 0 -> -900 <= fexpo f2 <= 0 ->
  fval f2 < fval f1 ->
  let r := SFsub 53 1024 f1 f2 in
  normal_pos r /\ -1000 <= fexpo r <= 1 /\
  2 ^ 53 * Z.abs (fval r - (fval f1 - fval f2)) <= fval r.
Proof.
  intros (M1 & E1 & -> & HM1) (M2 & E2 & -> & HM2) HE1 HE2 Hlt r. subst r.
  cbn [fexpo] in HE1, HE2. cbn [SFsub cond_Zopp].
  set (ez := Z.min E1 E2).
  rewrite !shl_align_value by (subst ez; lia).
  cbn [fval cond_Zopp] in *.
  set (a := Zpos M1 * 2 ^ (E1 - ez)). set (b := Zpos M2 * 2 ^ (E2 - ez)).
  assert (Hpz : 0 < 2 ^ (ez + scale)) by (apply Z.pow_pos_nonneg; unfold scale; subst ez; lia).
  assert (Ha : a * 2 ^ (ez + scale) = Zpos M1 * 2 ^ (E1 + scale)).
  { unfold a. rewrite <- Z.mul_assoc, <- Z.pow_add_r by (unfold scale; subst ez; lia).
    do 2 f_equal. lia. }
  assert (Hb : b * 2 ^ (ez + scale) = Zpos M2 * 2 ^ (E2 + scale)).
  { unfold b. rewrite <- Z.mul_assoc, <- Z.pow_add_r by (unfold scale; subst ez; lia).
    do 2 f_equal. lia. }
  assert (Hab : b < a).
  { apply Z.mul_lt_mono_pos_r with (p := 2 ^ (ez + scale)); [exact Hpz|]. lia. }
  assert (Hbpos : 0 < b).
  { unfold b. apply Z.mul_pos_pos; [lia|]. apply Z.pow_pos_nonneg; subst ez; lia. }
  destruct (a - b) as [|mm|mm] eqn:Em; try lia.
  cbn [binary_normalize].
  assert (Hmm : Zpos mm < 2 ^ (53 + (E1 - ez))).
  { rewrite pow_split by (subst ez; lia).
    assert (a < 2 ^ 53 * 2 ^ (E1 - ez)).
    { unfold a. apply Z.mul_lt_mono_pos_r; [apply Z.pow_pos_nonneg; subst ez; lia | lia]. }
    lia. }
  assert (Hk : 0 <= 53 + (E1 - ez)) by (subst ez; lia).
  pose proof (digits2_pos_le mm _ Hk Hmm) as Hd.
  assert (Hd1 : 1 <= Zpos (digits2_pos mm)) by lia.
  destruct (binary_round_rel mm ez) as (Hn & Hx & Hbd); [subst ez; lia | lia |].
  split; [exact Hn|]. split; [subst ez; lia|].
  replace (Zpos M1 * 2 ^ (E1 + scale) - Zpos M2 * 2 ^ (E2 + scale))
    with (Zpos mm * 2 ^ (ez + scale)); [exact Hbd|].
  rewrite <- Em, <- Ha, <- Hb. ring.
Qed.

(** The order of positive normal numbers is the order of their values. *)
Lemma SFcompare_normal (f1 f2 : spec_float) :
  normal_pos f1 -> normal_pos f2 -> -1074 <= fexpo f1 -> -1074 <= fexpo f2 ->
  SFcompare f1 f2 = Some (fval f1 ?= fval f2).
Proof.
  intros (M1 & E1 & -> & HM1) (M2 & E2 & -> & HM2) HE1 HE2.
  cbn [SFcompare fval fexpo cond_Zopp] in *. f_equal.
  change (2 ^ 52) with 4503599627370496 in *.
  change (2 ^ 53) with 9007199254740992 in *.
  assert (Hstep : forall Ma Mb Ea Eb : Z,
            4503599627370496 <= Ma < 9007199254740992 ->
            4503599627370496 <= Mb < 9007199254740992 ->
            -1074 <= Ea -> Ea < Eb ->
            Ma * 2 ^ (Ea + scale) < Mb * 2 ^ (Eb + scale)).
  { intros Ma Mb Ea Eb Ha Hb Hlo Hlt.
    assert (0 < 2 ^ (Ea + scale)) by (apply Z.pow_pos_nonneg; unfold scale; lia).
    assert (2 * 2 ^ (Ea + scale) <= 2 ^ (Eb + scale)).
    { rewrite <- Z.pow_succ_r by (unfold scale; lia).
      apply Z.pow_le_mono_r; unfold scale; lia. }
    assert (Ma * 2 ^ (Ea + scale) < 9007199254740992 * 2 ^ (Ea + scale))
      by (apply Z.mul_lt_mono_pos_r; lia).
    assert (4503599627370496 * 2 ^ (Eb + scale) <= Mb * 2 ^ (Eb + scale))
      by (apply Z.mul_le_mono_nonneg_r; lia).
    lia. }
  destruct (Z.compare_spec E1 E2) as [He|He|He].
  - subst E2. change (PosDef.Pos.compare_cont Eq M1 M2) with (Pos.compare M1 M2).
    rewrite <- Zmult_compare_compat_r
      by (apply Z.lt_gt, Z.pow_pos_nonneg; unfold scale; lia).
    reflexivity.
  - symmetry. apply Z.compare_lt_iff. apply Hstep; lia.
  - symmetry. apply Z.compare_gt_iff. apply Hstep; lia.
Qed.

(** The quotient [n / 1000] in scaled form. *)
Lemma seconds_spec_value (n : Z) :
  0 < n < 2 ^ 52 ->
  normal_pos (seconds_spec n) /\ -62 <= fexpo (seconds_spec n) <= -10 /\
  2 ^ 53 * Z.abs (1000 * fval (seconds_spec n) - n * 2 ^ scale)
    <= 1000 * fval (seconds_spec n).
Proof.
  intros Hn.
  destruct (seconds_spec_pos n Hn) as (M & k & -> & HM & Hk & Hb).
  split; [apply normal_pos_intro; exact HM|].
  split; [cbn [fexpo]; lia|].
  cbn [fval cond_Zopp].
  replace (2 ^ scale) with (2 ^ k * 2 ^ (- k + scale))
    by (rewrite <- pow_split by (unfold scale; lia); f_equal; lia).
  set (c := 2 ^ (- k + scale)).
  assert (Hc : 0 < c) by (apply Z.pow_pos_nonneg; unfold scale; lia).
  replace (1000 * (Zpos M * c) - n * (2 ^ k * c))
    with ((1000 * Zpos M - n * 2 ^ k) * c) by ring.
  rewrite Z.abs_mul, (Z.abs_eq c) by lia.
  change (2 ^ 52) with 4503599627370496 in *.
  change (2 ^ 53) with 9007199254740992 in *.
  set (x := Z.abs (1000 * Zpos M - n * 2 ^ k)) in *.
  assert (9007199254740992 * x * c <= 1000 * Zpos M * c)
    by (apply Z.mul_le_mono_nonneg_r; lia).
  lia.
Qed.

(** An int operand below [2^52] in magnitude is converted exactly. *)
Lemma float_of_int_spec (t : Z) :
  - 2 ^ 52 < t < 2 ^ 52 ->
  let T := Prim2SF (Binary64.float_of_int t) in
  fval T = t * 2 ^ scale /\
  ((t = 0 /\ T = S754_zero false) \/
   (0 < t /\ normal_pos T /\ -52 <= fexpo T <= -1) \/
   (t < 0 /\ exists M E, T = S754_finite true M E)).
Proof.
  intros Ht T. subst T. unfold Binary64.float_of_int.
  assert (Hw : 2 ^ 52 < wB) by reflexivity.
  assert (Hval : forall n mx s, 1 <= s <= 52 -> Zpos mx = n * 2 ^ s ->
                   Zpos mx * 2 ^ (- s + scale) = n * 2 ^ scale).
  { intros n mx s Hs ->. rewrite <- Z.mul_assoc, <- Z.pow_add_r by (unfold scale; lia).
    do 2 f_equal. lia. }
  destruct (Z.ltb_spec t 0) as [Hneg|Hnn].
  - rewrite FloatAxioms.opp_spec, FloatAxioms.of_uint63_spec, Uint63.of_Z_spec.
    rewrite Z.mod_small by lia.
    change FloatOps.prec with 53. change FloatOps.emax with 1024.
    destruct (normalize_pos (- t) ltac:(lia)) as (mx & s & Hs & Hmx & Hr & ->).
    cbn [SFopp negb fval cond_Zopp]. split.
    + rewrite (Hval (- t) mx s Hs Hmx). ring.
    + right. right. split; [exact Hneg|]. eauto.
  - rewrite FloatAxioms.of_uint63_spec, Uint63.of_Z_spec.
    rewrite Z.mod_small by lia.
    change FloatOps.prec with 53. change FloatOps.emax with 1024.
    destruct (Z.eq_dec t 0) as [->|Hz].
    + cbn [binary_normalize fval]. split; [reflexivity|]. left. auto.
    + destruct (normalize_pos t ltac:(lia)) as (mx & s & Hs & Hmx & Hr & ->).
      cbn [fval cond_Zopp]. split; [apply Hval; assumption|].
      right. left. split; [lia|]. split; [apply normal_pos_intro; exact Hr|].
      cbn [fexpo]. lia.
Qed.

(** [x > n] for a positive normal [x] and an int [n] below [2^52] in
    magnitude compares the values. *)
Lemma ltb_int_normal (t : Z) (g : float) :
  - 2 ^ 52 < t < 2 ^ 52 ->
  normal_pos (Prim2SF g) -> -1074 <= fexpo (Prim2SF g) ->
  PrimFloat.ltb (Binary64.float_of_int t) g = (t * 2 ^ scale <? fval (Prim2SF g)).
Proof.
  intros Ht Hg He.
  pose proof (fval_normal_pos _ Hg He) as Hpos.
  assert (HP : 0 < 2 ^ scale) by (apply Z.pow_pos_nonneg; unfold scale; lia).
  rewrite FloatAxioms.ltb_spec. unfold SFltb.
  destruct (float_of_int_spec t Ht) as [Hv [[Hz HT]|[[Hp [HT HE]]|[Hn (M & E & HT)]]]].
  - rewrite HT. destruct Hg as (Mg & Eg & Hg & _). rewrite Hg in *.
    cbn [SFcompare]. symmetry. apply Z.ltb_lt. subst t. lia.
  - rewrite (SFcompare_normal _ _ HT Hg) by lia. rewrite Hv.
    unfold Z.ltb. destruct (t * 2 ^ scale ?= fval (Prim2SF g)); reflexivity.
  - rewrite HT. destruct Hg as (Mg & Eg & Hg & _). rewrite Hg in *.
    cbn [SFcompare]. symmetry. apply Z.ltb_lt.
    assert (t * 2 ^ scale < 0) by (apply Z.mul_neg_pos; lia). lia.
Qed.

Lemma Prim2SF_1000 :
  Prim2SF (Binary64.float_of_int 1000) = S754_finite false mantissa_1000 (-43).
Proof. vm_compute. reflexivity. Qed.

(** The test of line 87 on two offsets below [2^48]: away from a tie the
    rounded gap is on the same side of the threshold as the integer gap. *)
Lemma binary64_gap_test (min_silence_len context_ms pause_ms start current_end : Z) :
  0 <= current_end -> current_end < start -> start < 2 ^ 48 ->
  - 2 ^ 52 < min_silence_len - pause_ms - context_ms < 2 ^ 52 ->
  start - current_end <> min_silence_len - pause_ms - context_ms ->
  gap_test (A:=Binary64.arith) min_silence_len context_ms pause_ms start current_end =
  (min_silence_len - pause_ms - context_ms <? start - current_end).
Proof.
  intros Hb Hlt Hs Ht Htie.
  set (thr := min_silence_len - pause_ms - context_ms) in *.
  unfold gap_test, gap_exceeds, fgt_int.
  cbn [Binary64.arith flt fmul fsub of_int truediv]. fold thr.
  set (x := Binary64.int_truediv start 1000).
  set (y := Binary64.int_truediv current_end 1000).
  set (g := PrimFloat.mul (PrimFloat.sub x y) (Binary64.float_of_int 1000)).
  assert (H48 : 2 ^ 48 < 2 ^ 52) by reflexivity.
  assert (Hx : Prim2SF x = seconds_spec start) by (apply Prim2SF_seconds; lia).
  assert (Hy : Prim2SF y = seconds_spec current_end) by (apply Prim2SF_seconds; lia).
  destruct (seconds_spec_value start ltac:(lia)) as (Hnx & Hex & Hbx).
  set (P := 2 ^ scale) in *.
  assert (HP : 0 < P) by (apply Z.pow_pos_nonneg; unfold scale; lia).
  set (X := fval (seconds_spec start)) in *.
  (* the difference *)
  assert (Hv : exists v, Prim2SF (PrimFloat.sub x y) = v /\ normal_pos v /\
                 -1000 <= fexpo v <= 1 /\
                 exists Y, 2 ^ 53 * Z.abs (1000 * Y - current_end * P) <= 1000 * Y /\
                           0 <= Y /\
                           2 ^ 53 * Z.abs (fval v - (X - Y)) <= fval v).
  { rewrite FloatAxioms.sub_spec, Hx, Hy.
    unfold SF64sub. change FloatOps.prec with 53. change FloatOps.emax with 1024.
    destruct (Z.eq_dec current_end 0) as [->|Hnz].
    - rewrite seconds_spec_zero.
      destruct Hnx as (M & E & HM & Hr). rewrite HM in *. cbn [fexpo] in Hex.
      eexists. split; [reflexivity|]. cbn [SFsub].
      split; [apply normal_pos_intro; exact Hr|]. split; [cbn [fexpo]; lia|].
      exists 0. split; [cbn; lia|]. split; [lia|].
      assert (HX : fval (S754_finite false M E) = X) by (unfold X; rewrite HM; reflexivity).
      rewrite HX, Z.sub_0_r, Z.sub_diag. cbn [Z.abs].
      pose proof (fval_normal_pos (S754_finite false M E)
                    (normal_pos_intro M E Hr) ltac:(cbn [fexpo]; lia)). lia.
    - destruct (seconds_spec_value current_end ltac:(lia)) as (Hny & Hey & Hby).
      assert (Hcmp : fval (seconds_spec current_end) < X).
      { pose proof (seconds_spec_compare current_end start ltac:(lia) ltac:(lia)) as Hc.
        rewrite (SFcompare_normal _ _ Hny Hnx) in Hc by lia.
        injection Hc as Hc. rewrite (proj2 (Z.compare_lt_iff current_end start) Hlt) in Hc.
        apply Z.compare_lt_iff. exact Hc. }
      destruct (SFsub_pos _ _ Hnx Hny ltac:(lia) ltac:(lia) Hcmp) as (Hn & He & Hbd).
      eexists. split; [reflexivity|]. split; [exact Hn|]. split; [exact He|].
      exists (fval (seconds_spec current_end)).
      split; [exact Hby|]. split; [|exact Hbd].
      pose proof (fval_normal_pos _ Hny ltac:(lia)). lia. }
  destruct Hv as (v & Hv & Hnv & Hev & Y & HbY & HY0 & Hbv).
  assert (Hg : Prim2SF g = SFmul 53 1024 v (S754_finite false mantissa_1000 (-43))).
  { unfold g. rewrite FloatAxioms.mul_spec, Hv, Prim2SF_1000. reflexivity. }
  destruct (SFmul_1000 v Hnv ltac:(lia)) as (Hng & Heg & Hbg).
  rewrite <- Hg in Hng, Heg, Hbg.
  rewrite (ltb_int_normal thr g Ht Hng) by lia.
  fold P. set (G := fval (Prim2SF g)) in *. set (V := fval v) in *.
  (* the arithmetic *)
  change (2 ^ 53) with 9007199254740992 in *.
  change (2 ^ 48) with 281474976710656 in *.
  assert (HsP : start * P < 281474976710656 * P) by (apply Z.mul_lt_mono_pos_r; lia).
  assert (HbP : 0 <= current_end * P) by (apply Z.mul_nonneg_nonneg; lia).
  destruct (Z.ltb_spec thr (start - current_end)) as [Hgt|Hle].
  - apply Z.ltb_lt.
    assert ((thr + 1) * P <= (start - current_end) * P)
      by (apply Z.mul_le_mono_nonneg_r; lia).
    lia.
  - apply Z.ltb_ge.
    assert ((start - current_end) * P <= (thr - 1) * P)
      by (apply Z.mul_le_mono_nonneg_r; lia).
    lia.
Qed.

(** ** Exact arithmetic: more padding never splits more *)

Section ExactMonotone.
Variables min_silence_len c1 p1 c2 p2 : Z.
Hypothesis context_le : 0 <= c1 <= c2.
Hypothesis pause_le : 0 <= p1 <= p2.

Lemma exact_count_from (chunks : list (Z * Z)) :
  forall (prev : Z * Z) (a1 a2 : Z),
  0 <= snd prev ->
  Forall chunk_ok chunks ->
  adjacent (fun a b => snd a <= fst b) (prev :: chunks) ->
  (length (merge_ms (gap_test (A:=Exact.arith) min_silence_len c2 p2)
             a2 (snd prev + p2) (map (pad_ms c2 p2) chunks)) <=
   length (merge_ms (gap_test (A:=Exact.arith) min_silence_len c1 p1)
             a1 (snd prev + p1) (map (pad_ms c1 p1) chunks)))%nat.
Proof.
  induction chunks as [|[s e] chunks IH]; intros prev a1 a2 Hprev Hok Hadj.
  - simpl. lia.
  - inversion Hok as [|ch l Hch Hok']; subst. unfold chunk_ok in Hch. simpl in Hch.
    apply adjacent_cons in Hadj. destruct Hadj as [Hpe Hadj]. simpl in Hpe.
    assert (He : 0 <= snd (s, e)) by (simpl; lia).
    pose proof (fun a1 a2 => IH (s, e) a1 a2 He Hok' Hadj) as IH'.
    cbn [snd] in IH'.
    cbn [map pad_ms merge_ms]. rewrite !exact_gap_test.
    destruct (Z.leb_spec (Z.max 0 (s - c2)) (snd prev + p2)) as [H2|H2];
      destruct (Z.leb_spec (Z.max 0 (s - c1)) (snd prev + p1)) as [H1|H1];
      try (destruct (Z.ltb_spec (min_silence_len - p2 - c2)
                      (Z.max 0 (s - c2) - (snd prev + p2))) as [G2|G2]);
      try (destruct (Z.ltb_spec (min_silence_len - p1 - c1)
                      (Z.max 0 (s - c1) - (snd prev + p1))) as [G1|G1]);
      try rewrite (Z.max_r (snd prev + p2) (e + p2)) by lia;
      try rewrite (Z.max_r (snd prev + p1) (e + p1)) by lia;
      cbn [length];
      try (exfalso; lia);
      try apply IH';
      try (apply le_n_S, IH');
      try (apply Nat.le_le_succ_r, IH').
Qed.

Lemma exact_count_mono (chunks : list (Z * Z)) :
  well_formed chunks -> on_timeline chunks ->
  (length (merge (A:=Exact.arith) chunks min_silence_len c2 p2) <=
   length (merge (A:=Exact.arith) chunks min_silence_len c1 p1))%nat.
Proof.
  intros (Hok & _ & Hadj) Hnn.
  rewrite !(merge_seconds _ _ _ _ exact_laws) by apply exact_all_in.
  rewrite !length_map.
  destruct chunks as [|[s0 e0] rest]; [simpl; lia|].
  inversion Hok as [|ch l Hch Hok']; subst. unfold chunk_ok in Hch. simpl in Hch.
  inversion Hnn as [|ch l Hs0 _]; subst. simpl in Hs0.
  cbn [map pad_ms merge_ms_all].
  apply (exact_count_from rest (s0, e0)); [simpl; lia | assumption | assumption].
Qed.
End ExactMonotone.

(** ** Binary64 and exact arithmetic agree away from ties *)

Section Agreement.
Variables min_silence_len context_ms pause_ms : Z.
Hypothesis params : params_within_horizon min_silence_len context_ms pause_ms.

Lemma binary64_exact_from (chunks : list (Z * Z)) :
  forall (prev : Z * Z) (a : Z),
  0 <= snd prev ->
  Forall chunk_ok chunks ->
  adjacent (fun a b => snd a <= fst b) (prev :: chunks) ->
  no_tie min_silence_len (prev :: chunks) ->
  within_horizon chunks pause_ms ->
  merge_ms (gap_test (A:=Binary64.arith) min_silence_len context_ms pause_ms)
    a (snd prev + pause_ms) (map (pad_ms context_ms pause_ms) chunks) =
  merge_ms (gap_test (A:=Exact.arith) min_silence_len context_ms pause_ms)
    a (snd prev + pause_ms) (map (pad_ms context_ms pause_ms) chunks).
Proof.
  destruct params as (Hmsl & Hctx & Hpause).
  unfold Binary64.horizon in Hmsl, Hctx, Hpause.
  change (2 ^ 48) with 281474976710656 in *.
  induction chunks as [|[s e] chunks IH]; intros prev a Hprev Hok Hadj Htie Hh.
  - reflexivity.
  - inversion Hok as [|ch l Hch Hok']; subst. unfold chunk_ok in Hch. simpl in Hch.
    inversion Hh as [|ch l Hhe Hh']; subst. unfold Binary64.horizon in Hhe. simpl in Hhe.
    change (2 ^ 48) with 281474976710656 in Hhe.
    apply adjacent_cons in Hadj. destruct Hadj as [Hpe Hadj]. simpl in Hpe.
    unfold no_tie in Htie. apply adjacent_cons in Htie.
    destruct Htie as [Hne Htie]. simpl in Hne.
    assert (He : 0 <= snd (s, e)) by (simpl; lia).
    pose proof (fun a => IH (s, e) a He Hok' Hadj Htie Hh') as IH'.
    cbn [snd] in IH'.
    cbn [map pad_ms merge_ms].
    destruct (Z.leb_spec (Z.max 0 (s - context_ms)) (snd prev + pause_ms)) as [H1|H1].
    + rewrite (Z.max_r (snd prev + pause_ms) (e + pause_ms)) by lia. apply IH'.
    + rewrite binary64_gap_test, exact_gap_test;
        [| lia | lia | change (2 ^ 48) with 281474976710656; lia
         | change (2 ^ 52) with 4503599627370496; lia | lia].
      destruct (min_silence_len - pause_ms - context_ms
                <? Z.max 0 (s - context_ms) - (snd prev + pause_ms)).
      * f_equal. apply IH'.
      * apply IH'.
Qed.

Lemma binary64_exact_agree (chunks : list (Z * Z)) :
  well_formed chunks -> on_timeline chunks -> no_tie min_silence_len chunks ->
  within_horizon chunks pause_ms ->
  merge_ms_all (gap_test (A:=Binary64.arith) min_silence_len context_ms pause_ms)
    (map (pad_ms context_ms pause_ms) chunks) =
  merge_ms_all (gap_test (A:=Exact.arith) min_silence_len context_ms pause_ms)
    (map (pad_ms context_ms pause_ms) chunks).
Proof.
  intros (Hok & _ & Hadj) Hnn Htie Hh.
  destruct chunks as [|[s0 e0] rest]; [reflexivity|].
  inversion Hok as [|ch l Hch Hok']; subst. unfold chunk_ok in Hch. simpl in Hch.
  inversion Hnn as [|ch l Hs0 _]; subst. simpl in Hs0.
  inversion Hh as [|ch l Hhe Hh']; subst.
  cbn [map pad_ms merge_ms_all].
  apply (binary64_exact_from rest (s0, e0)); try assumption. simpl; lia.
Qed.

(** Away from ties the binary64 output and the exact output are the
    conversions of one list of millisecond ranges. *)
Lemma binary64_rounds_exact (chunks : list (Z * Z)) :
  well_formed chunks -> on_timeline chunks -> no_tie min_silence_len chunks ->
  within_horizon chunks pause_ms ->
  exists out_ms : list (Z * Z),
    merge (A:=Binary64.arith) chunks min_silence_len context_ms pause_ms =
      map seconds out_ms /\
    merge (A:=Exact.arith) chunks min_silence_len context_ms pause_ms =
      map seconds out_ms.
Proof.
  intros Hwf Hnn Htie Hh.
  destruct params as (_ & Hctx & Hpause).
  exists (merge_ms_all (gap_test (A:=Exact.arith) min_silence_len context_ms pause_ms)
            (map (pad_ms context_ms pause_ms) chunks)).
  split.
  - rewrite (merge_seconds _ _ _ _ binary64_laws)
      by (apply padded_within_horizon; try lia; try assumption; apply Hwf).
    rewrite binary64_exact_agree by assumption. reflexivity.
  - rewrite (merge_seconds _ _ _ _ exact_laws) by apply exact_all_in. reflexivity.
Qed.

Lemma binary64_count_exact (chunks : list (Z * Z)) :
  well_formed chunks -> on_timeline chunks -> no_tie min_silence_len chunks ->
  within_horizon chunks pause_ms ->
  length (merge (A:=Binary64.arith) chunks min_silence_len context_ms pause_ms) =
  length (merge (A:=Exact.arith) chunks min_silence_len context_ms pause_ms).
Proof.
  intros Hwf Hnn Htie Hh.
  destruct (binary64_rounds_exact chunks Hwf Hnn Htie Hh) as (out_ms & -> & ->).
  rewrite !length_map. reflexivity.
Qed.
End Agreement.

(** * The claims *)

#[local] Set Warnings "-inexact-float".

Lemma zero_le_seconds {A : PyFloat} (dom : Z -> Prop) (n : Z) :
  SecondsLaws A dom -> of_int (A:=A) 0 = truediv 0 1000 ->
  dom 0 -> dom n -> 0 <= n ->
  fle (of_int (A:=A) 0) (truediv n 1000) = true.
Proof.
  intros laws E H0 Hn Hle. rewrite E, (sec_le _ _ laws) by assumption.
  apply Z.leb_le. exact Hle.
Qed.

(** C1.  Coverage: for raw ranges with [start < end], ascending and without
    overlap, and non-negative context and pause, the padded interval of every
    raw range, [[max(0, start - context_ms)/1000, (end + pause_ms)/1000]],
    lies inside some range of the output of the merge step: in exact
    arithmetic for every such input, and in binary64 for every such input on
    the timeline and below the horizon. *)
Theorem coverage (non_silent_chunks : list (Z * Z))
    (min_silence_len context_ms pause_ms : Z) :
  well_formed non_silent_chunks -> 0 <= context_ms -> 0 <= pause_ms ->
  Forall (fun chunk =>
            covered (A:=Exact.arith) (pad context_ms pause_ms chunk)
              (merge non_silent_chunks min_silence_len context_ms pause_ms))
         non_silent_chunks /\
  (on_timeline non_silent_chunks -> within_horizon non_silent_chunks pause_ms ->
   Forall (fun chunk =>
             covered (A:=Binary64.arith) (pad context_ms pause_ms chunk)
               (merge non_silent_chunks min_silence_len context_ms pause_ms))
          non_silent_chunks).
Proof.
  intros Hwf Hc Hp. split.
  - apply (merge_covers _ exact_laws); [exact Hwf | apply exact_all_in].
  - intros Hnn Hh. apply (merge_covers _ binary64_laws); [exact Hwf|].
    apply padded_within_horizon; try assumption. apply Hwf.
Qed.

Lemma coverage_witness :
  Forall (fun chunk =>
            covered (A:=Binary64.arith) (pad 300 500 chunk)
              (merge [(0, 1000); (1200, 2000); (5000, 6000)] 700 300 500))
         [(0, 1000); (1200, 2000); (5000, 6000)].
Proof.
  apply (coverage [(0, 1000); (1200, 2000); (5000, 6000)] 700 300 500);
    [solve_well_formed | lia | lia | solve_on_timeline | solve_within_horizon].
Defined.

(** C2, as stated: neighbours of the output at least [min_silence_len]
    apart.  Two chunks one second apart, with the default parameters, come out
    as two ranges 200 ms apart. *)
Lemma min_spacing_counterexample :
  well_formed [(0, 1000); (2000, 3000)] /\
  merge (A:=Binary64.arith) [(0, 1000); (2000, 3000)] 700 300 500 =
    [(0, 1.5); (1.7, 3.5)]%float /\
  ~ min_spacing (A:=Binary64.arith) 700
      (merge [(0, 1000); (2000, 3000)] 700 300 500) /\
  ~ min_spacing (A:=Exact.arith) 700
      (merge [(0, 1000); (2000, 3000)] 700 300 500).
Proof.
  split; [solve_well_formed|]. split; [vm_compute; reflexivity|].
  split; intros H; vm_compute in H; destruct H as [H _]; discriminate H.
Qed.

(** C2, amended.  Neighbours [(a, b)] of the output do not overlap and passed
    the test of line 87: [(b.start - a.end) * 1000 >
    min_silence_len - pause_ms - context_ms], evaluated in the arithmetic of
    the instance. *)
Theorem gap_spacing_holds (non_silent_chunks : list (Z * Z))
    (min_silence_len context_ms pause_ms : Z) :
  well_formed non_silent_chunks -> 0 <= context_ms -> 0 <= pause_ms ->
  (let out := merge (A:=Exact.arith) non_silent_chunks min_silence_len context_ms pause_ms in
   non_overlapping out /\ gap_spacing min_silence_len context_ms pause_ms out) /\
  (on_timeline non_silent_chunks -> within_horizon non_silent_chunks pause_ms ->
   let out := merge (A:=Binary64.arith) non_silent_chunks min_silence_len context_ms pause_ms in
   non_overlapping out /\ gap_spacing min_silence_len context_ms pause_ms out).
Proof.
  intros Hwf Hc Hp. split.
  - destruct (merge_apart _ exact_laws min_silence_len context_ms pause_ms
                non_silent_chunks (exact_all_in _)) as (H1 & _ & H3).
    split; assumption.
  - intros Hnn Hh.
    destruct (merge_apart _ binary64_laws min_silence_len context_ms pause_ms
                non_silent_chunks
                (padded_within_horizon context_ms pause_ms Hc Hp _ (proj1 Hwf) Hnn Hh))
      as (H1 & _ & H3).
    split; assumption.
Qed.

Lemma gap_spacing_witness :
  let out := merge (A:=Binary64.arith) [(0, 1000); (2000, 3000); (3100, 4000)] 700 300 500 in
  non_overlapping out /\ gap_spacing 700 300 500 out.
Proof.
  apply (gap_spacing_holds [(0, 1000); (2000, 3000); (3100, 4000)] 700 300 500);
    [solve_well_formed | lia | lia | solve_on_timeline | solve_within_horizon].
Defined.

(** Why C3 reads the raw ranges as offsets into the audio: a chunk before
    time zero has its start clamped to 0 and its end left where it is. *)
Lemma chunk_before_time_zero :
  well_formed [(-5, -3)] /\
  merge (A:=Exact.arith) [(-5, -3)] 700 0 0 = [(0, -3 # 1000)]%Q.
Proof. split; [solve_well_formed | vm_compute; reflexivity]. Qed.

(** C3.  Output well-formedness: for raw ranges that are offsets into the
    audio ([0 <= start < end], ascending, without overlap) and non-negative
    context and pause, the output is ascending by start, neighbours [(a, b)]
    satisfy [a.end <= b.start], and every output range has [end > start]. *)
Theorem output_well_formed (non_silent_chunks : list (Z * Z))
    (min_silence_len context_ms pause_ms : Z) :
  well_formed non_silent_chunks -> on_timeline non_silent_chunks ->
  0 <= context_ms -> 0 <= pause_ms ->
  (let out := merge (A:=Exact.arith) non_silent_chunks min_silence_len context_ms pause_ms in
   ascending out /\ non_overlapping out /\ nondegenerate out) /\
  (within_horizon non_silent_chunks pause_ms ->
   let out := merge (A:=Binary64.arith) non_silent_chunks min_silence_len context_ms pause_ms in
   ascending out /\ non_overlapping out /\ nondegenerate out).
Proof.
  intros Hwf Hnn Hc Hp. split.
  - destruct (merge_apart _ exact_laws min_silence_len context_ms pause_ms
                non_silent_chunks (exact_all_in _)) as (H1 & _ & _).
    destruct (merge_proper _ exact_laws min_silence_len context_ms pause_ms Hc Hp
                non_silent_chunks Hwf Hnn (exact_all_in _)) as (H2 & H3).
    repeat split; assumption.
  - intros Hh.
    pose proof (padded_within_horizon context_ms pause_ms Hc Hp _ (proj1 Hwf) Hnn Hh)
      as Hdom.
    destruct (merge_apart _ binary64_laws min_silence_len context_ms pause_ms
                non_silent_chunks Hdom) as (H1 & _ & _).
    destruct (merge_proper _ binary64_laws min_silence_len context_ms pause_ms Hc Hp
                non_silent_chunks Hwf Hnn Hdom) as (H2 & H3).
    repeat split; assumption.
Qed.

Lemma output_well_formed_witness :
  let out := merge (A:=Binary64.arith) [(0, 1000); (2000, 3000); (3100, 4000)] 700 300 500 in
  ascending out /\ non_overlapping out /\ nondegenerate out.
Proof.
  apply (output_well_formed [(0, 1000); (2000, 3000); (3100, 4000)] 700 300 500);
    [solve_well_formed | solve_on_timeline | lia | lia | solve_within_horizon].
Defined.

(** C4.  More context or more pause never gives more ranges: the code fails
    this where two chunks are exactly [min_silence_len] apart.  Line 87 then
    compares a gap and a threshold that are equal as integers, but the gap is
    computed from the seconds of line 78 and rounded: with a silence of
    1500 ms and pause 600, context 350 gives [(2.25 - 1.7) * 1000 = 550.0],
    not above 550, and one range, while context 400 (the "Conservative"
    preset of gui.py) gives [(2.2 - 1.7) * 1000 = 500.00000000000023], above
    500, and two ranges.  With a silence of 700 ms and no context, pause 0
    merges and pause 50 keeps the chunks apart. *)
Lemma padding_monotone_counterexample :
  (well_formed [(0, 1100); (2600, 3600)] /\
   merge (A:=Binary64.arith) [(0, 1100); (2600, 3600)] 1500 350 600 =
     [(0, 4.2)]%float /\
   merge (A:=Binary64.arith) [(0, 1100); (2600, 3600)] 1500 400 600 =
     [(0, 1.7); (2.2, 4.2)]%float /\
   gap_exceeds (A:=Binary64.arith) 1500 350 600 2.25%float 1.7%float = false /\
   gap_exceeds (A:=Binary64.arith) 1500 400 600 2.2%float 1.7%float = true) /\
  (well_formed [(0, 1100); (1800, 2800)] /\
   length (merge (A:=Binary64.arith) [(0, 1100); (1800, 2800)] 700 0 0) = 1%nat /\
   length (merge (A:=Binary64.arith) [(0, 1100); (1800, 2800)] 700 0 50) = 2%nat).
Proof.
  split; (split; [solve_well_formed | repeat split; vm_compute; reflexivity]).
Qed.

(** The same chunks in exact arithmetic: the gap equals the threshold, the
    strict test fails, and both paddings give one range. *)
Lemma padding_at_threshold_exact :
  merge (A:=Exact.arith) [(0, 1100); (2600, 3600)] 1500 350 600 = [(0, 21 # 5)]%Q /\
  merge (A:=Exact.arith) [(0, 1100); (2600, 3600)] 1500 400 600 = [(0, 21 # 5)]%Q.
Proof. split; vm_compute; reflexivity. Qed.

(** Where the comparison of line 87 is not decided by rounding, more context
    or more pause (with [min_silence_len] fixed) never gives more ranges, for
    raw ranges that are offsets into the audio ([0 <= start < end],
    ascending, without overlap): in exact arithmetic always, and in binary64
    below the horizon when no two consecutive raw ranges are exactly
    [min_silence_len] apart. *)
Theorem padding_monotone (non_silent_chunks : list (Z * Z))
    (min_silence_len context_ms pause_ms context_ms' pause_ms' : Z) :
  well_formed non_silent_chunks -> on_timeline non_silent_chunks ->
  0 <= context_ms <= context_ms' -> 0 <= pause_ms <= pause_ms' ->
  (length (merge (A:=Exact.arith) non_silent_chunks min_silence_len context_ms' pause_ms') <=
   length (merge (A:=Exact.arith) non_silent_chunks min_silence_len context_ms pause_ms))%nat /\
  (no_tie min_silence_len non_silent_chunks ->
   within_horizon non_silent_chunks pause_ms' ->
   params_within_horizon min_silence_len context_ms' pause_ms' ->
   (length (merge (A:=Binary64.arith) non_silent_chunks min_silence_len context_ms' pause_ms') <=
    length (merge (A:=Binary64.arith) non_silent_chunks min_silence_len context_ms pause_ms))%nat).
Proof.
  intros Hwf Hnn Hc Hp.
  pose proof (exact_count_mono min_silence_len _ _ _ _ Hc Hp _ Hwf Hnn) as Hexact.
  split; [exact Hexact|].
  intros Htie Hh' (Hmsl & Hctx & Hpause).
  assert (Hh : within_horizon non_silent_chunks pause_ms).
  { unfold within_horizon in *. eapply Forall_impl; [|exact Hh']. simpl. intros; lia. }
  rewrite (binary64_count_exact min_silence_len context_ms' pause_ms')
    by (try assumption; repeat split; lia).
  rewrite (binary64_count_exact min_silence_len context_ms pause_ms)
    by (try assumption; repeat split; lia).
  exact Hexact.
Qed.

Lemma padding_monotone_witness :
  Nat.le (length (merge (A:=Binary64.arith) [(0, 1100); (2700, 3600)] 1500 400 600))
         (length (merge (A:=Binary64.arith) [(0, 1100); (2700, 3600)] 1500 350 600)).
Proof.
  apply (padding_monotone [(0, 1100); (2700, 3600)] 1500 350 600 400 600);
    [solve_well_formed | solve_on_timeline | lia | lia
     | unfold no_tie; cbn [adjacent fst snd]; split; [lia | exact I]
     | solve_within_horizon
     | unfold params_within_horizon, Binary64.horizon; lia].
Defined.

(** C5.  Two raw ranges [(0,1000)] and [(1200,2000)] with
    [min_silence_len = 700], [context_ms = 300], [pause_ms = 500]: the padded
    ranges are [(0.0, 1.5)] and [(0.9, 2.5)], the second start does not exceed
    the running end, and the output is the single range [(0.0, 2.5)].  When
    the next start does exceed the running end, the loop splits exactly when
    the test of line 87 holds, and that test is the strict comparison
    [(start - current_end) * 1000 > min_silence_len - pause_ms - context_ms],
    whatever the sign of the threshold. *)
Theorem two_range_example :
  (non_silent_ranges (A:=Binary64.arith) [(0, 1000); (1200, 2000)] 300 500 =
     [(0, 1.5); (0.9, 2.5)]%float /\
   fle (A:=Binary64.arith) 0.9%float 1.5%float = true /\
   merge (A:=Binary64.arith) [(0, 1000); (1200, 2000)] 700 300 500 = [(0, 2.5)]%float) /\
  (non_silent_ranges (A:=Exact.arith) [(0, 1000); (1200, 2000)] 300 500 =
     [(0, 3 # 2); (9 # 10, 5 # 2)]%Q /\
   fle (A:=Exact.arith) (9 # 10)%Q (3 # 2)%Q = true /\
   merge (A:=Exact.arith) [(0, 1000); (1200, 2000)] 700 300 500 = [(0, 5 # 2)]%Q) /\
  (forall (A : PyFloat) (min_silence_len context_ms pause_ms : Z)
          (st : loop_state A) (start end_ : F A),
     fle start (current_end st) = false ->
     loop_body min_silence_len context_ms pause_ms st (start, end_) =
     if gap_exceeds min_silence_len context_ms pause_ms start (current_end st)
     then {| merged := merged st ++ [(current_start st, current_end st)];
             current_start := start; current_end := end_ |}
     else {| merged := merged st; current_start := current_start st;
             current_end := end_ |}) /\
  (forall (min_silence_len context_ms pause_ms : Z) (start current_end : Q),
     gap_exceeds (A:=Exact.arith) min_silence_len context_ms pause_ms start current_end = true
     <-> (inject_Z (min_silence_len - pause_ms - context_ms)
          < (start - current_end) * inject_Z 1000)%Q).
Proof.
  split; [|split; [|split]].
  - repeat split; vm_compute; reflexivity.
  - repeat split; vm_compute; reflexivity.
  - intros A msl c p st start end_ H. unfold loop_body. rewrite H. reflexivity.
  - apply exact_gap_exceeds.
Qed.

(** C6.  The single raw range [(1000, 2000)] with [context_ms = 300] and
    [pause_ms = 500] gives exactly the one range [(0.7, 2.5)], whatever
    [min_silence_len]. *)
Theorem single_range_example (min_silence_len : Z) :
  merge (A:=Binary64.arith) [(1000, 2000)] min_silence_len 300 500 = [(0.7, 2.5)]%float /\
  merge (A:=Exact.arith) [(1000, 2000)] min_silence_len 300 500 = [(7 # 10, 5 # 2)]%Q.
Proof.
  split; vm_compute; reflexivity.
Qed.

(** C7.  Clamping at zero: the padded start of a raw range is
    [max(0, start - context_ms) / 1000] and is never negative; for the raw
    range [(100, 500)] with [context_ms = 300] it is exactly 0. *)
Theorem clamping_at_zero (chunk : Z * Z) (context_ms pause_ms : Z) :
  (fst (pad (A:=Exact.arith) context_ms pause_ms chunk) =
     truediv (Z.max 0 (fst chunk - context_ms)) 1000 /\
   fle (of_int 0) (fst (pad (A:=Exact.arith) context_ms pause_ms chunk)) = true) /\
  (fst (pad (A:=Binary64.arith) context_ms pause_ms chunk) =
     truediv (Z.max 0 (fst chunk - context_ms)) 1000 /\
   (fst chunk - context_ms < Binary64.horizon ->
    fle (of_int 0) (fst (pad (A:=Binary64.arith) context_ms pause_ms chunk)) = true)) /\
  fst (pad (A:=Exact.arith) 300 pause_ms (100, 500)) = 0%Q /\
  fst (pad (A:=Binary64.arith) 300 pause_ms (100, 500)) = 0%float.
Proof.
  destruct chunk as [start end_]. cbn [pad fst].
  split; [split; [reflexivity|] | split; [split; [reflexivity|] | split; reflexivity]].
  - apply (zero_le_seconds (fun _ => True) _ exact_laws); try exact I; [reflexivity | lia].
  - intros Hh.
    apply (zero_le_seconds _ _ binary64_laws); unfold Binary64.horizon in *;
      [reflexivity | lia | lia | lia].
Qed.

Lemma clamping_at_zero_witness :
  fle (of_int 0) (fst (pad (A:=Binary64.arith) 300 500 (1000, 2000))) = true.
Proof.
  apply (clamping_at_zero (1000, 2000) 300 500).
  unfold Binary64.horizon. cbn [fst]. lia.
Defined.

(** C8.  Empty input: when the detector reports no non-silent chunk, whatever
    the parameters, the function returns the empty list. *)
Theorem empty_input_empty_output (A : PyFloat) (AudioSegment : Type)
    (from_file : String.string -> AudioSegment)
    (detect_nonsilent : AudioSegment -> Z -> Z -> list (Z * Z))
    (audio_path : String.string)
    (min_silence_len silence_thresh context_ms pause_ms : Z) :
  detect_nonsilent (from_file audio_path) min_silence_len silence_thresh = [] ->
  detect_speech_segments (A:=A) AudioSegment from_file detect_nonsilent audio_path
    min_silence_len silence_thresh context_ms pause_ms = [] /\
  merge (A:=A) [] min_silence_len context_ms pause_ms = [].
Proof.
  intros H. unfold detect_speech_segments. rewrite H. split; reflexivity.
Qed.

Lemma empty_input_empty_output_witness :
  detect_speech_segments (A:=Binary64.arith) unit (fun _ => tt) (fun _ _ _ => [])
    String.EmptyString 700 (-35) 300 500 = [] /\
  merge (A:=Binary64.arith) [] 700 300 500 = [].
Proof.
  apply (empty_input_empty_output Binary64.arith unit (fun _ => tt) (fun _ _ _ => [])
           String.EmptyString 700 (-35) 300 500).
  reflexivity.
Defined.

(** C10.  Strict separation: for raw ranges with [start < end], ascending and
    without overlap, and non-negative context and pause, neighbours [(a, b)]
    of the output satisfy [a.end < b.start]: in exact arithmetic for every
    such input, and in binary64 for every such input on the timeline and
    below the horizon. *)
Theorem strict_separation (non_silent_chunks : list (Z * Z))
    (min_silence_len context_ms pause_ms : Z) :
  well_formed non_silent_chunks -> 0 <= context_ms -> 0 <= pause_ms ->
  strictly_separated
    (merge (A:=Exact.arith) non_silent_chunks min_silence_len context_ms pause_ms) /\
  (on_timeline non_silent_chunks -> within_horizon non_silent_chunks pause_ms ->
   strictly_separated
     (merge (A:=Binary64.arith) non_silent_chunks min_silence_len context_ms pause_ms)).
Proof.
  intros Hwf Hc Hp. split.
  - apply (merge_apart _ exact_laws min_silence_len context_ms pause_ms
             non_silent_chunks (exact_all_in _)).
  - intros Hnn Hh.
    apply (merge_apart _ binary64_laws min_silence_len context_ms pause_ms
             non_silent_chunks
             (padded_within_horizon context_ms pause_ms Hc Hp _ (proj1 Hwf) Hnn Hh)).
Qed.

Lemma strict_separation_witness :
  strictly_separated
    (merge (A:=Binary64.arith) [(0, 1000); (2000, 3000); (3100, 4000)] 700 300 500).
Proof.
  apply (strict_separation [(0, 1000); (2000, 3000); (3100, 4000)] 700 300 500);
    [solve_well_formed | lia | lia | solve_on_timeline | solve_within_horizon].
Defined.

(** * The rest of the pipeline: lemmas *)

(** ** Binary64 and exact comparisons are orders *)

Lemma SFcompare_key (x y : spec_float) :
  is_nan x = false -> is_nan y = false ->
  exists c, SFcompare x y = Some c /\
    (c = Lt <-> key_lt (order_key x) (order_key y)) /\
    (c = Eq <-> order_key x = order_key y) /\
    (c = Gt <-> key_lt (order_key y) (order_key x)).
Proof.
  intros Hx Hy.
  destruct x as [sx|sx| |sx mx ex], y as [sy|sy| |sy my ey]; try discriminate;
    cbn [SFcompare order_key]; eexists; (split; [reflexivity|]);
    try destruct sx; try destruct sy; unfold key_lt;
    try (repeat split; intros; try discriminate; try reflexivity;
         try (injection H; lia); try lia; fail).
  all: change (PosDef.Pos.compare_cont Eq mx my) with (Pos.compare mx my).
  all: rewrite (Pos2Z.inj_compare mx my).
  all: destruct (Z.compare_spec ex ey), (Z.compare_spec (Zpos mx) (Zpos my)); cbn [CompOpp];
      repeat split; intros; try discriminate; try reflexivity;
      try (injection H1; lia); try lia; try (f_equal; lia).
  all: congruence.
Qed.

Lemma ltb_key (x y : float) :
  PrimFloat.ltb x y = true <->
  is_nan (Prim2SF x) = false /\ is_nan (Prim2SF y) = false /\
  key_lt (order_key (Prim2SF x)) (order_key (Prim2SF y)).
Proof.
  rewrite FloatAxioms.ltb_spec. unfold SFltb.
  destruct (is_nan (Prim2SF x)) eqn:Ex.
  { destruct (Prim2SF x); try discriminate. cbn. split; [discriminate | intros (H & _); discriminate]. }
  destruct (is_nan (Prim2SF y)) eqn:Ey.
  { destruct (Prim2SF y); try discriminate.
    destruct (Prim2SF x); cbn; (split; [discriminate | intros (_ & H & _); discriminate]). }
  destruct (SFcompare_key _ _ Ex Ey) as (c & -> & HLt & HEq & HGt).
  destruct c; split.
  - discriminate.
  - intros (_ & _ & H). apply HLt in H. discriminate.
  - intros _. repeat split. apply HLt. reflexivity.
  - intros _. reflexivity.
  - discriminate.
  - intros (_ & _ & H). apply HLt in H. discriminate.
Qed.

Lemma leb_key (x y : float) :
  PrimFloat.leb x y = true <->
  is_nan (Prim2SF x) = false /\ is_nan (Prim2SF y) = false /\
  (key_lt (order_key (Prim2SF x)) (order_key (Prim2SF y)) \/
   order_key (Prim2SF x) = order_key (Prim2SF y)).
Proof.
  rewrite FloatAxioms.leb_spec. unfold SFleb.
  destruct (is_nan (Prim2SF x)) eqn:Ex.
  { destruct (Prim2SF x); try discriminate. cbn. split; [discriminate | intros (H & _); discriminate]. }
  destruct (is_nan (Prim2SF y)) eqn:Ey.
  { destruct (Prim2SF y); try discriminate.
    destruct (Prim2SF x); cbn; (split; [discriminate | intros (_ & H & _); discriminate]). }
  destruct (SFcompare_key _ _ Ex Ey) as (c & -> & HLt & HEq & HGt).
  destruct c; split.
  - intros _. repeat split. right. apply HEq. reflexivity.
  - reflexivity.
  - intros _. repeat split. left. apply HLt. reflexivity.
  - reflexivity.
  - discriminate.
  - intros (_ & _ & [H|H]); [apply HLt in H | apply HEq in H]; discriminate.
Qed.

Lemma key_lt_irrefl (a : Z * Z * Z) : ~ key_lt a a.
Proof. destruct a as [[a1 a2] a3]. unfold key_lt. lia. Qed.

Lemma key_lt_trans (a b c : Z * Z * Z) : key_lt a b -> key_lt b c -> key_lt a c.
Proof.
  destruct a as [[a1 a2] a3], b as [[b1 b2] b3], c as [[c1 c2] c3]. unfold key_lt. lia.
Qed.

Lemma key_total (a b : Z * Z * Z) : key_lt a b \/ a = b \/ key_lt b a.
Proof.
  destruct a as [[a1 a2] a3], b as [[b1 b2] b3]. unfold key_lt.
  destruct (Z.lt_total a1 b1) as [H|[H|H]]; [lia| |lia].
  destruct (Z.lt_total a2 b2) as [H2|[H2|H2]]; [lia| |lia].
  destruct (Z.lt_total a3 b3) as [H3|[H3|H3]]; [lia| |lia].
  right. left. congruence.
Qed.

Lemma bool_not_true (b : bool) : (b = true -> False) -> b = false.
Proof. destruct b; [intros H; exfalso; auto | reflexivity]. Qed.

Lemma binary64_order : OrderLaws Binary64.arith.
Proof.
  split; cbn [Binary64.arith F fle flt].
  - intros x. apply bool_not_true. rewrite ltb_key. intros (_ & _ & H).
    exact (key_lt_irrefl _ H).
  - intros x y z. rewrite !ltb_key. intros (Hx & Hy & H1) (_ & Hz & H2).
    repeat split; try assumption. eapply key_lt_trans; eassumption.
  - intros x y z. rewrite !ltb_key, leb_key. intros (Hx & Hy & H1) (_ & Hz & [H2|H2]).
    + repeat split; try assumption. eapply key_lt_trans; eassumption.
    + repeat split; try assumption. rewrite <- H2. exact H1.
  - intros x y z. rewrite !ltb_key, leb_key. intros (Hx & Hy & [H1|H1]) (_ & Hz & H2).
    + repeat split; try assumption. eapply key_lt_trans; eassumption.
    + repeat split; try assumption. rewrite H1. exact H2.
  - intros x y. rewrite ltb_key, leb_key. intros (Hx & Hy & H). auto.
  - intros x y. rewrite leb_key. intros (Hx & Hy & H).
    apply bool_not_true. rewrite ltb_key. intros (_ & _ & H').
    destruct H as [H|H].
    + exact (key_lt_irrefl _ (key_lt_trans _ _ _ H H')).
    + rewrite H in H'. exact (key_lt_irrefl _ H').
  - intros x y. rewrite !leb_key. intros (Hx & _) (Hy & _) Hlt.
    repeat split; try assumption.
    destruct (key_total (order_key (Prim2SF x)) (order_key (Prim2SF y))) as [H|[H|H]].
    + assert (E : PrimFloat.ltb x y = true) by (apply ltb_key; auto). congruence.
    + right. symmetry. exact H.
    + left. exact H.
  - intros x y. rewrite ltb_key, !leb_key. intros (Hx & Hy & _). auto.
Qed.

Lemma exact_flt (x y : Q) : flt (A:=Exact.arith) x y = true <-> (x < y)%Q.
Proof.
  cbn [Exact.arith flt]. rewrite negb_true_iff.
  split.
  - intros H. apply Qnot_le_lt. intros Hle. apply Qle_bool_iff in Hle. congruence.
  - intros H. apply bool_not_true. intros Hle. apply Qle_bool_iff in Hle.
    exact (Qlt_not_le _ _ H Hle).
Qed.

Lemma exact_fle (x y : Q) : fle (A:=Exact.arith) x y = true <-> (x <= y)%Q.
Proof. apply Qle_bool_iff. Qed.

Lemma exact_order : OrderLaws Exact.arith.
Proof.
  split.
  - intros x. apply bool_not_true. rewrite exact_flt. apply Qlt_irrefl.
  - intros x y z. rewrite !exact_flt. apply Qlt_trans.
  - intros x y z. rewrite !exact_flt, exact_fle. apply Qlt_le_trans.
  - intros x y z. rewrite !exact_flt, exact_fle. apply Qle_lt_trans.
  - intros x y. rewrite exact_flt, exact_fle. apply Qlt_le_weak.
  - intros x y. rewrite exact_fle. intros H. apply bool_not_true.
    rewrite exact_flt. intros H'. exact (Qlt_not_le _ _ H' H).
  - intros x y _ _ H. apply exact_fle. apply Qnot_lt_le. intros H'.
    apply exact_flt in H'. congruence.
  - intros x y _. rewrite !exact_fle. split; apply Qle_refl.
Qed.


(** ** The bounding loop *)

Section Bounding.
Context {A : PyFloat}.
Hypothesis ord : OrderLaws A.
Variable video_duration : F A.

Lemma fold_left_bound_body (l acc : list (range A)) :
  fold_left (bound_body video_duration) l acc = acc ++ bound_from video_duration l.
Proof.
  revert acc. induction l as [|[start end_] l IH]; intros acc; simpl.
  - rewrite app_nil_r. reflexivity.
  - unfold clamp_end.
    destruct (flt start video_duration &&
              flt start (if flt video_duration end_ then video_duration else end_)).
    + rewrite IH, <- app_assoc. reflexivity.
    + apply IH.
Qed.

Lemma bounded_ranges_from (l : list (range A)) :
  bounded_ranges video_duration l = bound_from video_duration l.
Proof. unfold bounded_ranges. rewrite fold_left_bound_body. reflexivity. Qed.

Lemma clamp_end_le (start end_ : F A) :
  flt start video_duration = true ->
  flt start (clamp_end video_duration end_) = true ->
  fle (clamp_end video_duration end_) video_duration = true.
Proof.
  unfold clamp_end. intros Hs He.
  destruct (flt video_duration end_) eqn:E.
  - apply (ord_lt_refl _ ord _ _ Hs).
  - apply (ord_not_lt_le _ ord); [| |exact E].
    + apply (ord_lt_refl _ ord _ _ Hs).
    + apply (ord_lt_refl _ ord _ _ He).
Qed.

Lemma bound_from_valid (l : list (range A)) :
  Forall (in_video video_duration) (bound_from video_duration l).
Proof.
  induction l as [|[start end_] l IH]; simpl; [constructor|].
  destruct (flt start video_duration) eqn:Hs; [|exact IH].
  destruct (flt start (clamp_end video_duration end_)) eqn:He; [|exact IH].
  constructor; [|exact IH].
  unfold in_video; simpl. repeat split; try assumption.
  eapply clamp_end_le; eassumption.
Qed.

Lemma bound_from_id (l : list (range A)) :
  Forall (in_video video_duration) l -> bound_from video_duration l = l.
Proof.
  induction l as [|[start end_] l IH]; intros H; simpl; [reflexivity|].
  inversion H as [|r l' (H1 & H2 & H3) Hl]; subst. simpl in H1, H2, H3.
  unfold clamp_end. rewrite (ord_le_not_lt _ ord _ _ H3), H2, H1. simpl.
  rewrite IH by assumption. reflexivity.
Qed.

Lemma bound_from_length (l : list (range A)) :
  (length (bound_from video_duration l) <= length l)%nat.
Proof.
  induction l as [|[start end_] l IH]; simpl; [lia|].
  destruct (_ && _); simpl; lia.
Qed.

(** Every later range starts after the end of the first one. *)
Lemma later_starts (r : range A) (l : list (range A)) :
  nondegenerate (r :: l) -> strictly_separated (r :: l) ->
  Forall (fun r' => flt (snd r) (fst r') = true) l.
Proof.
  revert r. induction l as [|b l IH]; intros r Hn Hs; constructor.
  - destruct Hs as [H _]. exact H.
  - inversion Hn as [|r0 l0 Hr Hn']; subst.
    destruct Hs as [Hrb Hs].
    specialize (IH b Hn' Hs).
    inversion Hn' as [|r0 l0 Hb _]; subst.
    eapply Forall_impl; [|exact IH]. simpl. intros r' H.
    eapply (ord_lt_trans _ ord); [exact Hrb|].
    eapply (ord_lt_trans _ ord); [exact Hb | exact H].
Qed.

Lemma bound_from_beyond (x : F A) (l : list (range A)) :
  flt x video_duration = false ->
  Forall (fun r => flt x (fst r) = true) l ->
  bound_from video_duration l = [].
Proof.
  intros Hx H. induction l as [|[start end_] l IH]; simpl; [reflexivity|].
  inversion H as [|r l' Hr Hl]; subst. simpl in Hr.
  assert (E : flt start video_duration = false).
  { apply bool_not_true. intros E.
    rewrite (ord_lt_trans _ ord _ _ _ Hr E) in Hx. discriminate. }
  rewrite E. simpl. apply IH. exact Hl.
Qed.

Lemma bound_from_past (x : F A) (l : list (range A)) :
  flt video_duration x = true ->
  Forall (fun r => flt x (fst r) = true) l ->
  bound_from video_duration l = [].
Proof.
  intros Hx H. induction l as [|[start end_] l IH]; simpl; [reflexivity|].
  inversion H as [|r l' Hr Hl]; subst. simpl in Hr.
  assert (E : flt start video_duration = false).
  { apply bool_not_true. intros E.
    pose proof (ord_lt_trans _ ord _ _ _ (ord_lt_trans _ ord _ _ _ Hx Hr) E) as C.
    rewrite (ord_irrefl _ ord) in C. discriminate. }
  rewrite E. simpl. apply IH. exact Hl.
Qed.

(** The ranges kept are the ones that start before the end of the video;
    they come first, and only the last of them can run past it. *)
Lemma bound_from_kept (l : list (range A)) :
  nondegenerate l -> strictly_separated l ->
  exists k : nat, kept_prefix video_duration l (bound_from video_duration l) k.
Proof.
  induction l as [|[start end_] l IH]; intros Hn Hs.
  - exists 0%nat. unfold kept_prefix. cbn [firstn skipn removelast map length bound_from].
    split; [lia|]. split; [constructor|]. split; [constructor|].
    split; [constructor | reflexivity].
  - pose proof (later_starts _ _ Hn Hs) as Hlater. simpl in Hlater.
    inversion Hn as [|r0 l0 Hr Hn']; subst. simpl in Hr.
    pose proof (adjacent_tail _ _ _ Hs) as Hs'.
    assert (Hafter : forall x, flt x end_ = true ->
              Forall (fun r => flt x (fst r) = true) l).
    { intros x Hx. eapply Forall_impl; [|exact Hlater]. simpl. intros r H.
      eapply (ord_lt_trans _ ord); eassumption. }
    assert (Hdrop : forall x, flt x video_duration = false ->
              Forall (fun r => flt x (fst r) = true) l ->
              Forall (fun r => flt (fst r) video_duration = false) l).
    { intros x Hx Hl. eapply Forall_impl; [|exact Hl]. simpl. intros r H.
      apply bool_not_true. intros E.
      rewrite (ord_lt_trans _ ord _ _ _ H E) in Hx. discriminate. }
    cbn [bound_from]. unfold clamp_end at 1 2.
    destruct (flt start video_duration) eqn:Hst; cbn [andb].
    + destruct (flt video_duration end_) eqn:Hend.
      * (* the range runs past the end of the video: it is the last one kept *)
        rewrite Hst. rewrite (bound_from_past end_ l Hend Hlater).
        exists 1%nat. unfold kept_prefix. cbn [firstn skipn removelast map length fst snd].
        split; [lia|]. split; [constructor; [exact Hst | constructor]|].
        split; [|split; [constructor|]].
        -- apply (Hdrop video_duration (ord_irrefl _ ord video_duration)).
           apply (Hafter video_duration Hend).
        -- unfold clamp_end. rewrite Hend. reflexivity.
      * rewrite Hr.
        destruct (IH Hn' Hs') as (k & Hk & Hin & Hout & Hlast & E).
        exists (S k). unfold kept_prefix. cbn [firstn skipn map length fst snd].
        split; [lia|]. split; [constructor; assumption|].
        split; [exact Hout|]. split.
        -- cbn [removelast]. destruct (firstn k l) as [|r fl] eqn:Ef; [constructor|].
           constructor; assumption.
        -- rewrite E. unfold clamp_end at 2. rewrite Hend. reflexivity.
    + rewrite (bound_from_beyond start l Hst (Hafter start Hr)).
      exists 0%nat. unfold kept_prefix. cbn [firstn skipn removelast map length].
      split; [lia|]. split; [constructor|]. split; [|split; [constructor | reflexivity]].
      constructor; [exact Hst|].
      apply (Hdrop start Hst (Hafter start Hr)).
Qed.

(** The first range kept starts where the first range of the input does. *)
Lemma bound_from_head (l : list (range A)) (b : range A) (out : list (range A)) :
  nondegenerate l -> strictly_separated l ->
  bound_from video_duration l = b :: out ->
  exists r l', l = r :: l' /\ fst b = fst r.
Proof.
  intros Hn Hs E. destruct l as [|[start end_] l]; [discriminate|].
  exists (start, end_), l. split; [reflexivity|].
  pose proof (later_starts _ _ Hn Hs) as Hlater. simpl in Hlater.
  simpl in E. destruct (flt start video_duration) eqn:Hst; simpl in E.
  - destruct (flt start (clamp_end video_duration end_)) eqn:Hc.
    + inversion E. reflexivity.
    + exfalso. inversion Hn as [|r0 l0 Hr Hn']; subst. simpl in Hr.
      unfold clamp_end in *. destruct (flt video_duration end_) eqn:Hend.
      * rewrite (bound_from_past end_ l Hend Hlater) in E. discriminate.
      * congruence.
  - exfalso.
    assert (Hl : Forall (fun r => flt start (fst r) = true) l).
    { inversion Hn as [|r0 l0 Hr Hn']; subst. simpl in Hr.
      eapply Forall_impl; [|exact Hlater]. simpl. intros r H.
      eapply (ord_lt_trans _ ord); eassumption. }
    rewrite (bound_from_beyond start l Hst Hl) in E. discriminate.
Qed.

Lemma bound_from_separated (l : list (range A)) :
  nondegenerate l -> strictly_separated l ->
  strictly_separated (bound_from video_duration l).
Proof.
  induction l as [|[start end_] l IH]; intros Hn Hs; [exact I|].
  inversion Hn as [|r0 l0 Hr Hn']; subst.
  pose proof (adjacent_tail _ _ _ Hs) as Hs'.
  specialize (IH Hn' Hs').
  simpl. destruct (_ && _) eqn:Hkeep; [|exact IH].
  destruct (bound_from video_duration l) as [|b out] eqn:E; [exact I|].
  split; [|exact IH].
  destruct (bound_from_head l b out Hn' Hs' E) as (r & l' & -> & Hb).
  destruct Hs as [Hsep _]. simpl in Hsep. simpl. rewrite Hb.
  apply andb_prop in Hkeep. destruct Hkeep as [Hst _].
  unfold clamp_end. destruct (flt video_duration end_) eqn:Hend; [|exact Hsep].
  exfalso.
  (* video_duration < end_ < fst r, and [r] is kept: fst r < video_duration *)
  pose proof (bound_from_valid (r :: l')) as Hv. rewrite E in Hv.
  inversion Hv as [|b0 o0 (_ & Hbd & _) _]; subst. rewrite Hb in Hbd.
  pose proof (ord_lt_trans _ ord _ _ _ (ord_lt_trans _ ord _ _ _ Hend Hsep) Hbd) as C.
  rewrite (ord_irrefl _ ord) in C. discriminate.
Qed.

Lemma in_video_nondegenerate (l : list (range A)) :
  Forall (in_video video_duration) l -> nondegenerate l.
Proof. intros H. eapply Forall_impl; [|exact H]. intros r (H1 & _). exact H1. Qed.

Lemma separated_ascending (l : list (range A)) :
  nondegenerate l -> strictly_separated l -> ascending l /\ non_overlapping l.
Proof.
  intros Hn Hs. unfold nondegenerate in Hn. rewrite Forall_forall in Hn. split.
  - eapply adjacent_impl_in; [|exact Hs]. simpl. intros a b Ha _ H.
    apply (ord_lt_le _ ord). eapply (ord_lt_trans _ ord); [apply Hn, Ha | exact H].
  - eapply adjacent_impl_in; [|exact Hs]. simpl. intros a b _ _ H.
    apply (ord_lt_le _ ord). exact H.
Qed.

(** A range of the input that starts inside the video is kept, clamped. *)
Lemma bound_from_in (l : list (range A)) (start end_ : F A) :
  In (start, end_) l -> flt start end_ = true -> flt start video_duration = true ->
  In (start, clamp_end video_duration end_) (bound_from video_duration l).
Proof.
  intros Hin He Hs. induction l as [|[s e] l IH]; [destruct Hin|].
  simpl. destruct Hin as [E|Hin].
  - inversion E; subst. rewrite Hs. simpl.
    assert (Hc : flt start (clamp_end video_duration end_) = true).
    { unfold clamp_end. destruct (flt video_duration end_); assumption. }
    rewrite Hc. left. reflexivity.
  - destruct (_ && _); [right|]; apply IH; exact Hin.
Qed.

(** The part of a covered range that lies inside the video is still covered. *)
Lemma bound_from_covered (l : list (range A)) (start end_ : F A) :
  nondegenerate l ->
  flt start end_ = true -> flt start video_duration = true ->
  covered (start, end_) l ->
  covered (start, clamp_end video_duration end_) (bound_from video_duration l).
Proof.
  intros Hn He Hs ([os oe] & Hin & Hw1 & Hw2). simpl in Hw1, Hw2.
  unfold nondegenerate in Hn. rewrite Forall_forall in Hn.
  pose proof (Hn _ Hin) as Ho. simpl in Ho.
  assert (Hos : flt os video_duration = true)
    by (eapply (ord_le_lt_trans _ ord); eassumption).
  exists (os, clamp_end video_duration oe). split.
  - apply bound_from_in; assumption.
  - split; simpl; [exact Hw1|].
    unfold clamp_end.
    destruct (flt video_duration oe) eqn:Hoe.
    + destruct (flt video_duration end_) eqn:Hend.
      * apply (ord_lt_refl _ ord _ _ Hs).
      * apply (ord_not_lt_le _ ord); [| |exact Hend].
        -- apply (ord_lt_refl _ ord _ _ Hs).
        -- apply (ord_lt_refl _ ord _ _ He).
    + destruct (flt video_duration end_) eqn:Hend; [|exact Hw2].
      rewrite (ord_lt_le_trans _ ord _ _ _ Hend Hw2) in Hoe. discriminate.
Qed.
End Bounding.

(** ** The merge step: counts, end points and runs of chunks *)

Section MergeFromFacts.
Context {A : PyFloat}.
Variables min_silence_len context_ms pause_ms : Z.

Lemma merge_from_length (rest : list (range A)) :
  forall cs ce,
  (1 <= length (merge_from min_silence_len context_ms pause_ms cs ce rest)
     <= S (length rest))%nat.
Proof.
  induction rest as [|[start end_] rest IH]; intros cs ce; simpl.
  - lia.
  - destruct (fle start ce).
    + specialize (IH cs (pymax ce end_)). lia.
    + destruct (gap_exceeds _ _ _ start ce); simpl.
      * specialize (IH start end_). lia.
      * specialize (IH cs end_). lia.
Qed.

Lemma merge_from_first (rest : list (range A)) :
  forall cs ce, exists ce' tl,
    merge_from min_silence_len context_ms pause_ms cs ce rest = (cs, ce') :: tl.
Proof.
  induction rest as [|[start end_] rest IH]; intros cs ce; simpl.
  - eauto.
  - destruct (fle start ce); [apply IH|].
    destruct (gap_exceeds _ _ _ start ce); [eauto | apply IH].
Qed.

Lemma pymax_cases (a b : F A) : pymax a b = a \/ pymax a b = b.
Proof. unfold pymax. destruct (flt a b); auto. Qed.

Lemma merge_from_endpoints (rest : list (range A)) :
  forall cs ce,
  Forall (fun o => In (fst o) (cs :: map fst rest) /\ In (snd o) (ce :: map snd rest))
         (merge_from min_silence_len context_ms pause_ms cs ce rest).
Proof.
  induction rest as [|[start end_] rest IH]; intros cs ce; simpl.
  - constructor; [simpl; auto | constructor].
  - destruct (fle start ce).
    + specialize (IH cs (pymax ce end_)).
      eapply Forall_impl; [|exact IH]. simpl. intros o [H1 H2]. split.
      * destruct H1; auto.
      * destruct H2 as [H2|H2]; [|auto].
        destruct (pymax_cases ce end_) as [E|E]; rewrite E in H2; auto.
    + destruct (gap_exceeds _ _ _ start ce).
      * constructor; [simpl; auto|].
        specialize (IH start end_).
        eapply Forall_impl; [|exact IH]. simpl. intros o [H1 H2]. split.
        -- destruct H1; auto.
        -- destruct H2; auto.
      * specialize (IH cs end_).
        eapply Forall_impl; [|exact IH]. simpl. intros o [H1 H2]. split.
        -- destruct H1; auto.
        -- destruct H2; auto.
Qed.

Lemma merge_endpoints (chunks : list (Z * Z)) :
  let padded := non_silent_ranges (A:=A) chunks context_ms pause_ms in
  Forall (fun o => In (fst o) (map fst padded) /\ In (snd o) (map snd padded))
         (merge chunks min_silence_len context_ms pause_ms).
Proof.
  unfold merge. destruct (non_silent_ranges chunks context_ms pause_ms) as [|[s0 e0] rest].
  - constructor.
  - replace (merged_ranges _ _ _ _)
      with (merge_from min_silence_len context_ms pause_ms s0 e0 rest)
      by (symmetry; apply merged_ranges_cons).
    apply merge_from_endpoints.
Qed.

Lemma merge_first (chunk : Z * Z) (chunks : list (Z * Z)) :
  exists end_ tl,
    merge (A:=A) (chunk :: chunks) min_silence_len context_ms pause_ms =
    (fst (pad context_ms pause_ms chunk), end_) :: tl.
Proof.
  unfold merge, non_silent_ranges. cbn [map].
  destruct (pad context_ms pause_ms chunk) as [start0 end0].
  replace (merged_ranges _ _ _ _)
    with (merge_from min_silence_len context_ms pause_ms start0 end0
            (map (pad context_ms pause_ms) chunks))
    by (symmetry; apply merged_ranges_cons).
  apply merge_from_first.
Qed.
End MergeFromFacts.

Lemma snd_last_default {X Y : Type} (l : list (X * Y)) (d1 d2 : X * Y) :
  snd d1 = snd d2 -> snd (last l d1) = snd (last l d2).
Proof.
  intros H. induction l as [|a l IH]; [exact H|].
  destruct l; [reflexivity | exact IH].
Qed.

Lemma last_cons_default {X : Type} (a : X) (l : list X) (d : X) :
  last (a :: l) d = last l a.
Proof.
  revert a d. induction l as [|b l IH]; intros a d; [reflexivity|].
  change (last (a :: b :: l) d) with (last (b :: l) d).
  rewrite (IH b d), (IH b a). reflexivity.
Qed.

Section Groups.
Variable g : Z -> Z -> bool.

Lemma merge_ms_groups (l : list (Z * Z)) :
  forall cs ce,
  Forall (fun r => ce <= snd r) l ->
  adjacent (fun a b => snd a <= snd b) l ->
  exists first groups,
    l = first ++ concat groups /\
    Forall (fun group => group <> []) groups /\
    merge_ms g cs ce l = (cs, snd (last first (cs, ce))) :: map span_ms groups.
Proof.
  induction l as [|[start end_] l IH]; intros cs ce Hce Hends.
  - exists [], []. repeat split. constructor.
  - inversion Hce as [|r0 l0 Hce0 Hce']; subst. simpl in Hce0.
    pose proof (adjacent_le_Forall snd _ _ Hends) as Hupto. simpl in Hupto.
    pose proof (adjacent_tail _ _ _ Hends) as Hends'.
    assert (Hjoin : exists first groups,
              (start, end_) :: l = first ++ concat groups /\
              Forall (fun group => group <> []) groups /\
              merge_ms g cs end_ l = (cs, snd (last first (cs, ce))) :: map span_ms groups).
    { destruct (IH cs end_ Hupto Hends') as (first & groups & El & Hne & Em).
      exists ((start, end_) :: first), groups. repeat split.
      - simpl. rewrite <- El. reflexivity.
      - exact Hne.
      - rewrite Em, last_cons_default.
        rewrite (snd_last_default first (cs, end_) (start, end_)) by reflexivity.
        reflexivity. }
    simpl. destruct (start <=? ce).
    + rewrite Z.max_r by lia. exact Hjoin.
    + destruct (g start ce); [|exact Hjoin].
      destruct (IH start end_ Hupto Hends') as (first & groups & El & Hne & Em).
      exists [], (((start, end_) :: first) :: groups). repeat split.
      * simpl. rewrite <- El. reflexivity.
      * constructor; [discriminate | exact Hne].
      * rewrite Em. simpl map. unfold span_ms at 2.
        rewrite last_cons_default. reflexivity.
Qed.

Lemma merge_ms_all_groups (l : list (Z * Z)) :
  adjacent (fun a b => snd a <= snd b) l ->
  exists groups,
    concat groups = l /\
    Forall (fun group => group <> []) groups /\
    merge_ms_all g l = map span_ms groups.
Proof.
  destruct l as [|[start0 end0] rest]; intros Hends.
  - exists []. repeat split. constructor.
  - destruct (merge_ms_groups rest start0 end0
                (adjacent_le_Forall snd _ _ Hends) (adjacent_tail _ _ _ Hends))
      as (first & groups & El & Hne & Em).
    exists (((start0, end0) :: first) :: groups). repeat split.
    + simpl. rewrite <- El. reflexivity.
    + constructor; [discriminate | exact Hne].
    + simpl. rewrite Em. unfold span_ms at 2. rewrite last_cons_default. reflexivity.
Qed.
End Groups.

Lemma map_concat_groups {X Y : Type} (f : X -> Y) (groups' : list (list Y)) :
  forall l, map f l = concat groups' ->
  exists groups, concat groups = l /\ map (map f) groups = groups'.
Proof.
  induction groups' as [|g' groups' IH]; intros l E; simpl in E.
  - apply map_eq_nil in E. subst. exists []. split; reflexivity.
  - apply map_eq_app in E. destruct E as (l1 & l2 & -> & E1 & E2).
    destruct (IH l2 E2) as (groups & <- & Eg).
    exists (l1 :: groups). simpl. rewrite E1, Eg. split; reflexivity.
Qed.

Lemma last_map_nonempty {X Y : Type} (f : X -> Y) (l : list X) (d : X) (d' : Y) :
  l <> [] -> last (map f l) d' = f (last l d).
Proof.
  induction l as [|a l IH]; intros Hne; [congruence|].
  destruct l as [|b l]; [reflexivity|].
  change (last (map f (a :: b :: l)) d') with (last (map f (b :: l)) d').
  change (last (a :: b :: l) d) with (last (b :: l) d).
  apply IH. discriminate.
Qed.

Lemma span_seconds {A : PyFloat} (context_ms pause_ms : Z) (group : list (Z * Z)) :
  group <> [] ->
  seconds (A:=A) (span_ms (map (pad_ms context_ms pause_ms) group)) =
  span context_ms pause_ms group.
Proof.
  intros Hne. unfold span, span_ms, seconds. cbn [fst snd].
  rewrite !pad_seconds. unfold seconds. cbn [fst snd].
  rewrite (last_map_nonempty (pad_ms context_ms pause_ms) group (0, 0) (0, 0) Hne).
  destruct group as [|a group]; [congruence|]. reflexivity.
Qed.

Section GroupTransfer.
Context {A : PyFloat}.
Variable dom : Z -> Prop.
Hypothesis laws : SecondsLaws A dom.
Variables min_silence_len context_ms pause_ms : Z.

Lemma merge_grouped (chunks : list (Z * Z)) :
  well_formed chunks ->
  all_in dom (map (pad_ms context_ms pause_ms) chunks) ->
  grouped context_ms pause_ms chunks
    (merge (A:=A) chunks min_silence_len context_ms pause_ms).
Proof.
  intros (Hok & _ & Hadj) Hdom.
  rewrite (merge_seconds _ _ _ dom laws chunks Hdom).
  destruct (merge_ms_all_groups (gap_test (A:=A) min_silence_len context_ms pause_ms) _
              (padded_ends_sorted context_ms pause_ms _ Hok Hadj))
    as (groups' & Ec & Hne & Em).
  symmetry in Ec. apply map_concat_groups in Ec.
  destruct Ec as (groups & Ec & Eg). subst groups'.
  exists groups. split; [exact Ec|].
  assert (Hne' : Forall (fun group => group <> []) groups).
  { rewrite Forall_map in Hne. eapply Forall_impl; [|exact Hne].
    simpl. intros group H E. apply H. rewrite E. reflexivity. }
  split; [exact Hne'|].
  rewrite Em, !map_map. apply map_ext_in.
  intros group Hin. apply span_seconds.
  rewrite Forall_forall in Hne'. auto.
Qed.
End GroupTransfer.

(** ** The merge step cuts at the long silences *)

Lemma runs_from_concat (limit : Z) (rest : list (Z * Z)) :
  forall run prev_end, concat (runs_from limit run prev_end rest) = run ++ rest.
Proof.
  induction rest as [|[start end_] rest IH]; intros run prev_end; simpl.
  - rewrite !app_nil_r. reflexivity.
  - destruct (limit <? start - prev_end); simpl; rewrite IH.
    + reflexivity.
    + rewrite <- app_assoc. reflexivity.
Qed.

Lemma runs_from_nonempty (limit : Z) (rest : list (Z * Z)) :
  forall run prev_end, run <> [] ->
  Forall (fun group => group <> []) (runs_from limit run prev_end rest).
Proof.
  induction rest as [|[start end_] rest IH]; intros run prev_end Hne; simpl.
  - constructor; [exact Hne | constructor].
  - destruct (limit <? start - prev_end).
    + constructor; [exact Hne | apply IH; discriminate].
    + apply IH. destruct run; discriminate.
Qed.

Lemma runs_concat (limit : Z) (chunks : list (Z * Z)) :
  concat (runs limit chunks) = chunks /\
  Forall (fun group => group <> []) (runs limit chunks).
Proof.
  destruct chunks as [|[start end_] rest]; simpl.
  - split; [reflexivity | constructor].
  - split; [apply runs_from_concat | apply runs_from_nonempty; discriminate].
Qed.

Section ChunkRuns.
Variables min_silence_len context_ms pause_ms : Z.
Hypothesis context_nonneg : 0 <= context_ms.
Hypothesis pause_nonneg : 0 <= pause_ms.

Lemma merge_ms_runs (rest : list (Z * Z)) :
  forall (run : list (Z * Z)) (prev : Z * Z),
  run <> [] -> last run (0, 0) = prev -> 0 <= snd prev ->
  Forall chunk_ok rest ->
  adjacent (fun a b => snd a <= fst b) (prev :: rest) ->
  merge_ms (gap_test (A:=Exact.arith) min_silence_len context_ms pause_ms)
    (fst (pad_ms context_ms pause_ms (hd (0, 0) run))) (snd prev + pause_ms)
    (map (pad_ms context_ms pause_ms) rest) =
  map (fun group => span_ms (map (pad_ms context_ms pause_ms) group))
      (runs_from (Z.max min_silence_len (pause_ms + context_ms)) run (snd prev) rest).
Proof.
  induction rest as [|[start end_] rest IH]; intros run prev Hne Hlast Hprev Hok Hadj.
  - cbn [map merge_ms runs_from]. unfold span_ms.
    rewrite (last_map_nonempty (pad_ms context_ms pause_ms) run (0, 0) (0, 0) Hne).
    rewrite Hlast.
    replace (hd (0, 0) (map (pad_ms context_ms pause_ms) run))
      with (pad_ms context_ms pause_ms (hd (0, 0) run))
      by (destruct run; [congruence | reflexivity]).
    destruct prev; reflexivity.
  - apply Forall_cons_iff in Hok. destruct Hok as [Hch Hok'].
    unfold chunk_ok in Hch. simpl in Hch.
    apply adjacent_cons in Hadj. destruct Hadj as [Hpe Hadj]. simpl in Hpe.
    cbn [map pad_ms merge_ms runs_from]. rewrite exact_gap_test.
    assert (Hjoin :
      merge_ms (gap_test (A:=Exact.arith) min_silence_len context_ms pause_ms)
        (fst (pad_ms context_ms pause_ms (hd (0, 0) run))) (end_ + pause_ms)
        (map (pad_ms context_ms pause_ms) rest) =
      map (fun group => span_ms (map (pad_ms context_ms pause_ms) group))
        (runs_from (Z.max min_silence_len (pause_ms + context_ms))
           (run ++ [(start, end_)]) end_ rest)).
    { replace (hd (0, 0) run) with (hd (0, 0) (run ++ [(start, end_)]))
        by (destruct run; [congruence | reflexivity]).
      apply (IH (run ++ [(start, end_)]) (start, end_)); try assumption.
      - destruct run; discriminate.
      - apply last_last.
      - simpl. lia. }
    destruct (Z.leb_spec (Z.max 0 (start - context_ms)) (snd prev + pause_ms)) as [Hov|Hgt].
    + rewrite Z.max_r by lia.
      replace (_ <? start - snd prev) with false by (symmetry; apply Z.ltb_ge; lia).
      exact Hjoin.
    + destruct (Z.ltb_spec (min_silence_len - pause_ms - context_ms)
                  (Z.max 0 (start - context_ms) - (snd prev + pause_ms))) as [Hsplit|Hbridge].
      * replace (_ <? start - snd prev) with true by (symmetry; apply Z.ltb_lt; lia).
        cbn [map]. f_equal.
        -- unfold span_ms.
           rewrite (last_map_nonempty (pad_ms context_ms pause_ms) run (0, 0) (0, 0) Hne).
           rewrite Hlast.
           replace (hd (0, 0) (map (pad_ms context_ms pause_ms) run))
             with (pad_ms context_ms pause_ms (hd (0, 0) run))
             by (destruct run; [congruence | reflexivity]).
           destruct prev; reflexivity.
        -- apply (IH [(start, end_)] (start, end_)); try assumption.
           ++ discriminate.
           ++ reflexivity.
           ++ simpl. lia.
      * replace (_ <? start - snd prev) with false by (symmetry; apply Z.ltb_ge; lia).
        exact Hjoin.
Qed.

Lemma merge_ms_all_runs (chunks : list (Z * Z)) :
  well_formed chunks -> on_timeline chunks ->
  merge_ms_all (gap_test (A:=Exact.arith) min_silence_len context_ms pause_ms)
    (map (pad_ms context_ms pause_ms) chunks) =
  map (fun group => span_ms (map (pad_ms context_ms pause_ms) group))
      (runs (Z.max min_silence_len (pause_ms + context_ms)) chunks).
Proof.
  intros (Hok & _ & Hadj) Hnn.
  destruct chunks as [|[start0 end0] rest]; [reflexivity|].
  inversion Hok as [|ch l Hch Hok']; subst. unfold chunk_ok in Hch. simpl in Hch.
  inversion Hnn as [|ch l Hs0 _]; subst. simpl in Hs0.
  cbn [map pad_ms merge_ms_all runs].
  apply (merge_ms_runs rest [(start0, end0)] (start0, end0)); try assumption.
  - discriminate.
  - reflexivity.
  - simpl. lia.
Qed.

Lemma spans_seconds {A : PyFloat} (groups : list (list (Z * Z))) :
  Forall (fun group => group <> []) groups ->
  map seconds (map (fun group => span_ms (map (pad_ms context_ms pause_ms) group)) groups) =
  map (span (A:=A) context_ms pause_ms) groups.
Proof.
  intros Hne. rewrite map_map. apply map_ext_in. intros group Hin.
  apply span_seconds. rewrite Forall_forall in Hne. auto.
Qed.
End ChunkRuns.

(** ** The merge step and the silence length *)

Lemma merge_ms_ext (P : Z -> Prop) (g1 g2 : Z -> Z -> bool) :
  (forall s ce, P s -> P ce -> ce < s -> g1 s ce = g2 s ce) ->
  forall l cs ce, P cs -> P ce -> all_in P l ->
  merge_ms g1 cs ce l = merge_ms g2 cs ce l.
Proof.
  intros Hg. induction l as [|[start end_] l IH]; intros cs ce Hcs Hce Hl.
  - reflexivity.
  - inversion Hl as [|r l' [Hs He] Hl']; subst. simpl in Hs, He.
    simpl. destruct (Z.leb_spec start ce) as [Hle|Hgt].
    + apply IH; try assumption.
      destruct (Z.max_spec ce end_) as [[_ ->]|[_ ->]]; assumption.
    + rewrite (Hg start ce Hs Hce Hgt).
      destruct (g2 start ce); [f_equal|]; apply IH; assumption.
Qed.

Lemma merge_ms_all_ext (P : Z -> Prop) (g1 g2 : Z -> Z -> bool) (l : list (Z * Z)) :
  (forall s ce, P s -> P ce -> ce < s -> g1 s ce = g2 s ce) ->
  all_in P l -> merge_ms_all g1 l = merge_ms_all g2 l.
Proof.
  intros Hg Hl. destruct l as [|[start0 end0] rest]; [reflexivity|].
  inversion Hl as [|r l' [Hs He] Hl']; subst.
  apply (merge_ms_ext P); assumption.
Qed.

Lemma exact_gap_always (min_silence_len context_ms pause_ms start current_end : Z) :
  min_silence_len <= pause_ms + context_ms -> current_end < start ->
  gap_test (A:=Exact.arith) min_silence_len context_ms pause_ms start current_end = true.
Proof.
  intros Hthr Hgt. rewrite exact_gap_test. apply Z.ltb_lt. lia.
Qed.

Lemma binary64_gap_always (min_silence_len context_ms pause_ms start current_end : Z) :
  min_silence_len <= pause_ms + context_ms ->
  - 2 ^ 52 < min_silence_len - pause_ms - context_ms ->
  0 <= current_end -> current_end < start -> start < Binary64.horizon ->
  gap_test (A:=Binary64.arith) min_silence_len context_ms pause_ms start current_end = true.
Proof.
  intros Hthr Hlow Hce Hgt Hs.
  assert (0 < 2 ^ 52) by reflexivity.
  rewrite binary64_gap_test; try assumption; try lia.
Qed.

Lemma exact_merge_threshold (chunks : list (Z * Z))
    (min_silence_len min_silence_len' context_ms pause_ms : Z) :
  min_silence_len <= pause_ms + context_ms ->
  min_silence_len' <= pause_ms + context_ms ->
  merge (A:=Exact.arith) chunks min_silence_len context_ms pause_ms =
  merge (A:=Exact.arith) chunks min_silence_len' context_ms pause_ms.
Proof.
  intros H1 H2.
  rewrite !(merge_seconds _ _ _ _ exact_laws) by apply exact_all_in.
  f_equal. apply (merge_ms_all_ext (fun _ => True)); [|apply exact_all_in].
  intros s ce _ _ Hgt. rewrite !exact_gap_always by assumption. reflexivity.
Qed.

Lemma binary64_merge_threshold (chunks : list (Z * Z))
    (min_silence_len min_silence_len' context_ms pause_ms : Z) :
  min_silence_len <= pause_ms + context_ms ->
  min_silence_len' <= pause_ms + context_ms ->
  - 2 ^ 52 < min_silence_len - pause_ms - context_ms ->
  - 2 ^ 52 < min_silence_len' - pause_ms - context_ms ->
  all_in (fun n => 0 <= n < Binary64.horizon) (map (pad_ms context_ms pause_ms) chunks) ->
  merge (A:=Binary64.arith) chunks min_silence_len context_ms pause_ms =
  merge (A:=Binary64.arith) chunks min_silence_len' context_ms pause_ms.
Proof.
  intros H1 H2 L1 L2 Hdom.
  rewrite !(merge_seconds _ _ _ _ binary64_laws) by assumption.
  f_equal. apply (merge_ms_all_ext (fun n => 0 <= n < Binary64.horizon)); [|assumption].
  intros s ce Hs Hce Hgt. rewrite !binary64_gap_always by (assumption || lia). reflexivity.
Qed.

Lemma merge_ms_count_mono (P : Z -> Prop) (g1 g2 : Z -> Z -> bool) :
  (forall s ce, P s -> P ce -> ce < s -> g2 s ce = true -> g1 s ce = true) ->
  forall l cs1 cs2 ce, P ce -> all_in P l ->
  (length (merge_ms g2 cs2 ce l) <= length (merge_ms g1 cs1 ce l))%nat.
Proof.
  intros Hg. induction l as [|[start end_] l IH]; intros cs1 cs2 ce Hce Hl.
  - simpl. lia.
  - inversion Hl as [|r l' [Hs He] Hl']; subst. simpl in Hs, He.
    simpl. destruct (Z.leb_spec start ce) as [Hle|Hgt].
    + apply IH; [|assumption].
      destruct (Z.max_spec ce end_) as [[_ ->]|[_ ->]]; assumption.
    + destruct (g2 start ce) eqn:E2.
      * rewrite (Hg start ce Hs Hce Hgt E2). simpl. apply le_n_S. apply IH; assumption.
      * destruct (g1 start ce); simpl.
        -- apply Nat.le_le_succ_r. apply IH; assumption.
        -- apply IH; assumption.
Qed.

Lemma merge_ms_all_count_mono (P : Z -> Prop) (g1 g2 : Z -> Z -> bool) (l : list (Z * Z)) :
  (forall s ce, P s -> P ce -> ce < s -> g2 s ce = true -> g1 s ce = true) ->
  all_in P l ->
  (length (merge_ms_all g2 l) <= length (merge_ms_all g1 l))%nat.
Proof.
  intros Hg Hl. destruct l as [|[start0 end0] rest]; [simpl; lia|].
  inversion Hl as [|r l' [Hs He] Hl']; subst.
  apply (merge_ms_count_mono P); assumption.
Qed.

Lemma binary64_gap_mono (msl msl' context_ms pause_ms start current_end : Z) :
  msl <= msl' ->
  - 2 ^ 52 < msl - pause_ms - context_ms ->
  msl' - pause_ms - context_ms < 2 ^ 52 ->
  0 <= current_end -> current_end < start -> start < Binary64.horizon ->
  gap_test (A:=Binary64.arith) msl' context_ms pause_ms start current_end = true ->
  gap_test (A:=Binary64.arith) msl context_ms pause_ms start current_end = true.
Proof.
  intros Hle Hlow Hhigh Hce Hgt Hs H'.
  unfold Binary64.horizon in Hs.
  destruct (Z.eq_dec msl msl') as [->|Hne]; [exact H'|].
  destruct (Z.eq_dec (start - current_end) (msl - pause_ms - context_ms)) as [Etie|Hn].
  - rewrite binary64_gap_test in H' by (assumption || lia). lia.
  - rewrite binary64_gap_test by (assumption || lia).
    destruct (Z.eq_dec (start - current_end) (msl' - pause_ms - context_ms)) as [Etie'|Hn'].
    + lia.
    + rewrite binary64_gap_test in H' by (assumption || lia). lia.
Qed.

Lemma exact_count_silence (chunks : list (Z * Z)) (msl msl' context_ms pause_ms : Z) :
  msl <= msl' ->
  (length (merge (A:=Exact.arith) chunks msl' context_ms pause_ms) <=
   length (merge (A:=Exact.arith) chunks msl context_ms pause_ms))%nat.
Proof.
  intros Hle.
  rewrite !(merge_seconds _ _ _ _ exact_laws) by apply exact_all_in.
  rewrite !length_map.
  apply (merge_ms_all_count_mono (fun _ => True)); [|apply exact_all_in].
  intros s ce _ _ _. rewrite !exact_gap_test. lia.
Qed.

Lemma binary64_count_silence (chunks : list (Z * Z)) (msl msl' context_ms pause_ms : Z) :
  msl <= msl' ->
  - 2 ^ 52 < msl - pause_ms - context_ms ->
  msl' - pause_ms - context_ms < 2 ^ 52 ->
  all_in (fun n => 0 <= n < Binary64.horizon) (map (pad_ms context_ms pause_ms) chunks) ->
  (length (merge (A:=Binary64.arith) chunks msl' context_ms pause_ms) <=
   length (merge (A:=Binary64.arith) chunks msl context_ms pause_ms))%nat.
Proof.
  intros Hle Hlow Hhigh Hdom.
  rewrite !(merge_seconds _ _ _ _ binary64_laws) by assumption.
  rewrite !length_map.
  apply (merge_ms_all_count_mono (fun n => 0 <= n < Binary64.horizon)); [|assumption].
  intros s ce Hs Hce Hgt. apply binary64_gap_mono; assumption || lia.
Qed.

(** ** The bounding loop after the merge step *)

Section EarlyReturn.
Context {A : PyFloat}.
Hypothesis ord : OrderLaws A.
Variable video_duration : F A.

Lemma bound_from_nil (start end_ : F A) (l : list (range A)) :
  nondegenerate ((start, end_) :: l) -> strictly_separated ((start, end_) :: l) ->
  bound_from video_duration ((start, end_) :: l) = [] <->
  flt start video_duration = false.
Proof.
  intros Hn Hs.
  pose proof (later_starts ord _ _ Hn Hs) as Hlater. simpl in Hlater.
  inversion Hn as [|r0 l0 Hr Hn']; subst. simpl in Hr.
  split.
  - intros E. simpl in E. destruct (flt start video_duration) eqn:Hst; [|reflexivity].
    exfalso. simpl in E.
    assert (Hc : flt start (clamp_end video_duration end_) = true).
    { unfold clamp_end. destruct (flt video_duration end_); assumption. }
    rewrite Hc in E. discriminate.
  - intros Hst. simpl. rewrite Hst. simpl.
    apply (bound_from_beyond ord video_duration start); [exact Hst|].
    eapply Forall_impl; [|exact Hlater]. simpl. intros r H.
    eapply (ord_lt_trans _ ord); eassumption.
Qed.
End EarlyReturn.

Section Pipeline.
Context {A : PyFloat}.
Variable dom : Z -> Prop.
Hypothesis laws : SecondsLaws A dom.
Hypothesis ord : OrderLaws A.
Variables min_silence_len context_ms pause_ms : Z.
Hypothesis context_nonneg : 0 <= context_ms.
Hypothesis pause_nonneg : 0 <= pause_ms.
Variable video_duration : F A.

Lemma pipeline_shape (chunks : list (Z * Z)) :
  well_formed chunks -> on_timeline chunks ->
  all_in dom (map (pad_ms context_ms pause_ms) chunks) ->
  let out := bounded_ranges video_duration
               (merge (A:=A) chunks min_silence_len context_ms pause_ms) in
  ascending out /\ non_overlapping out /\ strictly_separated out /\ nondegenerate out.
Proof.
  intros Hwf Hnn Hdom out. subst out.
  destruct (merge_apart _ laws min_silence_len context_ms pause_ms chunks Hdom)
    as (_ & Hsep & _).
  destruct (merge_proper _ laws min_silence_len context_ms pause_ms
              context_nonneg pause_nonneg chunks Hwf Hnn Hdom) as (Hnd & _).
  rewrite bounded_ranges_from.
  pose proof (bound_from_separated ord video_duration _ Hnd Hsep) as Hs.
  pose proof (in_video_nondegenerate video_duration _
                (bound_from_valid ord video_duration
                   (merge chunks min_silence_len context_ms pause_ms))) as Hn.
  destruct (separated_ascending ord _ Hn Hs) as (Ha & Ho).
  auto.
Qed.

Lemma pipeline_covers (chunks : list (Z * Z)) :
  well_formed chunks -> on_timeline chunks ->
  all_in dom (map (pad_ms context_ms pause_ms) chunks) ->
  inside_video_kept video_duration chunks min_silence_len context_ms pause_ms.
Proof.
  intros Hwf Hnn Hdom. unfold inside_video_kept.
  pose proof (merge_covers _ laws min_silence_len context_ms pause_ms chunks Hwf Hdom)
    as Hcov.
  destruct (merge_proper _ laws min_silence_len context_ms pause_ms
              context_nonneg pause_nonneg chunks Hwf Hnn Hdom) as (Hnd & _).
  pose proof (padded_proper context_ms pause_ms context_nonneg pause_nonneg
                _ (proj1 Hwf) Hnn) as Hp.
  unfold proper_ms in Hp. unfold all_in in Hdom. rewrite Forall_map in Hp, Hdom.
  rewrite Forall_forall in *. intros chunk Hin.
  specialize (Hcov chunk Hin). specialize (Hp chunk Hin).
  destruct (Hdom chunk Hin) as [Hd1 Hd2].
  rewrite pad_seconds in *. unfold seconds in *. cbn [fst snd] in *.
  intros Hs. rewrite bounded_ranges_from.
  apply (bound_from_covered ord); try assumption.
  rewrite (sec_lt _ _ laws) by assumption. apply Z.ltb_lt. exact Hp.
Qed.

Lemma pipeline_empty (chunks : list (Z * Z)) :
  well_formed chunks -> on_timeline chunks ->
  all_in dom (map (pad_ms context_ms pause_ms) chunks) ->
  bounded_ranges video_duration
    (merge (A:=A) chunks min_silence_len context_ms pause_ms) = [] <->
  first_start_before video_duration context_ms pause_ms chunks = false.
Proof.
  intros Hwf Hnn Hdom.
  destruct (merge_apart _ laws min_silence_len context_ms pause_ms chunks Hdom)
    as (_ & Hsep & _).
  destruct (merge_proper _ laws min_silence_len context_ms pause_ms
              context_nonneg pause_nonneg chunks Hwf Hnn Hdom) as (Hnd & _).
  rewrite bounded_ranges_from.
  destruct chunks as [|chunk chunks].
  - simpl. tauto.
  - destruct (merge_first (A:=A) min_silence_len context_ms pause_ms chunk chunks)
      as (end_ & tl & E).
    rewrite E in *. cbn [first_start_before].
    apply (bound_from_nil ord); assumption.
Qed.
End Pipeline.

Lemma video_clips_nil {A : PyFloat} (Clip : Type) (subclip : F A -> F A -> Clip)
    (video_duration : F A) (ranges : list (range A)) :
  video_clips Clip subclip video_duration ranges = [] <->
  bounded_ranges video_duration ranges = [].
Proof.
  unfold video_clips. destruct (bounded_ranges video_duration ranges); simpl.
  - tauto.
  - split; discriminate.
Qed.

(** ** Subtitles *)

Section SubtitleFacts.
Context {World Value Clip : Type}.
Variable caption_clip : Value -> Value -> Value -> Value -> World -> option Clip * World.
Variable label_clip : Value -> Value -> Value -> World -> option Clip * World.

Lemma subtitle_clip_keys (seg : segment Value) (video_width : Value) (w : World) :
  has_keys seg = false ->
  fst (subtitle_clip caption_clip label_clip seg video_width w) = None.
Proof.
  unfold has_keys, subtitle_clip. intros H.
  destruct (dict_get "start"%string seg); [|reflexivity].
  destruct (dict_get "end"%string seg); [|reflexivity].
  destruct (dict_get "text"%string seg); [discriminate|reflexivity].
Qed.

Lemma subtitle_loop_stops (before after : list (segment Value)) (seg : segment Value)
    (video_width : Value) :
  has_keys seg = false ->
  forall clips w,
  (length (fst (subtitle_loop caption_clip label_clip
                  (before ++ seg :: after) video_width clips w))
     <= length clips + length before)%nat.
Proof.
  intros Hbad. induction before as [|s before IH]; intros clips w; simpl.
  - pose proof (subtitle_clip_keys seg video_width w Hbad) as E.
    destruct (subtitle_clip caption_clip label_clip seg video_width w) as [[c|] w'];
      simpl in *; [discriminate|lia].
  - destruct (subtitle_clip caption_clip label_clip s video_width w) as [[txt_clip|] w'];
      simpl.
    + specialize (IH (clips ++ [txt_clip]) w'). rewrite length_app in IH. simpl in IH. lia.
    + lia.
Qed.

Lemma subtitle_loop_complete (transcription : list (segment Value)) (video_width : Value) :
  (forall text start_time end_time w, fst (label_clip text start_time end_time w) <> None) ->
  Forall (fun seg => has_keys seg = true) transcription ->
  forall clips w,
  length (fst (subtitle_loop caption_clip label_clip transcription video_width clips w)) =
  (length clips + length transcription)%nat.
Proof.
  intros Hlabel Hkeys. induction Hkeys as [|seg rest Hseg Hrest IH]; intros clips w; simpl.
  - lia.
  - assert (E : exists c w',
              subtitle_clip caption_clip label_clip seg video_width w = (Some c, w')).
    { unfold subtitle_clip, has_keys in *.
      destruct (dict_get "start"%string seg) as [start_time|]; [|discriminate].
      destruct (dict_get "end"%string seg) as [end_time|]; [|discriminate].
      destruct (dict_get "text"%string seg) as [text|]; [|discriminate].
      destruct (caption_clip text video_width start_time end_time w) as [[c|] w1]; [eauto|].
      specialize (Hlabel text start_time end_time w1).
      destruct (label_clip text start_time end_time w1) as [[c|] w2]; [eauto|].
      exfalso. apply Hlabel. reflexivity. }
    destruct E as (c & w' & ->).
    rewrite IH, length_app. simpl. lia.
Qed.

(** The clips come in the order of the segments they caption: the loop
    only ever appends. *)
Lemma subtitle_loop_bound (transcription : list (segment Value)) (video_width : Value) :
  forall clips w,
  (length (fst (subtitle_loop caption_clip label_clip transcription video_width clips w))
     <= length clips + length transcription)%nat.
Proof.
  induction transcription as [|seg rest IH]; intros clips w; simpl.
  - lia.
  - destruct (subtitle_clip caption_clip label_clip seg video_width w) as [[txt_clip|] w'];
      simpl.
    + specialize (IH (clips ++ [txt_clip]) w'). rewrite length_app in IH. simpl in IH. lia.
    + lia.
Qed.
End SubtitleFacts.

(** ** The options passed to ffmpeg *)

Section EncodingFacts.
Context {World : Type}.
Variable cuda_is_available : World -> option bool * World.
Variable vainfo : World -> option Z * World.

(** [subprocess] is imported inside [configure_imagemagick] only, so the
    probe of line 309 raises and the handler of line 321 takes over. *)
Lemma elsewhere_params_no_vaapi (platform : String.string) (use_gpu : bool) (w : World) :
  elsewhere_params vainfo platform use_gpu w =
  (if String.eqb platform "darwin"%string then base_params ++ mac_params else base_params, w).
Proof.
  unfold elsewhere_params, vaapi_check.
  destruct (String.eqb platform "darwin"%string); [reflexivity|].
  destruct (String.prefix "linux"%string platform && use_gpu); reflexivity.
Qed.

Lemma ffmpeg_params_cases (fast_mode : bool) (platform : String.string) (use_gpu : bool)
    (w : World) :
  let software :=
    if String.eqb platform "darwin"%string then base_params ++ mac_params
    else base_params in
  ffmpeg_params cuda_is_available vainfo fast_mode platform use_gpu w =
  if fast_mode then
    if String.prefix "win"%string platform && use_gpu then
      match cuda_is_available w with
      | (Some true, w') => (Some (base_params ++ cuda_params), w')
      | (Some false, w') => (Some software, w')
      | (None, w') => (None, w')
      end
    else (Some software, w)
  else (Some quality_params, w).
Proof.
  unfold ffmpeg_params. destruct fast_mode; [|reflexivity].
  destruct (String.prefix "win"%string platform && use_gpu).
  - destruct (cuda_is_available w) as [[[|]|] w']; try reflexivity.
    rewrite elsewhere_params_no_vaapi. reflexivity.
  - rewrite elsewhere_params_no_vaapi. reflexivity.
Qed.

Lemma linux_platform (platform : String.string) :
  String.prefix "linux"%string platform = true ->
  String.prefix "win"%string platform = false /\
  String.eqb platform "darwin"%string = false.
Proof.
  intros H. destruct platform as [|c platform]; [discriminate|].
  cbn [String.prefix] in H.
  destruct (Ascii.ascii_dec _ c) as [<-|]; [|discriminate].
  split; reflexivity.
Qed.

Lemma ffmpeg_params_options (fast_mode : bool) (platform : String.string) (use_gpu : bool)
    (w : World) (params : list String.string) :
  fst (ffmpeg_params cuda_is_available vainfo fast_mode platform use_gpu w) = Some params ->
  params = base_params ++ cuda_params \/ params = base_params ++ mac_params \/
  params = base_params \/ params = quality_params.
Proof.
  rewrite ffmpeg_params_cases. intros H.
  destruct fast_mode; [|inversion H; auto].
  destruct (String.prefix "win"%string platform && use_gpu).
  - destruct (cuda_is_available w) as [[[|]|] w']; cbn [fst] in H;
      [inversion H; auto | | discriminate].
    destruct (String.eqb platform "darwin"%string); inversion H; auto.
  - cbn [fst] in H.
    destruct (String.eqb platform "darwin"%string); inversion H; auto.
Qed.
End EncodingFacts.

(** * Further properties *)

(** X1.  Whatever ranges [process_video] is given and whatever duration
    moviepy reports, every range it hands to [subclip] has
    [start < end], [start < video_duration] and [end <= video_duration], and
    it hands over no more ranges than it was given. *)
Theorem bounded_ranges_in_video :
  (forall (video_duration : float) (ranges : list (range Binary64.arith)),
     Forall (in_video (A:=Binary64.arith) video_duration)
            (bounded_ranges (A:=Binary64.arith) video_duration ranges)) /\
  (forall (video_duration : Q) (ranges : list (range Exact.arith)),
     Forall (in_video (A:=Exact.arith) video_duration)
            (bounded_ranges (A:=Exact.arith) video_duration ranges)) /\
  (forall (A : PyFloat) (video_duration : F A) (ranges : list (range A)),
     (length (bounded_ranges video_duration ranges) <= length ranges)%nat).
Proof.
  split; [|split].
  - intros d l. rewrite bounded_ranges_from. apply (bound_from_valid binary64_order).
  - intros d l. rewrite bounded_ranges_from. apply (bound_from_valid exact_order).
  - intros A d l. rewrite bounded_ranges_from. apply bound_from_length.
Qed.

(** X2.  When the ranges given to the bounding loop of [process_video] have
    [start < end] and each ends before the next starts, the ranges that start
    before the end of the video come first, the loop keeps exactly those, in
    order, and drops every range from the first one that does not start
    before the end of the video on.  The ranges kept are unchanged, except
    that the last one is shortened to end with the video when it runs past
    it.  This holds in any arithmetic whose comparisons form an order,
    binary64 included. *)
Theorem bounded_ranges_prefix (A : PyFloat) (video_duration : F A)
    (ranges : list (range A)) :
  OrderLaws A -> nondegenerate ranges -> strictly_separated ranges ->
  exists k : nat,
    kept_prefix video_duration ranges (bounded_ranges video_duration ranges) k.
Proof.
  intros ord Hn Hs. rewrite bounded_ranges_from.
  apply (bound_from_kept ord); assumption.
Qed.

Lemma bounded_ranges_prefix_witness :
  exists k : nat,
    kept_prefix (A:=Binary64.arith) 2%float [(0, 1.5); (1.7, 3.5); (4, 5)]%float
      (bounded_ranges (A:=Binary64.arith) 2%float [(0, 1.5); (1.7, 3.5); (4, 5)]%float) k.
Proof.
  apply (bounded_ranges_prefix Binary64.arith 2%float [(0, 1.5); (1.7, 3.5); (4, 5)]%float).
  - exact binary64_order.
  - repeat constructor; vm_compute; reflexivity.
  - cbn [strictly_separated adjacent]. repeat split; vm_compute; reflexivity.
Defined.

(** X3.  The bounding loop of [process_video] returns its input unchanged
    exactly when every range of the input has [start < end],
    [start < video_duration] and [end <= video_duration]; bounding a second
    time changes nothing.  This holds in any arithmetic whose comparisons
    form an order, binary64 included. *)
Theorem bounded_ranges_unchanged (A : PyFloat) (video_duration : F A)
    (ranges : list (range A)) :
  OrderLaws A ->
  (bounded_ranges video_duration ranges = ranges <->
   Forall (in_video video_duration) ranges) /\
  bounded_ranges video_duration (bounded_ranges video_duration ranges) =
  bounded_ranges video_duration ranges.
Proof.
  intros ord. rewrite !bounded_ranges_from. split; [split|].
  - intros E. rewrite <- E. apply (bound_from_valid ord).
  - apply (bound_from_id ord).
  - apply (bound_from_id ord), (bound_from_valid ord).
Qed.

Lemma bounded_ranges_unchanged_witness :
  (bounded_ranges (A:=Binary64.arith) 4%float [(0, 1.5); (1.7, 3.5)]%float =
     [(0, 1.5); (1.7, 3.5)]%float <->
   Forall (in_video (A:=Binary64.arith) 4%float) [(0, 1.5); (1.7, 3.5)]%float) /\
  bounded_ranges (A:=Binary64.arith) 4%float
    (bounded_ranges (A:=Binary64.arith) 4%float [(0, 1.5); (1.7, 3.5)]%float) =
  bounded_ranges (A:=Binary64.arith) 4%float [(0, 1.5); (1.7, 3.5)]%float.
Proof.
  apply (bounded_ranges_unchanged Binary64.arith 4%float [(0, 1.5); (1.7, 3.5)]%float).
  exact binary64_order.
Defined.

(** X4.  For raw ranges that are offsets into the audio ([0 <= start < end],
    ascending, without overlap) and non-negative context and pause, the
    ranges [process_video] cuts the video at (the output of the merge step,
    bounded by the duration of the video) are ascending by start, each ends
    strictly before the next starts, and each has [end > start], whatever
    the duration. *)
Theorem final_ranges_well_formed (non_silent_chunks : list (Z * Z))
    (min_silence_len context_ms pause_ms : Z) :
  well_formed non_silent_chunks -> on_timeline non_silent_chunks ->
  0 <= context_ms -> 0 <= pause_ms ->
  (forall video_duration : Q,
     let out := bounded_ranges (A:=Exact.arith) video_duration
                  (merge non_silent_chunks min_silence_len context_ms pause_ms) in
     ascending out /\ non_overlapping out /\ strictly_separated out /\ nondegenerate out) /\
  (within_horizon non_silent_chunks pause_ms ->
   forall video_duration : float,
     let out := bounded_ranges (A:=Binary64.arith) video_duration
                  (merge non_silent_chunks min_silence_len context_ms pause_ms) in
     ascending out /\ non_overlapping out /\ strictly_separated out /\ nondegenerate out).
Proof.
  intros Hwf Hnn Hc Hp. split.
  - intros d. apply (pipeline_shape _ exact_laws exact_order); try assumption.
    apply exact_all_in.
  - intros Hh d. apply (pipeline_shape _ binary64_laws binary64_order); try assumption.
    apply padded_within_horizon; try assumption. apply Hwf.
Qed.

Lemma final_ranges_well_formed_witness :
  let out := bounded_ranges (A:=Binary64.arith) 3%float
               (merge [(0, 1000); (2000, 3000); (3100, 4000)] 700 300 500) in
  ascending out /\ non_overlapping out /\ strictly_separated out /\ nondegenerate out.
Proof.
  apply (final_ranges_well_formed [(0, 1000); (2000, 3000); (3100, 4000)] 700 300 500);
    [solve_well_formed | solve_on_timeline | lia | lia | solve_within_horizon].
Defined.

(** X5.  No speech inside the video is lost between the detector and
    [subclip]: for raw ranges that are offsets into the audio and
    non-negative context and pause, every padded chunk that starts before the
    end of the video lies, up to the end of the video, inside one of the
    ranges [process_video] keeps. *)
Theorem speech_inside_video_kept (non_silent_chunks : list (Z * Z))
    (min_silence_len context_ms pause_ms : Z) :
  well_formed non_silent_chunks -> on_timeline non_silent_chunks ->
  0 <= context_ms -> 0 <= pause_ms ->
  (forall video_duration : Q,
     inside_video_kept (A:=Exact.arith) video_duration
       non_silent_chunks min_silence_len context_ms pause_ms) /\
  (within_horizon non_silent_chunks pause_ms ->
   forall video_duration : float,
     inside_video_kept (A:=Binary64.arith) video_duration
       non_silent_chunks min_silence_len context_ms pause_ms).
Proof.
  intros Hwf Hnn Hc Hp. split.
  - intros d. apply (pipeline_covers _ exact_laws exact_order); try assumption.
    apply exact_all_in.
  - intros Hh d. apply (pipeline_covers _ binary64_laws binary64_order); try assumption.
    apply padded_within_horizon; try assumption. apply Hwf.
Qed.

Lemma speech_inside_video_kept_witness :
  inside_video_kept (A:=Binary64.arith) 3%float
    [(0, 1000); (2000, 3000); (3100, 4000)] 700 300 500.
Proof.
  apply (speech_inside_video_kept [(0, 1000); (2000, 3000); (3100, 4000)] 700 300 500);
    [solve_well_formed | solve_on_timeline | lia | lia | solve_within_horizon].
Defined.

(** X6.  [process_video] finds no clip to cut, and returns after its "No
    non-silent parts detected", exactly when the detector reported no chunk
    or the first padded chunk does not start before the end of the video (for
    raw ranges that are offsets into the audio and non-negative context and
    pause). *)
Theorem no_clips_condition (non_silent_chunks : list (Z * Z))
    (min_silence_len context_ms pause_ms : Z) :
  well_formed non_silent_chunks -> on_timeline non_silent_chunks ->
  0 <= context_ms -> 0 <= pause_ms ->
  (forall (video_duration : Q) (Clip : Type) (subclip : Q -> Q -> Clip),
     video_clips (A:=Exact.arith) Clip subclip video_duration
       (merge non_silent_chunks min_silence_len context_ms pause_ms) = [] <->
     first_start_before (A:=Exact.arith) video_duration context_ms pause_ms
       non_silent_chunks = false) /\
  (within_horizon non_silent_chunks pause_ms ->
   forall (video_duration : float) (Clip : Type) (subclip : float -> float -> Clip),
     video_clips (A:=Binary64.arith) Clip subclip video_duration
       (merge non_silent_chunks min_silence_len context_ms pause_ms) = [] <->
     first_start_before (A:=Binary64.arith) video_duration context_ms pause_ms
       non_silent_chunks = false).
Proof.
  intros Hwf Hnn Hc Hp. split.
  - intros d Clip subclip. rewrite video_clips_nil.
    apply (pipeline_empty _ exact_laws exact_order); try assumption.
    apply exact_all_in.
  - intros Hh d Clip subclip. rewrite video_clips_nil.
    apply (pipeline_empty _ binary64_laws binary64_order); try assumption.
    apply padded_within_horizon; try assumption. apply Hwf.
Qed.

Lemma no_clips_condition_witness :
  video_clips (A:=Binary64.arith) (float * float) pair 0.5%float
    (merge [(1000, 2000); (3000, 4000)] 700 300 500) = [] <->
  first_start_before (A:=Binary64.arith) 0.5%float 300 500 [(1000, 2000); (3000, 4000)]
    = false.
Proof.
  apply (no_clips_condition [(1000, 2000); (3000, 4000)] 700 300 500);
    [solve_well_formed | solve_on_timeline | lia | lia | solve_within_horizon].
Defined.

(** X7.  The merge step returns at most one range per chunk, and no range
    only when there is no chunk: in any arithmetic, for any chunks and
    parameters. *)
Theorem merge_count_bounds (A : PyFloat) (non_silent_chunks : list (Z * Z))
    (min_silence_len context_ms pause_ms : Z) :
  (length (merge (A:=A) non_silent_chunks min_silence_len context_ms pause_ms)
     <= length non_silent_chunks)%nat /\
  (merge (A:=A) non_silent_chunks min_silence_len context_ms pause_ms = [] <->
   non_silent_chunks = []).
Proof.
  unfold merge, non_silent_ranges.
  destruct non_silent_chunks as [|chunk chunks]; cbn [map length].
  - simpl. split; [lia | tauto].
  - destruct (pad context_ms pause_ms chunk) as [start0 end0] eqn:E.
    replace (merged_ranges _ _ _ _)
      with (merge_from min_silence_len context_ms pause_ms start0 end0
              (map (pad context_ms pause_ms) chunks))
      by (symmetry; apply merged_ranges_cons).
    pose proof (merge_from_length min_silence_len context_ms pause_ms
                  (map (pad context_ms pause_ms) chunks) start0 end0) as H.
    rewrite length_map in H. split; [lia|].
    split; [|discriminate].
    intros E0. rewrite E0 in H. simpl in H. lia.
Qed.

(** X8.  The merge step invents no time point: every range it returns
    starts at the padded start of some chunk and ends at the padded end of
    some chunk, and the first range starts at the padded start of the first
    chunk.  This holds in any arithmetic, for any chunks and parameters. *)
Theorem merge_endpoints_from_padding (A : PyFloat) (non_silent_chunks : list (Z * Z))
    (min_silence_len context_ms pause_ms : Z) :
  let padded := non_silent_ranges (A:=A) non_silent_chunks context_ms pause_ms in
  let out := merge non_silent_chunks min_silence_len context_ms pause_ms in
  Forall (fun o => In (fst o) (map fst padded) /\ In (snd o) (map snd padded)) out /\
  match non_silent_chunks with
  | [] => out = []
  | chunk :: _ => exists end_ tl, out = (fst (pad context_ms pause_ms chunk), end_) :: tl
  end.
Proof.
  split.
  - apply merge_endpoints.
  - destruct non_silent_chunks as [|chunk chunks]; [reflexivity|].
    apply merge_first.
Qed.

(** X9.  For raw ranges with [start < end], ascending and without overlap,
    the merge step divides the chunks into runs of consecutive chunks and
    returns one range per run, from the padded start of the first chunk of
    the run to the padded end of its last chunk. *)
Theorem merge_groups_chunks (non_silent_chunks : list (Z * Z))
    (min_silence_len context_ms pause_ms : Z) :
  well_formed non_silent_chunks ->
  grouped (A:=Exact.arith) context_ms pause_ms non_silent_chunks
    (merge non_silent_chunks min_silence_len context_ms pause_ms) /\
  (on_timeline non_silent_chunks -> 0 <= context_ms -> 0 <= pause_ms ->
   within_horizon non_silent_chunks pause_ms ->
   grouped (A:=Binary64.arith) context_ms pause_ms non_silent_chunks
     (merge non_silent_chunks min_silence_len context_ms pause_ms)).
Proof.
  intros Hwf. split.
  - apply (merge_grouped _ exact_laws); [exact Hwf | apply exact_all_in].
  - intros Hnn Hc Hp Hh. apply (merge_grouped _ binary64_laws); [exact Hwf|].
    apply padded_within_horizon; try assumption. apply Hwf.
Qed.

Lemma merge_groups_chunks_witness :
  grouped (A:=Binary64.arith) 300 500 [(0, 1000); (1200, 2000); (5000, 6000)]
    (merge [(0, 1000); (1200, 2000); (5000, 6000)] 700 300 500).
Proof.
  apply (merge_groups_chunks [(0, 1000); (1200, 2000); (5000, 6000)] 700 300 500);
    [solve_well_formed | solve_on_timeline | lia | lia | solve_within_horizon].
Defined.

(** X10.  When [min_silence_len <= pause_ms + context_ms] the threshold of
    line 87 is zero or negative and the output of the merge step does not
    depend on [min_silence_len]: it is the same for every such value (every
    gap the test of line 87 sees is positive and exceeds the threshold, so
    chunks are joined only where their padded ranges overlap). *)
Theorem silence_length_irrelevant (non_silent_chunks : list (Z * Z))
    (min_silence_len min_silence_len' context_ms pause_ms : Z) :
  min_silence_len <= pause_ms + context_ms ->
  min_silence_len' <= pause_ms + context_ms ->
  merge (A:=Exact.arith) non_silent_chunks min_silence_len context_ms pause_ms =
  merge (A:=Exact.arith) non_silent_chunks min_silence_len' context_ms pause_ms /\
  (well_formed non_silent_chunks -> on_timeline non_silent_chunks ->
   within_horizon non_silent_chunks pause_ms ->
   params_within_horizon min_silence_len context_ms pause_ms ->
   params_within_horizon min_silence_len' context_ms pause_ms ->
   merge (A:=Binary64.arith) non_silent_chunks min_silence_len context_ms pause_ms =
   merge (A:=Binary64.arith) non_silent_chunks min_silence_len' context_ms pause_ms).
Proof.
  intros H1 H2. split.
  - apply exact_merge_threshold; assumption.
  - intros Hwf Hnn Hh (Hm & Hc & Hp) (Hm' & _ & _).
    unfold Binary64.horizon in *.
    assert (H48 : 2 * 2 ^ 48 < 2 ^ 52) by reflexivity.
    apply binary64_merge_threshold; try assumption; try lia.
    apply padded_within_horizon; try assumption; try lia. apply Hwf.
Qed.

Lemma silence_length_irrelevant_witness :
  merge (A:=Binary64.arith) [(0, 1000); (2000, 3000); (3100, 4000)] 700 300 500 =
  merge (A:=Binary64.arith) [(0, 1000); (2000, 3000); (3100, 4000)] 100 300 500.
Proof.
  apply (silence_length_irrelevant [(0, 1000); (2000, 3000); (3100, 4000)] 700 100 300 500);
    [lia | lia | solve_well_formed | solve_on_timeline | solve_within_horizon
     | unfold params_within_horizon, Binary64.horizon; lia
     | unfold params_within_horizon, Binary64.horizon; lia].
Defined.

(** X11.  With context and pause fixed, a longer [min_silence_len] never
    gives more ranges for the same chunks: in exact arithmetic for any
    chunks, and in binary64 (ties included) for raw ranges that are offsets
    into the audio, below the horizon. *)
Theorem silence_length_monotone (non_silent_chunks : list (Z * Z))
    (min_silence_len min_silence_len' context_ms pause_ms : Z) :
  min_silence_len <= min_silence_len' ->
  (length (merge (A:=Exact.arith) non_silent_chunks min_silence_len' context_ms pause_ms) <=
   length (merge (A:=Exact.arith) non_silent_chunks min_silence_len context_ms pause_ms))%nat /\
  (well_formed non_silent_chunks -> on_timeline non_silent_chunks ->
   within_horizon non_silent_chunks pause_ms ->
   params_within_horizon min_silence_len context_ms pause_ms ->
   params_within_horizon min_silence_len' context_ms pause_ms ->
   (length (merge (A:=Binary64.arith) non_silent_chunks min_silence_len' context_ms pause_ms) <=
    length (merge (A:=Binary64.arith) non_silent_chunks min_silence_len context_ms pause_ms))%nat).
Proof.
  intros Hle. split.
  - apply exact_count_silence. exact Hle.
  - intros Hwf Hnn Hh (Hm & Hc & Hp) (Hm' & _ & _).
    unfold Binary64.horizon in *.
    assert (H48 : 2 * 2 ^ 48 < 2 ^ 52) by reflexivity.
    apply binary64_count_silence; try assumption; try lia.
    apply padded_within_horizon; try assumption; try lia. apply Hwf.
Qed.

Lemma silence_length_monotone_witness :
  Nat.le (length (merge (A:=Binary64.arith) [(0, 1100); (2600, 3600)] 1600 400 600))
         (length (merge (A:=Binary64.arith) [(0, 1100); (2600, 3600)] 1500 400 600)).
Proof.
  apply (silence_length_monotone [(0, 1100); (2600, 3600)] 1500 1600 400 600);
    [lia | solve_well_formed | solve_on_timeline | solve_within_horizon
     | unfold params_within_horizon, Binary64.horizon; lia
     | unfold params_within_horizon, Binary64.horizon; lia].
Defined.

(** X12.  [apply_preset] keeps the four parameters on the values their
    spinboxes allow (range and increment of lines 66-81): whatever the
    selected preset name, if the parameters are spinbox values before, they
    are afterwards; in particular context and pause stay non-negative. *)
Theorem apply_preset_on_spinboxes (st : Gui.gui_params) :
  Gui.spinbox_values st ->
  Gui.spinbox_values (Gui.apply_preset st) /\
  0 <= Gui.context (Gui.apply_preset st) /\ 0 <= Gui.pause (Gui.apply_preset st).
Proof.
  intros H.
  assert (H' : Gui.spinbox_values (Gui.apply_preset st)).
  { unfold Gui.apply_preset.
    repeat (destruct (String.eqb (Gui.preset st) _);
            [unfold Gui.spinbox_values, Gui.on_spinbox; cbn; repeat split; lia|]).
    exact H. }
  split; [exact H'|].
  destruct H' as (_ & _ & [Hc _] & [Hp _]). cbn in Hc, Hp. lia.
Qed.

Lemma apply_preset_on_spinboxes_witness :
  Gui.spinbox_values (Gui.apply_preset Gui.initial_params) /\
  0 <= Gui.context (Gui.apply_preset Gui.initial_params) /\
  0 <= Gui.pause (Gui.apply_preset Gui.initial_params).
Proof.
  apply (apply_preset_on_spinboxes Gui.initial_params).
  unfold Gui.spinbox_values, Gui.on_spinbox; cbn; repeat split; lia.
Defined.

(** X13.  [process_video] never selects the VAAPI encoder: [subprocess]
    is not bound at the top level of [main.py], the probe of line 309 raises
    a [NameError], and the bare [except] of line 321 falls back to the
    software options.  On Linux in fast mode the options are the base options
    whatever [use_gpu] is, and [vainfo] is not run. *)
Theorem vaapi_never_selected (World : Type)
    (cuda_is_available : World -> option bool * World)
    (vainfo : World -> option Z * World)
    (fast_mode : bool) (platform : String.string) (use_gpu : bool) (w : World) :
  (forall params,
     fst (ffmpeg_params cuda_is_available vainfo fast_mode platform use_gpu w) = Some params ->
     ~ In "h264_vaapi"%string params) /\
  (String.prefix "linux"%string platform = true -> fast_mode = true ->
   ffmpeg_params cuda_is_available vainfo fast_mode platform use_gpu w =
   (Some base_params, w)).
Proof.
  split.
  - intros params H.
    destruct (ffmpeg_params_options _ _ _ _ _ _ _ H) as [-> |[-> |[-> | ->]]];
      intros Hin; cbn in Hin;
      repeat (destruct Hin as [Hin|Hin]; [discriminate|]); exact Hin.
  - intros Hlinux ->. rewrite ffmpeg_params_cases.
    destruct (linux_platform platform Hlinux) as [-> ->]. reflexivity.
Qed.

(** X14.  [create_subtitle_clips] returns one clip per segment when every
    segment has the keys [start], [end] and [text] and the simpler
    [TextClip] of lines 162-166 never raises, whether or not the first one
    does. *)
Theorem subtitles_complete (World Value Clip : Type)
    (caption_clip : Value -> Value -> Value -> Value -> World -> option Clip * World)
    (label_clip : Value -> Value -> Value -> World -> option Clip * World)
    (transcription : list (segment Value)) (video_width video_height : Value) (w : World) :
  (forall text start_time end_time w0,
     fst (label_clip text start_time end_time w0) <> None) ->
  Forall (fun seg => has_keys seg = true) transcription ->
  length (fst (create_subtitle_clips caption_clip label_clip
                 transcription video_width video_height w)) =
  length transcription.
Proof.
  intros Hlabel Hkeys. unfold create_subtitle_clips.
  rewrite (subtitle_loop_complete caption_clip label_clip transcription video_width
             Hlabel Hkeys [] w).
  reflexivity.
Qed.

Lemma subtitles_complete_witness :
  length (fst (create_subtitle_clips (World:=unit) (Value:=Z) (Clip:=Z)
                 (fun _ _ _ _ w => (None, w)) (fun text _ _ w => (Some text, w))
                 [[("start", 0); ("end", 2); ("text", 7)]%string;
                  [("text", 8); ("start", 2); ("end", 3)]%string] 1280 720 tt)) =
  length [[("start", 0); ("end", 2); ("text", 7)]%string;
          [("text", 8); ("start", 2); ("end", 3)]%string].
Proof.
  apply (subtitles_complete unit Z Z
           (fun _ _ _ _ w => (None, w)) (fun text _ _ w => (Some text, w))).
  - intros text start_time end_time w0. discriminate.
  - repeat constructor.
Defined.

(** X15.  [create_subtitle_clips] never returns more clips than segments,
    and a segment without one of the keys [start], [end], [text] ends the
    loop: the segments after it get no clip, whatever they hold. *)
Theorem subtitles_stop_at_bad_segment (World Value Clip : Type)
    (caption_clip : Value -> Value -> Value -> Value -> World -> option Clip * World)
    (label_clip : Value -> Value -> Value -> World -> option Clip * World)
    (before after : list (segment Value)) (seg : segment Value)
    (video_width video_height : Value) (w : World) :
  has_keys seg = false ->
  (length (fst (create_subtitle_clips caption_clip label_clip
                  (before ++ seg :: after) video_width video_height w))
     <= length before)%nat /\
  (forall transcription,
     (length (fst (create_subtitle_clips caption_clip label_clip
                     transcription video_width video_height w))
        <= length transcription)%nat).
Proof.
  intros Hbad. unfold create_subtitle_clips. split.
  - apply (subtitle_loop_stops caption_clip label_clip before after seg video_width
             Hbad [] w).
  - intros transcription.
    apply (subtitle_loop_bound caption_clip label_clip transcription video_width [] w).
Qed.

Lemma subtitles_stop_at_bad_segment_witness :
  Nat.le
    (length (fst (create_subtitle_clips (World:=unit) (Value:=Z) (Clip:=Z)
                    (fun text _ _ _ w => (Some text, w)) (fun text _ _ w => (Some text, w))
                    ([[("start", 0); ("end", 2); ("text", 7)]%string] ++
                     [("start", 2); ("text", 8)]%string ::
                     [[("start", 3); ("end", 4); ("text", 9)]%string])
                    1280 720 tt)))
    (length [[("start", 0); ("end", 2); ("text", 7)]%string]).
Proof.
  apply (subtitles_stop_at_bad_segment unit Z Z
           (fun text _ _ _ w => (Some text, w)) (fun text _ _ w => (Some text, w))
           [[("start", 0); ("end", 2); ("text", 7)]%string]
           [[("start", 3); ("end", 4); ("text", 9)]%string]
           [("start", 2); ("text", 8)]%string 1280 720 tt).
  reflexivity.
Defined.

(** X16.  If loading the model on the CPU and transcribing with it never
    raise, [transcribe_audio] returns the segments of a transcription that
    succeeded, on the GPU or on the CPU, whatever fails on the GPU side: the
    empty list of lines 139-140 is not reached. *)
Theorem transcription_falls_back (World Model Segment : Type)
    (cuda_is_available : World -> option bool * World)
    (cuda_report : World -> option unit * World)
    (load_model : device -> World -> option Model * World)
    (transcribe : Model -> String.string -> World -> option (list Segment) * World)
    (audio_path : String.string) (use_gpu : bool) (w : World) :
  (forall w0, fst (attempt load_model transcribe cpu audio_path w0) <> None) ->
  exists d w0,
    attempt load_model transcribe d audio_path w0 =
    (Some (fst (transcribe_audio cuda_is_available cuda_report load_model transcribe
                  audio_path use_gpu w)),
     snd (transcribe_audio cuda_is_available cuda_report load_model transcribe
            audio_path use_gpu w)).
Proof.
  intros Hcpu. unfold transcribe_audio.
  destruct (select_device cuda_is_available cuda_report use_gpu w) as [d w1].
  destruct (attempt load_model transcribe d audio_path w1) as [[segments|] w2] eqn:E1.
  - exists d, w1. exact E1.
  - destruct d.
    + specialize (Hcpu w2).
      destruct (attempt load_model transcribe cpu audio_path w2) as [[segments|] w3] eqn:E2.
      * exists cpu, w2. exact E2.
      * exfalso. apply Hcpu. reflexivity.
    + exfalso. apply (Hcpu w1). rewrite E1. reflexivity.
Qed.

Lemma transcription_falls_back_witness :
  exists d w0,
    attempt (World:=unit) (Model:=unit) (Segment:=Z)
      (fun d w => (match d with cuda => None | cpu => Some tt end, w))
      (fun _ _ w => (Some [1; 2], w)) d String.EmptyString w0 =
    (Some (fst (transcribe_audio (fun w => (Some true, w)) (fun w => (Some tt, w))
                  (fun d w => (match d with cuda => None | cpu => Some tt end, w))
                  (fun _ _ w => (Some [1; 2], w)) String.EmptyString true tt)),
     snd (transcribe_audio (fun w => (Some true, w)) (fun w => (Some tt, w))
            (fun d w => (match d with cuda => None | cpu => Some tt end, w))
            (fun _ _ w => (Some [1; 2], w)) String.EmptyString true tt)).
Proof.
  apply (transcription_falls_back unit unit Z
           (fun w => (Some true, w)) (fun w => (Some tt, w))
           (fun d w => (match d with cuda => None | cpu => Some tt end, w))
           (fun _ _ w => (Some [1; 2], w)) String.EmptyString true tt).
  intros w0. discriminate.
Defined.

(** X17.  The merge step cuts between two consecutive chunks exactly where
    the silence between them is longer than both [min_silence_len] and
    [pause_ms + context_ms]: for raw ranges that are offsets into the audio
    and non-negative context and pause, its output is one range per run of
    the chunks divided at those silences, from the padded start of the run's
    first chunk to the padded end of its last.  In binary64 this holds below
    the horizon when no silence is exactly [min_silence_len] long. *)
Theorem merge_cuts_long_silences (non_silent_chunks : list (Z * Z))
    (min_silence_len context_ms pause_ms : Z) :
  well_formed non_silent_chunks -> on_timeline non_silent_chunks ->
  0 <= context_ms -> 0 <= pause_ms ->
  let groups := runs (Z.max min_silence_len (pause_ms + context_ms)) non_silent_chunks in
  (concat groups = non_silent_chunks /\ Forall (fun group => group <> []) groups) /\
  merge (A:=Exact.arith) non_silent_chunks min_silence_len context_ms pause_ms =
    map (span context_ms pause_ms) groups /\
  (no_tie min_silence_len non_silent_chunks ->
   within_horizon non_silent_chunks pause_ms ->
   params_within_horizon min_silence_len context_ms pause_ms ->
   merge (A:=Binary64.arith) non_silent_chunks min_silence_len context_ms pause_ms =
     map (span context_ms pause_ms) groups).
Proof.
  intros Hwf Hnn Hc Hp groups.
  pose proof (runs_concat (Z.max min_silence_len (pause_ms + context_ms))
                non_silent_chunks) as Hruns.
  fold groups in Hruns. split; [exact Hruns|]. split.
  - rewrite (merge_seconds _ _ _ _ exact_laws) by apply exact_all_in.
    rewrite (merge_ms_all_runs _ _ _ Hc Hp _ Hwf Hnn).
    apply spans_seconds, Hruns.
  - intros Htie Hh Hparams.
    rewrite (merge_seconds _ _ _ _ binary64_laws)
      by (apply padded_within_horizon; try assumption; apply Hwf).
    rewrite (binary64_exact_agree _ _ _ Hparams _ Hwf Hnn Htie Hh).
    rewrite (merge_ms_all_runs _ _ _ Hc Hp _ Hwf Hnn).
    apply spans_seconds, Hruns.
Qed.

Lemma merge_cuts_long_silences_witness :
  let groups := runs (Z.max 700 (500 + 300)) [(0, 1000); (1200, 2000); (5000, 6000)] in
  (concat groups = [(0, 1000); (1200, 2000); (5000, 6000)] /\
   Forall (fun group => group <> []) groups) /\
  merge (A:=Exact.arith) [(0, 1000); (1200, 2000); (5000, 6000)] 700 300 500 =
    map (span 300 500) groups /\
  (no_tie 700 [(0, 1000); (1200, 2000); (5000, 6000)] ->
   within_horizon [(0, 1000); (1200, 2000); (5000, 6000)] 500 ->
   params_within_horizon 700 300 500 ->
   merge (A:=Binary64.arith) [(0, 1000); (1200, 2000); (5000, 6000)] 700 300 500 =
     map (span 300 500) groups).
Proof.
  apply (merge_cuts_long_silences [(0, 1000); (1200, 2000); (5000, 6000)] 700 300 500);
    [solve_well_formed | solve_on_timeline | lia | lia].
Defined.

(** X18.  [center_window] keeps the size of the window and, when the window
    is no larger than the screen, places it wholly on the screen with margins
    that differ by at most one pixel, left and right as well as top and
    bottom. *)
Theorem center_window_on_screen (width height screenwidth screenheight : Z) :
  0 <= width <= screenwidth -> 0 <= height <= screenheight ->
  let '(w, h, x, y) := Gui.center_window width height screenwidth screenheight in
  w = width /\ h = height /\
  0 <= x /\ x + width <= screenwidth /\ -1 <= x - (screenwidth - (x + width)) <= 1 /\
  0 <= y /\ y + height <= screenheight /\ -1 <= y - (screenheight - (y + height)) <= 1.
Proof.
  intros Hw Hh. unfold Gui.center_window. cbv zeta.
  pose proof (Z.div_mod width 2 ltac:(lia)) as Ew.
  pose proof (Z.mod_pos_bound width 2 ltac:(lia)) as Bw.
  pose proof (Z.div_mod height 2 ltac:(lia)) as Eh.
  pose proof (Z.mod_pos_bound height 2 ltac:(lia)) as Bh.
  pose proof (Z.div_mod screenwidth 2 ltac:(lia)) as Esw.
  pose proof (Z.mod_pos_bound screenwidth 2 ltac:(lia)) as Bsw.
  pose proof (Z.div_mod screenheight 2 ltac:(lia)) as Esh.
  pose proof (Z.mod_pos_bound screenheight 2 ltac:(lia)) as Bsh.
  repeat split; lia.
Qed.

Lemma center_window_on_screen_witness :
  let '(w, h, x, y) := Gui.center_window 800 600 1921 1080 in
  w = 800 /\ h = 600 /\
  0 <= x /\ x + 800 <= 1921 /\ -1 <= x - (1921 - (x + 800)) <= 1 /\
  0 <= y /\ y + 600 <= 1080 /\ -1 <= y - (1080 - (y + 600)) <= 1.
Proof.
  apply (center_window_on_screen 800 600 1921 1080); lia.
Defined.
